(** * node-fpgrowth: FPNode, FPTree and the FPGrowth miner

    A shallow embedding of src/src/fpnode.ts, src/src/fptree.ts (the FPTree
    class followed by the FPGrowth class) and of the FPGrowth variant with the
    single-path shortcut in src/unnamed/part_001 (its second class).

    Modelling choices.
    - An item is represented by its key [JSON.stringify(item)]: the number 3
      by "3", a string item by its quoted JSON text.  [JSON.stringify] is
      injective on strings and on finite numbers (other than -0) and
      [JSON.parse] inverts it, so the JS objects keyed by stringified items
      are keyed by the items themselves here, [item == other] is equality of
      keys, and [localeCompare] compares keys, as the code does.  Concrete
      runs use short keys such as "a" for items whose key is not an array
      index; only that distinction is observable (see [object_keys]).
    - FPNode objects live in a per-tree heap [nodes : list FPNode]; a
      reference to an FPNode is its index in that heap and the root is
      index 0.  Conditional trees are fresh FPTree objects with fresh heaps.
    - [ItemsCount] objects whose key order is never observed are [gmap]s;
      [_firstInserted], whose [Object.keys] order makes the header list, is
      an association list in insertion order, read through [object_keys]
      (array-index keys first, in ascending numeric order, then the other
      keys in insertion order).
    - [Array.prototype.sort] is stable (ES2019); with a consistent comparator
      every stable sort returns the same list, here an insertion sort.
    - [JSON.stringify(a).localeCompare(JSON.stringify(b))] is the section
      variable [localeCompare a b].
    - Thrown errors are the [Throw] case of [result]. *)

From Stdlib Require Import ZArith QArith Qround Lia Sorted Permutation.
From stdpp Require Import base list gmap strings.

Open Scope Z_scope.
Open Scope nat_scope.

(** ** Errors *)

(** [new Error('Error building the FPTree')], the only error the code throws. *)
Inductive Error := ErrorBuildingFPTree.

Inductive result (A : Type) : Type :=
| Ok (a : A)
| Throw (e : Error).
Arguments Ok {A} a.
Arguments Throw {A} e.

Definition rbind {A B} (m : result A) (k : A -> result B) : result B :=
  match m with Ok a => k a | Throw e => Throw e end.

Notation "'let!' x ':=' m 'in' k" := (rbind m (fun x => k))
  (at level 200, x name, m at level 100, k at level 200).

(** ** JS objects with observable key order *)

Fixpoint jget {V} (k : string) (o : list (string * V)) : option V :=
  match o with
  | [] => None
  | (k', v) :: o' => if String.eqb k k' then Some v else jget k o'
  end.

(** [o[k] = v]: an existing key keeps its place, a new key goes last. *)
Fixpoint jset {V} (k : string) (v : V) (o : list (string * V)) : list (string * V) :=
  match o with
  | [] => [(k, v)]
  | (k', v') :: o' => if String.eqb k k' then (k, v) :: o' else (k', v') :: jset k v o'
  end.

(** ** Array.prototype.sort (stable) *)

Fixpoint insert_by {A} (cmp : A -> A -> Z) (x : A) (l : list A) : list A :=
  match l with
  | [] => [x]
  | y :: l' => if (cmp x y <? 0)%Z then x :: l else y :: insert_by cmp x l'
  end.

Definition js_sort {A} (cmp : A -> A -> Z) (l : list A) : list A :=
  fold_left (fun acc x => insert_by cmp x acc) l [].

(** ** Object.keys order *)

(** The value of a string of decimal digits, [None] if another character
    occurs. *)
Fixpoint digits_value (k : string) (acc : Z) : option Z :=
  match k with
  | EmptyString => Some acc
  | String c k' =>
      let n := Z.of_nat (Ascii.nat_of_ascii c) in
      if ((48 <=? n) && (n <=? 57))%Z then digits_value k' (acc * 10 + (n - 48))%Z else None
  end.

(** [k] is an array index when it is the canonical decimal form of an
    integer below 2^32 - 1 ("0", or digits without a leading zero). *)
Definition array_index (k : string) : option Z :=
  match k with
  | EmptyString => None
  | String c _ =>
      if String.eqb k "0" then Some 0%Z
      else if Nat.eqb (Ascii.nat_of_ascii c) 48 then None
      else match digits_value k 0 with
           | Some v => if (v <? 4294967295)%Z then Some v else None
           | None => None
           end
  end.

Definition is_index (k : string) : bool :=
  match array_index k with Some _ => true | None => false end.

Definition index_of (k : string) : Z := default 0%Z (array_index k).

(** [Object.keys(o)] for the keys [ks] of [o] in insertion order
    (OrdinaryOwnPropertyKeys): the array indices in ascending numeric order,
    then the other keys in insertion order. *)
Definition object_keys (ks : list string) : list string :=
  js_sort (fun a b => (index_of a - index_of b)%Z) (List.filter is_index ks) ++
  List.filter (fun k => negb (is_index k)) ks.

(** ** FPNode (src/src/fpnode.ts) *)

Record FPNode := mkFPNode {
  item : option string;            (** [null] for the root *)
  support : nat;
  parent : option nat;             (** [null] for the root *)
  children : list nat;             (** [_children], in push order *)
  nextSameItemNode : option nat }.

(** [new FPNode<T>(item, parent)]: [support = 1], no child, no node-link. *)
Definition newFPNode (it : option string) (par : option nat) : FPNode :=
  mkFPNode it 1 par [] None.

Definition set_support (s : nat) (nd : FPNode) : FPNode :=
  mkFPNode (item nd) s (parent nd) (children nd) (nextSameItemNode nd).
Definition push_child (c : nat) (nd : FPNode) : FPNode :=
  mkFPNode (item nd) (support nd) (parent nd) (children nd ++ [c]) (nextSameItemNode nd).
Definition set_next (nx : option nat) (nd : FPNode) : FPNode :=
  mkFPNode (item nd) (support nd) (parent nd) (children nd) nx.

(** [child.item == item] for the child stored at index [c]. *)
Definition child_is (ns : list FPNode) (x : string) (c : nat) : bool :=
  match ns !! c with
  | Some cn => match item cn with Some y => String.eqb y x | None => false end
  | None => false
  end.

(** [getChild(item)]: [this._children.find(child => child.item == item)]. *)
Definition getChild (ns : list FPNode) (this : nat) (x : string) : option nat :=
  match ns !! this with
  | Some nd => List.find (child_is ns x) (children nd)
  | None => None
  end.

(** ** FPTree (src/src/fptree.ts) *)

Record FPTree := mkFPTree {
  _isInit : bool;
  nodes : list FPNode;                       (** the tree's FPNodes; [root] is 0 *)
  supports : gmap string nat;                (** [supports: ItemsCount] *)
  _support : Z;                              (** minimum support *)
  _headers : list string;
  _firstInserted : list (string * nat);
  _lastInserted : gmap string nat }.

Definition root : nat := 0.

(** [new FPTree<T>(supports, _support)]. *)
Definition newFPTree (sups : gmap string nat) (s : Z) : FPTree :=
  mkFPTree false [newFPNode None None] sups s [] [] ∅.

Definition set_nodes (ns : list FPNode) (t : FPTree) : FPTree :=
  mkFPTree (_isInit t) ns (supports t) (_support t) (_headers t)
    (_firstInserted t) (_lastInserted t).

(** [upsertChild(item, onNewChild, support)] called on the node [this] of
    the tree [t]; the callback acts on the tree (it is the tree's
    node-link bookkeeping).  Returns the tree and the child. *)
Definition upsertChild (onNewChild : FPTree -> nat -> FPTree) (t : FPTree)
    (this : nat) (x : string) (s : nat) : FPTree * nat :=
  match getChild (nodes t) this x with
  | None =>
      let c := length (nodes t) in
      (* child = new FPNode<T>(item,this); child.support = support; *)
      let child := set_support s (newFPNode (Some x) (Some this)) in
      (* this._children.push(child) *)
      let ns := alter (push_child c) this (nodes t ++ [child]) in
      (onNewChild (set_nodes ns t) c, c)
  | Some c =>
      (* child.support += support *)
      let ns := alter (fun nd => set_support (support nd + s) nd) c (nodes t) in
      (set_nodes ns t, c)
  end.

Definition _updateLastInserted (k : string) (child : nat) (t : FPTree) : FPTree :=
  let ns := match _lastInserted t !! k with
            | Some last => alter (set_next (Some child)) last (nodes t)
            | None => nodes t
            end in
  mkFPTree (_isInit t) ns (supports t) (_support t) (_headers t)
    (_firstInserted t) (<[k := child]> (_lastInserted t)).

Definition _updateFirstInserted (k : string) (child : nat) (t : FPTree) : FPTree :=
  match jget k (_firstInserted t) with
  | Some _ => t
  | None =>
      mkFPTree (_isInit t) (nodes t) (supports t) (_support t) (_headers t)
        (jset k child (_firstInserted t)) (_lastInserted t)
  end.

(** The callback given to [upsertChild] by [_addItems]. *)
Definition onNewChild (x : string) (t : FPTree) (child : nat) : FPTree :=
  _updateFirstInserted x child (_updateLastInserted x child t).

(** [_addItems(items, prefixSupport)]. *)
Definition _addItems (t : FPTree) (items : list string) (prefixSupport : nat) : FPTree :=
  fst (fold_left (fun '(t, current) x =>
                    upsertChild (onNewChild x) t current x prefixSupport)
                 items (t, root)).

(** [this.supports[JSON.stringify(x)]] as a number in a comparator. *)
Definition sup_of (sups : gmap string nat) (x : string) : Z :=
  Z.of_nat (default 0 (sups !! x)).

Section WithLocaleCompare.

(** [localeCompare a b] is [JSON.stringify(a).localeCompare(JSON.stringify(b))]. *)
Variable localeCompare : string -> string -> Z.

(** The comparator of [fromTransactions] and [fromPrefixPaths]. *)
Definition item_cmp (sups : gmap string nat) (a b : string) : Z :=
  let res := (sup_of sups b - sup_of sups a)%Z in
  if (res =? 0)%Z then localeCompare b a else res.

(** [this.supports[JSON.stringify(item)] >= this._support] ([undefined >= n]
    is false). *)
Definition frequent (t : FPTree) (x : string) : bool :=
  match supports t !! x with
  | Some s => (_support t <=? Z.of_nat s)%Z
  | None => false
  end.

(** Pruning then sorting of one transaction or prefix path. *)
Definition prepare (t : FPTree) (items : list string) : list string :=
  js_sort (item_cmp (supports t)) (List.filter (frequent t) items).

(** [_getHeaderList()]: [Object.keys(this._firstInserted)] sorted by
    support, mapped through [JSON.parse]. *)
Definition _getHeaderList (t : FPTree) : list string :=
  js_sort (fun a b => (sup_of (supports t) a - sup_of (supports t) b)%Z)
          (object_keys (map fst (_firstInserted t))).

Definition finish_build (t : FPTree) : FPTree :=
  mkFPTree true (nodes t) (supports t) (_support t) (_getHeaderList t)
    (_firstInserted t) (_lastInserted t).

(** [fromTransactions(transactions)]. *)
Definition fromTransactions (t : FPTree) (transactions : list (list string)) : result FPTree :=
  if _isInit t then Throw ErrorBuildingFPTree
  else Ok (finish_build
             (fold_left (fun t tr => _addItems t (prepare t tr) 1) transactions t)).

Record IPrefixPath := mkPrefixPath { path : list string; pp_support : nat }.

(** [fromPrefixPaths(prefixPaths)]. *)
Definition fromPrefixPaths (t : FPTree) (prefixPaths : list IPrefixPath) : result FPTree :=
  if _isInit t then Throw ErrorBuildingFPTree
  else Ok (finish_build
             (fold_left (fun t pp => _addItems t (prepare t (path pp)) (pp_support pp))
                        prefixPaths t)).


(** The optional [onPushingNewItem] callback; its effect is on the
    [ItemsCount] object it closes over. *)
Definition Callback := string -> nat -> gmap string nat -> gmap string nat.

Definition no_callback : Callback := fun _ _ m => m.

(** [_getPrefixPath(node, count, onPushingNewItem)].  The parent chain is
    followed at most [fuel] times; callers give the heap size, and parents
    are older than their children, so it never runs out. *)
Fixpoint _getPrefixPath (fuel : nat) (ns : list FPNode) (node count : nat)
    (cb : Callback) (cts : gmap string nat) : list string * gmap string nat :=
  match fuel with
  | 0 => ([], cts)
  | S f =>
      match ns !! node with
      | Some nd =>
          match parent nd with
          | Some p =>
              match ns !! p with
              | Some pn =>
                  match parent pn with
                  | Some _ =>
                      (* node.parent && node.parent.parent: the parent is not the
                         root, so its item is never null *)
                      match item pn with
                      | Some y =>
                          let cts := cb y count cts in
                          let '(rest, cts) := _getPrefixPath f ns p count cb cts in
                          (y :: rest, cts)
                      | None => _getPrefixPath f ns p count cb cts
                      end
                  | None => ([], cts)
                  end
              | None => ([], cts)
              end
          | None => ([], cts)
          end
      | None => ([], cts)
      end
  end.

(** [getPrefixPath(node, onPushingNewItem)]; [None] is [undefined]. *)
Definition getPrefixPath (t : FPTree) (node : nat) (cb : Callback) (cts : gmap string nat)
    : result (option IPrefixPath * gmap string nat) :=
  if negb (_isInit t) then Throw ErrorBuildingFPTree
  else
    let s := default 0 (support <$> (nodes t !! node)) in
    let '(p, cts) := _getPrefixPath (length (nodes t)) (nodes t) node s cb cts in
    match p with
    | [] => Ok (None, cts)
    | _ :: _ => Ok (Some (mkPrefixPath p s), cts)
    end.

(** [_getPrefixPaths(node, count, onPushingNewItem, prefixPaths)], along the
    node-links; at most [fuel] nodes are visited. *)
Fixpoint _getPrefixPaths (fuel : nat) (t : FPTree) (node count : nat) (cb : Callback)
    (cts : gmap string nat) (prefixPaths : list IPrefixPath)
    : result (list IPrefixPath * gmap string nat) :=
  match fuel with
  | 0 => Ok (prefixPaths, cts)
  | S f =>
      let! r := getPrefixPath t node cb cts in
      let '(pp, cts) := r in
      let prefixPaths := match pp with
                         | Some p => prefixPaths ++ [p]
                         | None => prefixPaths
                         end in
      match nodes t !! node with
      | Some nd =>
          match nextSameItemNode nd with
          | Some nx => _getPrefixPaths f t nx count cb cts prefixPaths
          | None => Ok (prefixPaths, cts)
          end
      | None => Ok (prefixPaths, cts)
      end
  end.

(** The callback of [getConditionalFPTree]:
    [conditionalTreeSupports[i] = (conditionalTreeSupports[i] || 0) + count]. *)
Definition count_item : Callback :=
  fun i count cts => <[i := default 0 (cts !! i) + count]> cts.

Definition root_has_children (t : FPTree) : bool :=
  match nodes t !! root with
  | Some r => match children r with [] => false | _ => true end
  | None => false
  end.

(** [getConditionalFPTree(item)]; [None] is [null]. *)
Definition getConditionalFPTree (t : FPTree) (x : string) : result (option FPTree) :=
  match jget x (_firstInserted t) with
  | None => Ok None
  | Some start =>
      let s := default 0 (supports t !! x) in
      let! r := _getPrefixPaths (length (nodes t)) t start s count_item ∅ [] in
      let '(prefixPaths, cts) := r in
      let! ret := fromPrefixPaths (newFPTree cts (_support t)) prefixPaths in
      if root_has_children ret then Ok (Some ret) else Ok None
  end.

(** [getPrefixPaths(item)]. *)
Definition getPrefixPaths (t : FPTree) (x : string) : result (list IPrefixPath) :=
  if negb (_isInit t) then Throw ErrorBuildingFPTree
  else
    match jget x (_firstInserted t) with
    | None => Ok []
    | Some start =>
        let s := default 0 (support <$> (nodes t !! start)) in
        let! r := _getPrefixPaths (length (nodes t)) t start s no_callback ∅ [] in
        Ok (fst r)
    end.

(** [_getSinglePath(node, currentPath)]; [None] is [null]; at most [fuel]
    steps down. *)
Fixpoint _getSinglePath (fuel : nat) (ns : list FPNode) (node : nat)
    (currentPath : list nat) : option (list nat) :=
  match fuel with
  | 0 => Some currentPath
  | S f =>
      match ns !! node with
      | Some nd =>
          match children nd with
          | [] => Some currentPath
          | [c] => _getSinglePath f ns c (currentPath ++ [c])
          | _ => None
          end
      | None => Some currentPath
      end
  end.

(** [getSinglePath()]. *)
Definition getSinglePath (t : FPTree) : result (option (list nat)) :=
  if negb (_isInit t) then Throw ErrorBuildingFPTree
  else Ok (_getSinglePath (length (nodes t)) (nodes t) root []).

(** [isSinglePath()]: [![]] is false in JS, so an empty path counts. *)
Definition isSinglePath (t : FPTree) : result bool :=
  let! sp := getSinglePath t in
  match sp with Some _ => Ok true | None => Ok false end.

(** ** FPGrowth (second class of src/src/fptree.ts) *)

Record Itemset := mkItemset { items : list string; is_support : nat }.

(** [_getFrequentItemset(itemset, support)]; the ['data'] event carries the
    same itemset that is put in the result, in the same order. *)
Definition _getFrequentItemset (itemset : list string) (s : nat) : Itemset :=
  mkItemset itemset s.

(** [_fpGrowth(tree, prefixSupport, prefix)] with the single-path test
    commented out (TODO).  [fuel] bounds the recursion depth. *)
Fixpoint _fpGrowth (fuel : nat) (tree : FPTree) (prefixSupport : nat)
    (prefix : list string) : result (list Itemset) :=
  match fuel with
  | 0 => Ok []
  | S f =>
      fold_left
        (fun acc x =>
           let! itemsets := acc in
           let s := Nat.min (default 0 (supports tree !! x)) prefixSupport in
           let currentPrefix := prefix ++ [x] in
           let itemsets := itemsets ++ [_getFrequentItemset currentPrefix s] in
           let! childTree := getConditionalFPTree tree x in
           match childTree with
           | Some ct =>
               let! sub := _fpGrowth f ct s currentPrefix in
               Ok (itemsets ++ sub)
           | None => Ok itemsets
           end)
        (_headers tree) (Ok [])
  end.

(** [_getDistinctItemsCount(transactions)]. *)
Definition _getDistinctItemsCount (transactions : list (list string)) : gmap string nat :=
  fold_left (fun count arr =>
               fold_left (fun count x => <[x := default 0 (count !! x) + 1]> count)
                         arr count)
            transactions ∅.

(** The FPGrowth object: [_support] (relative when constructed, overwritten
    by [exec]) and [_transactions]. *)
Record FPGrowth := mkFPGrowth { fpg_support : Q; _transactions : list (list string) }.

Definition newFPGrowth (s : Q) : FPGrowth := mkFPGrowth s [].

(** A recursion budget for [_fpGrowth]: one more than the length of the
    longest transaction.  No root path of the tree built from the
    transactions is longer, and the root paths of a conditional tree are
    strictly shorter than those of the tree it comes from, so the code never
    recurses deeper; [fpGrowth_fuel_enough] shows that any larger budget
    gives the same result. *)
Definition mining_fuel (transactions : list (list string)) : nat :=
  S (list_max (map length transactions)).

(** [exec(transactions)]: the new state of the object and what the Promise
    resolves to (or rejects with). *)
Definition exec (self : FPGrowth) (transactions : list (list string))
    : FPGrowth * result (list Itemset) :=
  let n := length transactions in
  (* this._support = Math.ceil(this._support * transactions.length) *)
  let thr := Qceiling (fpg_support self * inject_Z (Z.of_nat n)) in
  let self := mkFPGrowth (inject_Z thr) transactions in
  let sups := _getDistinctItemsCount transactions in
  (self,
   let! tree := fromTransactions (newFPTree sups thr) transactions in
   _fpGrowth (mining_fuel transactions) tree n []).

End WithLocaleCompare.

(** ** FPGrowth with the single-path shortcut (second class of src/unnamed/part_001) *)

Module Part001.
Section WithLocaleCompare.

Variable localeCompare : string -> string -> Z.

(** [node.item] of a path node, as the one-element array [concat] appends
    (path nodes are never the root, whose item is null). *)
Definition node_item (ns : list FPNode) (i : nat) : list string :=
  match ns !! i with Some nd => option_list (item nd) | None => [] end.

Definition node_support (ns : list FPNode) (i : nat) : nat :=
  default 0 (support <$> (ns !! i)).

(** [_handleSinglePath(singlePath, prefixSupport, prefix)]. *)
Definition _handleSinglePath (ns : list FPNode) (singlePath : list nat)
    (prefixSupport : nat) (prefix : list string) : list Itemset :=
  fold_left
    (fun itemsets node =>
       itemsets
         ++ map (fun is => _getFrequentItemset (items is ++ node_item ns node)
                             (Nat.min (is_support is) (node_support ns node)))
                itemsets
         ++ [_getFrequentItemset (prefix ++ node_item ns node)
                                 (Nat.min (node_support ns node) prefixSupport)])
    singlePath [].

(** [_fpGrowth(tree, prefixSupport, prefix)] taking the shortcut. *)
Fixpoint _fpGrowth (fuel : nat) (tree : FPTree) (prefixSupport : nat)
    (prefix : list string) : result (list Itemset) :=
  match fuel with
  | 0 => Ok []
  | S f =>
      let! singlePath := getSinglePath tree in
      match singlePath with
      | Some sp => Ok (_handleSinglePath (nodes tree) sp prefixSupport prefix)
      | None =>
          fold_left
            (fun acc x =>
               let! itemsets := acc in
               let s := Nat.min (default 0 (supports tree !! x)) prefixSupport in
               let currentPrefix := prefix ++ [x] in
               let itemsets := itemsets ++ [_getFrequentItemset currentPrefix s] in
               let! childTree := getConditionalFPTree localeCompare tree x in
               match childTree with
               | Some ct =>
                   let! sub := _fpGrowth f ct s currentPrefix in
                   Ok (itemsets ++ sub)
               | None => Ok itemsets
               end)
            (_headers tree) (Ok [])
      end
  end.

(** [exec(transactions)] of this variant. *)
Definition exec (self : FPGrowth) (transactions : list (list string))
    : FPGrowth * result (list Itemset) :=
  let n := length transactions in
  let thr := Qceiling (fpg_support self * inject_Z (Z.of_nat n)) in
  let self := mkFPGrowth (inject_Z thr) transactions in
  let sups := _getDistinctItemsCount transactions in
  (self,
   let! tree := fromTransactions localeCompare (newFPTree sups thr) transactions in
   _fpGrowth (mining_fuel transactions) tree n []).

End WithLocaleCompare.
End Part001.

(** A [localeCompare] for the concrete runs: code-point order, which is the
    locale order on the one-character items used there. *)
Definition code_point_compare (a b : string) : Z :=
  match String.compare a b with Lt => -1 | Eq => 0 | Gt => 1 end%Z.

Definition spec_transactions : list (list string) :=
  [["1";"3";"4"]; ["2";"3";"5"]; ["1";"2";"3";"5"]; ["2";"5"]; ["1";"2";"3";"5"]].

Definition show_result (r : result (list Itemset)) : list (list string * nat) :=
  match r with Ok l => map (fun i => (items i, is_support i)) l | Throw _ => [] end.

(** The brute-force reference: how many transactions contain every item of [S]. *)
Definition contains_all (t : list string) (S : list string) : bool :=
  forallb (fun y => bool_decide (y ∈ t)) S.

Definition brute_count (ts : list (list string)) (S : list string) : nat :=
  length (List.filter (fun t => contains_all t S) ts).

Definition emitted (r : result (list Itemset)) (is : Itemset) : Prop :=
  match r with Ok l => is ∈ l | Throw _ => False end.

(** * Concrete inputs *)

Definition dup_transactions : list (list string) := [["a";"a"]; ["b"]].

(** The tree [exec] builds for [dup_transactions] with relative support 1/2. *)
Definition dup_tree : result FPTree :=
  fromTransactions code_point_compare
    (newFPTree (_getDistinctItemsCount dup_transactions) 1) dup_transactions.

Definition built_headers (ts : list (list string)) : result (list string) :=
  let! t := fromTransactions code_point_compare (newFPTree (_getDistinctItemsCount ts) 1) ts in
  Ok (_headers t).

(** * The FPTree heap: well-formedness and sibling uniqueness *)

Section Heap.

(** Fields of an FPNode that fix the shape of the tree. *)
Definition shape (nd : FPNode) : option string * option nat * list nat :=
  (item nd, parent nd, children nd).

Record wf (ns : list FPNode) : Prop := {
  wf_root : exists r, ns !! root = Some r /\ item r = None /\ parent r = None;
  wf_node : forall i nd, ns !! i = Some nd -> i <> root ->
    exists x p pn, item nd = Some x /\ parent nd = Some p /\ p < i /\
                   ns !! p = Some pn /\ i ∈ children pn;
  wf_child : forall i nd c, ns !! i = Some nd -> c ∈ children nd ->
    exists cn, ns !! c = Some cn /\ parent cn = Some i;
  wf_sibling : forall i nd c1 c2 n1 n2, ns !! i = Some nd ->
    c1 ∈ children nd -> c2 ∈ children nd -> ns !! c1 = Some n1 -> ns !! c2 = Some n2 ->
    item n1 = item n2 -> c1 = c2;
  wf_nodup : forall i nd, ns !! i = Some nd -> NoDup (children nd) }.

(** No node has two children carrying equal items. *)
Definition siblings_distinct (ns : list FPNode) : Prop :=
  forall i nd c1 c2 n1 n2, ns !! i = Some nd -> c1 ∈ children nd -> c2 ∈ children nd ->
    ns !! c1 = Some n1 -> ns !! c2 = Some n2 -> item n1 = item n2 -> c1 = c2.

Lemma shape_lookup (ns ns' : list FPNode) i nd' :
  shape <$> ns = shape <$> ns' -> ns' !! i = Some nd' ->
  exists nd, ns !! i = Some nd /\ item nd = item nd' /\ parent nd = parent nd' /\
             children nd = children nd'.
Proof.
  intros Hs Hl.
  assert (H : (shape <$> ns) !! i = Some (shape nd')) by
    (rewrite Hs, list_lookup_fmap, Hl; reflexivity).
  rewrite list_lookup_fmap in H.
  destruct (ns !! i) as [nd|] eqn:E; [|discriminate].
  unfold shape in H. simpl in H. injection H as H1 H2 H3.
  exists nd. auto.
Qed.

Lemma wf_same_shape (ns ns' : list FPNode) :
  shape <$> ns = shape <$> ns' -> wf ns -> wf ns'.
Proof.
  intros Hs Hwf. assert (Hs' : shape <$> ns' = shape <$> ns) by auto.
  constructor.
  - destruct (wf_root _ Hwf) as (r & Hr & Hi & Hp).
    assert (H : (shape <$> ns') !! root = Some (shape r)) by
      (rewrite <- Hs, list_lookup_fmap, Hr; reflexivity).
    rewrite list_lookup_fmap in H.
    destruct (ns' !! root) as [r'|]; [|discriminate].
    unfold shape in H. simpl in H. injection H as H1 H2 H3.
    exists r'. rewrite H1, H2. auto.
  - intros i nd' Hl Hi.
    destruct (shape_lookup _ _ _ _ Hs Hl) as (nd & Hnd & E1 & E2 & E3).
    destruct (wf_node _ Hwf _ _ Hnd Hi) as (x & p & pn & Hx & Hp & Hlt & Hpn & Hin).
    destruct (shape_lookup _ _ _ _ Hs' Hpn) as (pn' & Hpn' & F1 & F2 & F3).
    exists x, p, pn'. rewrite <- E1, <- E2, F3. auto.
  - intros i nd' c Hl Hc.
    destruct (shape_lookup _ _ _ _ Hs Hl) as (nd & Hnd & E1 & E2 & E3).
    rewrite <- E3 in Hc.
    destruct (wf_child _ Hwf _ _ _ Hnd Hc) as (cn & Hcn & Hp).
    destruct (shape_lookup _ _ _ _ Hs' Hcn) as (cn' & Hcn' & F1 & F2 & F3).
    exists cn'. rewrite F2. auto.
  - intros i nd' c1 c2 n1' n2' Hl H1 H2 Hn1 Hn2 Heq.
    destruct (shape_lookup _ _ _ _ Hs Hl) as (nd & Hnd & E1 & E2 & E3).
    destruct (shape_lookup _ _ _ _ Hs Hn1) as (n1 & Hn1' & F1 & _ & _).
    destruct (shape_lookup _ _ _ _ Hs Hn2) as (n2 & Hn2' & G1 & _ & _).
    rewrite <- E3 in H1, H2.
    apply (wf_sibling _ Hwf _ _ _ _ _ _ Hnd H1 H2 Hn1' Hn2'). congruence.
  - intros i nd' Hl.
    destruct (shape_lookup _ _ _ _ Hs Hl) as (nd & Hnd & E1 & E2 & E3).
    rewrite <- E3. apply (wf_nodup _ Hwf _ _ Hnd).
Qed.

Lemma shape_alter (f : FPNode -> FPNode) (i : nat) (ns : list FPNode) :
  (forall nd, shape (f nd) = shape nd) -> shape <$> alter f i ns = shape <$> ns.
Proof.
  intros Hf. apply list_eq. intros j.
  rewrite !list_lookup_fmap, list_lookup_alter.
  case_decide; subst; [|reflexivity].
  destruct (ns !! j); simpl; [rewrite Hf|]; reflexivity.
Qed.

Lemma shape_set_support s nd : shape (set_support s nd) = shape nd.
Proof. reflexivity. Qed.
Lemma shape_set_next nx nd : shape (set_next nx nd) = shape nd.
Proof. reflexivity. Qed.

Lemma child_is_spec ns x c :
  child_is ns x c = true <-> exists cn, ns !! c = Some cn /\ item cn = Some x.
Proof.
  unfold child_is. destruct (ns !! c) as [cn|]; split.
  - destruct (item cn) as [y|] eqn:E; [|discriminate].
    intros H. apply String.eqb_eq in H. subst. eauto.
  - intros (cn' & H1 & H2). injection H1 as <-. rewrite H2. apply String.eqb_refl.
  - discriminate.
  - intros (cn' & H1 & _). discriminate.
Qed.

Lemma getChild_None ns this tn x c cn :
  ns !! this = Some tn -> getChild ns this x = None -> c ∈ children tn ->
  ns !! c = Some cn -> item cn <> Some x.
Proof.
  unfold getChild. intros Ht Hg Hc Hcn Hx. rewrite Ht in Hg.
  apply list_elem_of_In in Hc.
  pose proof (List.find_none _ _ Hg c Hc) as Hf.
  assert (child_is ns x c = true) by (apply child_is_spec; eauto).
  congruence.
Qed.

Lemma getChild_Some ns this tn x c :
  ns !! this = Some tn -> getChild ns this x = Some c ->
  c ∈ children tn /\ exists cn, ns !! c = Some cn /\ item cn = Some x.
Proof.
  unfold getChild. intros Ht Hg. rewrite Ht in Hg.
  apply List.find_some in Hg as [Hin Hc].
  split; [by apply list_elem_of_In|]. by apply child_is_spec.
Qed.

(** The heap after [upsertChild] created the child [c = length ns] of [this]. *)
Definition new_child_heap (ns : list FPNode) (this : nat) (x : string) (s : nat) : list FPNode :=
  alter (push_child (length ns)) this
        (ns ++ [set_support s (newFPNode (Some x) (Some this))]).

Lemma new_child_heap_lookup ns this x s j :
  this < length ns ->
  new_child_heap ns this x s !! j =
    if decide (j = this) then push_child (length ns) <$> ns !! this
    else if decide (j = length ns) then Some (set_support s (newFPNode (Some x) (Some this)))
    else ns !! j.
Proof.
  intros Hlt. unfold new_child_heap. rewrite list_lookup_alter.
  destruct (decide (this = j)); subst.
  - rewrite decide_True by reflexivity. rewrite lookup_app_l by lia. reflexivity.
  - rewrite decide_False by congruence.
    destruct (decide (j = length ns)); subst.
    + rewrite lookup_app_r by lia. rewrite Nat.sub_diag. reflexivity.
    + rewrite lookup_app. destruct (ns !! j) eqn:E; [reflexivity|].
      apply lookup_ge_None in E.
      destruct (j - length ns) eqn:E2; [lia|reflexivity].
Qed.

Lemma length_new_child_heap ns this x s :
  length (new_child_heap ns this x s) = S (length ns).
Proof. unfold new_child_heap. rewrite length_alter, length_app. simpl. lia. Qed.

Lemma wf_lookup_lt ns i nd c :
  wf ns -> ns !! i = Some nd -> c ∈ children nd -> c < length ns.
Proof.
  intros Hwf Hi Hc. destruct (wf_child _ Hwf _ _ _ Hi Hc) as (cn & Hcn & _).
  eapply lookup_lt_Some; eauto.
Qed.

Lemma wf_new_child ns this tn x s :
  wf ns -> ns !! this = Some tn -> getChild ns this x = None ->
  wf (new_child_heap ns this x s).
Proof.
  intros Hwf Ht Hg.
  assert (Hlt : this < length ns) by (eapply lookup_lt_Some; eauto).
  set (c := length ns).
  assert (L : forall j, new_child_heap ns this x s !! j =
    if decide (j = this) then push_child c <$> ns !! this
    else if decide (j = c) then Some (set_support s (newFPNode (Some x) (Some this)))
    else ns !! j) by (intros; apply new_child_heap_lookup; auto).
  assert (Hold : forall j nd, ns !! j = Some nd -> j < c) by
    (intros j nd H; eapply lookup_lt_Some; eauto).
  (* every lookup in the new heap comes from an old node, the grown parent
     or the new child *)
  assert (Lk : forall j nd, new_child_heap ns this x s !! j = Some nd ->
     (j = this /\ nd = push_child c tn) \/
     (j = c /\ nd = set_support s (newFPNode (Some x) (Some this))) \/
     (j <> this /\ j <> c /\ ns !! j = Some nd)).
  { intros j nd H. rewrite L in H.
    destruct (decide (j = this)); subst.
    - rewrite Ht in H. injection H as <-. auto.
    - destruct (decide (j = c)); subst.
      + injection H as <-. auto.
      + auto. }
  constructor.
  - destruct (wf_root _ Hwf) as (r & Hr & Hi & Hp).
    rewrite L. destruct (decide (root = this)).
    + subst. rewrite Hr. simpl. eexists; split; [reflexivity|]. auto.
    + rewrite decide_False by (unfold c; pose proof (Hold _ _ Hr); lia).
      eauto.
  - intros i nd Hl Hi. destruct (Lk _ _ Hl) as [[-> ->]|[[-> ->]|(H1 & H2 & H3)]].
    + destruct (wf_node _ Hwf _ _ Ht Hi) as (y & p & pn & Hy & Hp & Hpl & Hpn & Hin).
      exists y, p, pn. simpl. repeat split; auto.
      rewrite L, decide_False by lia. rewrite decide_False by (pose proof (Hold _ _ Hpn); lia).
      exact Hpn.
    + exists x, this, (push_child c tn). simpl. repeat split; auto.
      rewrite L, decide_True by reflexivity. rewrite Ht. reflexivity.
      apply elem_of_app. right. apply list_elem_of_singleton. reflexivity.
    + destruct (wf_node _ Hwf _ _ H3 Hi) as (y & p & pn & Hy & Hp & Hpl & Hpn & Hin).
      destruct (decide (p = this)).
      * subst. exists y, this, (push_child c tn). repeat split; auto.
        rewrite L, decide_True by reflexivity. rewrite Ht. reflexivity.
        rewrite Ht in Hpn. injection Hpn as <-. simpl.
        apply elem_of_app. auto.
      * exists y, p, pn. repeat split; auto.
        rewrite L, decide_False by auto. rewrite decide_False by (pose proof (Hold _ _ Hpn); lia).
        exact Hpn.
  - intros i nd c' Hl Hc'. destruct (Lk _ _ Hl) as [[-> ->]|[[-> ->]|(H1 & H2 & H3)]].
    + simpl in Hc'. apply elem_of_app in Hc' as [Hc'|Hc'].
      * destruct (wf_child _ Hwf _ _ _ Ht Hc') as (cn & Hcn & Hp).
        destruct (decide (c' = this)) as [->|].
        { rewrite Ht in Hcn. injection Hcn as <-.
          exists (push_child c tn). split; [|exact Hp].
          rewrite L, decide_True by reflexivity. rewrite Ht. reflexivity. }
        exists cn. split; auto. rewrite L, decide_False by auto.
        rewrite decide_False by (pose proof (Hold _ _ Hcn); lia). exact Hcn.
      * apply list_elem_of_singleton in Hc'. subst c'.
        eexists; split; [rewrite L, decide_False by lia; rewrite decide_True by reflexivity; reflexivity|].
        reflexivity.
    + simpl in Hc'. apply elem_of_nil in Hc'. contradiction.
    + destruct (wf_child _ Hwf _ _ _ H3 Hc') as (cn & Hcn & Hp).
      destruct (decide (c' = this)) as [->|].
      * rewrite Ht in Hcn. injection Hcn as <-.
        exists (push_child c tn). split; [|exact Hp].
        rewrite L, decide_True by reflexivity. rewrite Ht. reflexivity.
      * exists cn. split; auto. rewrite L, decide_False by auto.
        rewrite decide_False by (pose proof (Hold _ _ Hcn); lia). exact Hcn.
  - intros i nd c1 c2 n1 n2 Hl H1 H2 Hn1 Hn2 Heq.
    destruct (Lk _ _ Hl) as [[-> ->]|[[-> ->]|(G1 & G2 & G3)]].
    + simpl in H1, H2.
      assert (Hcase : forall c0 n0, c0 ∈ children tn ++ [c] ->
                new_child_heap ns this x s !! c0 = Some n0 ->
                (c0 = c /\ item n0 = Some x) \/ (c0 ∈ children tn /\ ns !! c0 = Some n0)).
      { intros c0 n0 Hc0 Hn0. apply elem_of_app in Hc0 as [Hc0|Hc0].
        - right. split; auto. rewrite L in Hn0.
          pose proof (wf_lookup_lt _ _ _ _ Hwf Ht Hc0).
          destruct (decide (c0 = this)) as [->|].
          + exfalso. destruct (wf_child _ Hwf _ _ _ Ht Hc0) as (cn & Hcn & Hp).
            rewrite Ht in Hcn. injection Hcn as <-.
            destruct (decide (this = root)) as [->|Hnr].
            { destruct (wf_root _ Hwf) as (r & Hr & _ & Hpr). rewrite Ht in Hr. congruence. }
            destruct (wf_node _ Hwf _ _ Ht Hnr) as (? & p & ? & ? & Hp' & Hl' & _).
            rewrite Hp in Hp'. injection Hp' as <-. lia.
          + rewrite decide_False in Hn0 by lia. exact Hn0.
        - apply list_elem_of_singleton in Hc0. subst c0. left. split; auto.
          rewrite L, decide_False in Hn0 by lia. rewrite decide_True in Hn0 by reflexivity.
          injection Hn0 as <-. reflexivity. }
      destruct (Hcase _ _ H1 Hn1) as [[-> E1]|[Hc1 Hm1]];
      destruct (Hcase _ _ H2 Hn2) as [[-> E2]|[Hc2 Hm2]]; auto.
      * exfalso. apply (getChild_None _ _ _ _ _ _ Ht Hg Hc2 Hm2). congruence.
      * exfalso. apply (getChild_None _ _ _ _ _ _ Ht Hg Hc1 Hm1). congruence.
      * apply (wf_sibling _ Hwf _ _ _ _ _ _ Ht Hc1 Hc2 Hm1 Hm2 Heq).
    + simpl in H1. apply elem_of_nil in H1. contradiction.
    + assert (Hback : forall c0 n0, c0 ∈ children nd ->
                new_child_heap ns this x s !! c0 = Some n0 ->
                exists m0, ns !! c0 = Some m0 /\ item m0 = item n0).
      { intros c0 n0 Hc0 Hn0. rewrite L in Hn0.
        pose proof (wf_lookup_lt _ _ _ _ Hwf G3 Hc0).
        destruct (decide (c0 = this)) as [->|].
        - rewrite Ht in Hn0. injection Hn0 as <-. exists tn. split; auto.
        - rewrite decide_False in Hn0 by lia. eauto. }
      destruct (Hback _ _ H1 Hn1) as (m1 & Hm1 & E1).
      destruct (Hback _ _ H2 Hn2) as (m2 & Hm2 & E2).
      apply (wf_sibling _ Hwf _ _ _ _ _ _ G3 H1 H2 Hm1 Hm2). congruence.
  - intros i nd Hl. destruct (Lk _ _ Hl) as [[-> ->]|[[-> ->]|(G1 & G2 & G3)]].
    + simpl. apply NoDup_app. split; [apply (wf_nodup _ Hwf _ _ Ht)|]. split.
      * intros c0 Hc0 Hc0'. apply list_elem_of_singleton in Hc0'. subst.
        pose proof (wf_lookup_lt _ _ _ _ Hwf Ht Hc0). unfold c in *. lia.
      * apply NoDup_singleton.
    + simpl. constructor.
    + apply (wf_nodup _ Hwf _ _ G3).
Qed.

End Heap.

(** * Insertion: [upsertChild] and [_addItems] *)

Section Insertion.

(** One step of the fold in [_addItems]. *)
Definition add_step (w : nat) : FPTree * nat -> string -> FPTree * nat :=
  fun '(t, current) x => upsertChild (onNewChild x) t current x w.

(** A sequence of [_addItems] calls, each with its items and prefix support. *)
Definition insert_all (t : FPTree) (L : list (list string * nat)) : FPTree :=
  fold_left (fun t '(q, w) => _addItems t q w) L t.

Lemma _addItems_fold t q w : _addItems t q w = fst (fold_left (add_step w) q (t, root)).
Proof. reflexivity. Qed.

Lemma fold_left_inv {A B} (f : A -> B -> A) (P : A -> Prop) (l : list B) (a : A) :
  P a -> (forall a b, P a -> P (f a b)) -> P (fold_left f l a).
Proof. revert a. induction l; simpl; auto. Qed.

(** The fields other than the heap and the node-links are never touched by
    an insertion. *)
Definition frame (t : FPTree) : bool * gmap string nat * Z * list string :=
  (_isInit t, supports t, _support t, _headers t).

Lemma frame_onNewChild x t c : frame (onNewChild x t c) = frame t.
Proof.
  unfold onNewChild, _updateFirstInserted, _updateLastInserted.
  destruct (jget _ _); reflexivity.
Qed.

Lemma frame_upsertChild x t this s :
  frame (fst (upsertChild (onNewChild x) t this x s)) = frame t.
Proof.
  unfold upsertChild. destruct (getChild _ _ _); simpl; [reflexivity|].
  rewrite frame_onNewChild. reflexivity.
Qed.

Lemma frame_add_step w tc x : frame (fst (add_step w tc x)) = frame (fst tc).
Proof. destruct tc as [t c]. apply frame_upsertChild. Qed.

Lemma frame_addItems t q w : frame (_addItems t q w) = frame t.
Proof.
  rewrite _addItems_fold.
  apply (fold_left_inv _ (fun tc => frame (fst tc) = frame t)); [reflexivity|].
  intros tc x H. rewrite frame_add_step. exact H.
Qed.

Lemma frame_insert_all t L : frame (insert_all t L) = frame t.
Proof.
  unfold insert_all.
  apply (fold_left_inv _ (fun t' => frame t' = frame t)); [reflexivity|].
  intros t' [q w] H. rewrite frame_addItems. exact H.
Qed.

Lemma shape_onNewChild x t c : shape <$> nodes (onNewChild x t c) = shape <$> nodes t.
Proof.
  unfold onNewChild, _updateFirstInserted, _updateLastInserted.
  destruct (jget _ _); simpl;
  (destruct (_lastInserted t !! x); [apply shape_alter; reflexivity|reflexivity]).
Qed.

Lemma upsertChild_wf x t this s :
  wf (nodes t) -> this < length (nodes t) ->
  let r := upsertChild (onNewChild x) t this x s in
  wf (nodes (fst r)) /\ snd r < length (nodes (fst r)) /\
  length (nodes t) <= length (nodes (fst r)).
Proof.
  intros Hwf Hlt. unfold upsertChild.
  destruct (lookup_lt_is_Some_2 _ _ Hlt) as [tn Ht].
  destruct (getChild (nodes t) this x) as [c|] eqn:Hg; simpl.
  - destruct (getChild_Some _ _ _ _ _ Ht Hg) as [Hc _].
    assert (Hs : shape <$> nodes t =
                 shape <$> alter (fun nd => set_support (support nd + s) nd) c (nodes t))
      by (symmetry; apply shape_alter; reflexivity).
    split; [eapply wf_same_shape; eauto|].
    rewrite length_alter. split; [eapply wf_lookup_lt; eauto|lia].
  - assert (Hs := shape_onNewChild x
                    (set_nodes (alter (push_child (length (nodes t))) this
                                  (nodes t ++ [set_support s (newFPNode (Some x) (Some this))])) t)
                    (length (nodes t))).
    simpl in Hs.
    assert (Hl := f_equal length Hs). rewrite !length_fmap in Hl.
    fold (new_child_heap (nodes t) this x s) in Hs, Hl.
    rewrite length_new_child_heap in Hl.
    split; [eapply wf_same_shape; [symmetry; exact Hs|]; eapply wf_new_child; eauto|].
    fold (new_child_heap (nodes t) this x s). lia.
Qed.

Lemma add_step_wf w tc x :
  wf (nodes (fst tc)) -> snd tc < length (nodes (fst tc)) ->
  wf (nodes (fst (add_step w tc x))) /\ snd (add_step w tc x) < length (nodes (fst (add_step w tc x))).
Proof.
  destruct tc as [t c]. simpl. intros Hwf Hlt.
  destruct (upsertChild_wf x t c w Hwf Hlt) as (H1 & H2 & _). auto.
Qed.

Lemma wf_root_lt ns : wf ns -> root < length ns.
Proof. intros Hwf. destruct (wf_root _ Hwf) as (r & Hr & _). eapply lookup_lt_Some; eauto. Qed.

Lemma addItems_wf t q w : wf (nodes t) -> wf (nodes (_addItems t q w)).
Proof.
  intros Hwf. rewrite _addItems_fold.
  apply (fold_left_inv _ (fun tc => wf (nodes (fst tc)) /\ snd tc < length (nodes (fst tc)))).
  - simpl. split; [exact Hwf|apply wf_root_lt; exact Hwf].
  - intros tc x [H1 H2]. apply add_step_wf; auto.
Qed.

End Insertion.

(** * Node-links *)

Section Links.

(** Whether node [j] carries item [x]. *)
Definition has_item (ns : list FPNode) (x : string) (j : nat) : bool :=
  match ns !! j with Some nd => bool_decide (item nd = Some x) | None => false end.

(** The nodes carrying [x], in creation order (a node's index is its
    creation time). *)
Definition nodes_with (ns : list FPNode) (x : string) : list nat :=
  List.filter (has_item ns x) (seq 0 (length ns)).

(** The next node after [i] carrying [x]. *)
Definition next_same (ns : list FPNode) (i : nat) (x : string) : option nat :=
  head (List.filter (fun j => i <? j) (nodes_with ns x)).

(** The node-link fields of an FPNode. *)
Definition lnk (nd : FPNode) : option string * option nat := (item nd, nextSameItemNode nd).

(** The node-link invariant of a tree: its heap, [_firstInserted] and
    [_lastInserted]. *)
Record links (ns : list FPNode) (fi : list (string * nat)) (la : gmap string nat) : Prop := {
  lk_next : forall i nd, ns !! i = Some nd ->
    nextSameItemNode nd = match item nd with Some x => next_same ns i x | None => None end;
  lk_first : forall x, jget x fi = head (nodes_with ns x);
  lk_last : forall x, la !! x = last (nodes_with ns x);
  lk_keys : NoDup (map fst fi);
  lk_sorted : StronglySorted (fun a b => snd a < snd b) fi }.

(** JS objects as association lists. *)

Lemma jget_jset_eq {V} k (v : V) o : jget k (jset k v o) = Some v.
Proof.
  induction o as [|[k' v'] o IH]; simpl.
  - rewrite String.eqb_refl. reflexivity.
  - destruct (String.eqb_spec k k'); simpl.
    + rewrite String.eqb_refl. reflexivity.
    + apply String.eqb_neq in n. rewrite n. exact IH.
Qed.

Lemma jget_jset_ne {V} k k' (v : V) o : k' <> k -> jget k' (jset k v o) = jget k' o.
Proof.
  intros Hne. induction o as [|[k0 v0] o IH]; simpl.
  - apply String.eqb_neq in Hne. rewrite Hne. reflexivity.
  - destruct (String.eqb_spec k k0); simpl.
    + subst. apply String.eqb_neq in Hne. rewrite Hne. reflexivity.
    + destruct (String.eqb k' k0); [reflexivity|exact IH].
Qed.

Lemma jget_None {V} k (o : list (string * V)) : jget k o = None <-> k ∉ map fst o.
Proof.
  induction o as [|[k' v'] o IH]; simpl.
  - split; [intros _ H; apply elem_of_nil in H; exact H|reflexivity].
  - rewrite elem_of_cons. destruct (String.eqb_spec k k'); split; intros H.
    + discriminate.
    + exfalso. apply H. left. exact e.
    + intros [E|E]; [contradiction|]. apply IH in H. contradiction.
    + apply IH. intros E. apply H. right. exact E.
Qed.

Lemma jset_absent {V} k (v : V) o : jget k o = None -> jset k v o = o ++ [(k, v)].
Proof.
  induction o as [|[k' v'] o IH]; simpl; [reflexivity|].
  destruct (String.eqb k k'); [discriminate|]. intros H. rewrite IH; auto.
Qed.

Lemma jget_elem {V} k (v : V) o : NoDup (map fst o) -> (k, v) ∈ o -> jget k o = Some v.
Proof.
  induction o as [|[k' v'] o IH]; simpl; intros Hnd Hin.
  - apply elem_of_nil in Hin. contradiction.
  - apply NoDup_cons in Hnd as [Hn Hnd]. apply elem_of_cons in Hin as [E|Hin].
    + injection E as -> ->. rewrite String.eqb_refl. reflexivity.
    + destruct (String.eqb_spec k k').
      * subst. exfalso. apply Hn. apply list_elem_of_fmap. exists (k', v). auto.
      * apply IH; auto.
Qed.

Lemma jget_in {V} k (v : V) o : jget k o = Some v -> (k, v) ∈ o.
Proof.
  induction o as [|[k' v'] o IH]; simpl; [discriminate|].
  destruct (String.eqb_spec k k').
  - intros H. injection H as <-. subst. left.
  - intros H. right. auto.
Qed.

(** Sorted lists. *)

Lemma filter_none {A} (f : A -> bool) l :
  (forall a, In a l -> f a = false) -> List.filter f l = [].
Proof.
  induction l as [|a l IH]; simpl; intros H; [reflexivity|].
  rewrite H by (left; reflexivity). apply IH. intros b Hb. apply H. right. exact Hb.
Qed.

Lemma seq_sorted a n : StronglySorted lt (seq a n).
Proof.
  revert a. induction n as [|n IH]; intros a; simpl; constructor; auto.
  apply Forall_forall. intros y Hy. apply list_elem_of_In, in_seq in Hy. lia.
Qed.

Lemma filter_sorted {A} (R : A -> A -> Prop) (f : A -> bool) l :
  StronglySorted R l -> StronglySorted R (List.filter f l).
Proof.
  induction l as [|a l IH]; simpl; intros H; [constructor|].
  apply StronglySorted_inv in H as [H1 H2].
  destruct (f a); auto. constructor; auto.
  apply Forall_forall. intros y Hy. apply list_elem_of_In, filter_In in Hy as [Hy _].
  rewrite Forall_forall in H2. apply H2. apply list_elem_of_In. exact Hy.
Qed.

Lemma sorted_snoc {A} (R : A -> A -> Prop) l b :
  StronglySorted R l -> (forall a, In a l -> R a b) -> StronglySorted R (l ++ [b]).
Proof.
  induction l as [|a l IH]; simpl; intros H Hb.
  - constructor; constructor.
  - apply StronglySorted_inv in H as [H1 H2]. constructor; auto.
    apply Forall_app. split; auto.
Qed.

Lemma sorted_last_max l j : StronglySorted lt l -> last l = Some j -> forall k, In k l -> k <= j.
Proof.
  induction l as [|a l IH]; simpl; [discriminate|].
  intros H Hl k Hk. apply StronglySorted_inv in H as [H1 H2].
  destruct l as [|b l'].
  - simpl in Hl. injection Hl as ->. destruct Hk as [->|[]]. lia.
  - rewrite Forall_forall in H2.
    assert (Hj : In j (b :: l')).
    { assert (Hl' : last (b :: l') = Some j) by exact Hl.
      apply last_Some in Hl' as [l0 E]. rewrite E. apply in_or_app. right. left. reflexivity. }
    destruct Hk as [->|Hk]; [pose proof (H2 _ (proj2 (list_elem_of_In _ _) Hj)); lia|].
    apply IH; auto.
Qed.

Lemma nodes_with_sorted ns x : StronglySorted lt (nodes_with ns x).
Proof. apply filter_sorted, seq_sorted. Qed.

Lemma has_item_spec ns x j :
  has_item ns x j = true <-> exists nd, ns !! j = Some nd /\ item nd = Some x.
Proof.
  unfold has_item. destruct (ns !! j) as [nd|]; split.
  - intros H. apply bool_decide_eq_true in H. eauto.
  - intros (nd' & H1 & H2). injection H1 as <-. apply bool_decide_eq_true. exact H2.
  - discriminate.
  - intros (? & H & _). discriminate.
Qed.

Lemma in_nodes_with ns x j :
  In j (nodes_with ns x) <-> exists nd, ns !! j = Some nd /\ item nd = Some x.
Proof.
  unfold nodes_with. rewrite filter_In, in_seq, has_item_spec. split.
  - intros [_ H]. exact H.
  - intros (nd & H1 & H2). split; [|eauto].
    apply lookup_lt_Some in H1. lia.
Qed.

(** Everything here depends on the items and node-links only. *)

Lemma has_item_items ns ns' x j :
  item <$> ns = item <$> ns' -> has_item ns x j = has_item ns' x j.
Proof.
  intros E. unfold has_item.
  assert (H := f_equal (fun l => l !! j) E). simpl in H.
  rewrite !list_lookup_fmap in H.
  destruct (ns !! j), (ns' !! j); simpl in H; try discriminate; [|reflexivity].
  injection H as H. rewrite H. reflexivity.
Qed.

Lemma nodes_with_items ns ns' x :
  item <$> ns = item <$> ns' -> nodes_with ns x = nodes_with ns' x.
Proof.
  intros E. unfold nodes_with.
  assert (L := f_equal length E). rewrite !length_fmap in L. rewrite L.
  apply filter_ext_in. intros j _. apply has_item_items. exact E.
Qed.

Lemma next_same_items ns ns' i x :
  item <$> ns = item <$> ns' -> next_same ns i x = next_same ns' i x.
Proof. intros E. unfold next_same. rewrite (nodes_with_items _ _ _ E). reflexivity. Qed.

Lemma items_lnk (ns ns' : list FPNode) : lnk <$> ns = lnk <$> ns' -> item <$> ns = item <$> ns'.
Proof.
  intros E. assert (H := f_equal (fmap fst) E). simpl in H.
  rewrite <- !list_fmap_compose in H. exact H.
Qed.

Lemma lnk_lookup (ns ns' : list FPNode) i nd' :
  lnk <$> ns = lnk <$> ns' -> ns' !! i = Some nd' ->
  exists nd, ns !! i = Some nd /\ lnk nd = lnk nd'.
Proof.
  intros E Hl. assert (H := f_equal (fun l => l !! i) E). simpl in H.
  rewrite !list_lookup_fmap, Hl in H.
  destruct (ns !! i) as [nd|]; [|discriminate]. simpl in H.
  exists nd. split; [reflexivity|congruence].
Qed.

Lemma links_lnk ns ns' fi la :
  lnk <$> ns = lnk <$> ns' -> links ns fi la -> links ns' fi la.
Proof.
  intros E Hl. pose proof (items_lnk _ _ E) as Ei. constructor.
  - intros i nd' Hi. destruct (lnk_lookup _ _ _ _ E Hi) as (nd & Hnd & En).
    unfold lnk in En. injection En as E1 E2.
    rewrite <- E1, <- E2, (lk_next _ _ _ Hl _ _ Hnd).
    destruct (item nd); [apply next_same_items; exact Ei|reflexivity].
  - intros x. rewrite (lk_first _ _ _ Hl), (nodes_with_items _ _ _ Ei). reflexivity.
  - intros x. rewrite (lk_last _ _ _ Hl), (nodes_with_items _ _ _ Ei). reflexivity.
  - apply (lk_keys _ _ _ Hl).
  - apply (lk_sorted _ _ _ Hl).
Qed.

Lemma proj_alter {B} (g : FPNode -> B) (f : FPNode -> FPNode) (i : nat) (ns : list FPNode) :
  (forall nd, g (f nd) = g nd) -> g <$> alter f i ns = g <$> ns.
Proof.
  intros Hf. apply list_eq. intros j.
  rewrite !list_lookup_fmap, list_lookup_alter.
  case_decide; subst; [|reflexivity].
  destruct (ns !! j); simpl; [rewrite Hf|]; reflexivity.
Qed.

Lemma lnk_alter (f : FPNode -> FPNode) (i : nat) (ns : list FPNode) :
  (forall nd, lnk (f nd) = lnk nd) -> lnk <$> alter f i ns = lnk <$> ns.
Proof.
  intros Hf. apply list_eq. intros j.
  rewrite !list_lookup_fmap, list_lookup_alter.
  case_decide; subst; [|reflexivity].
  destruct (ns !! j); simpl; [rewrite Hf|]; reflexivity.
Qed.

(** The heap after a new child: its items and node-links. *)
Lemma lnk_new_child_heap ns this x s :
  this < length ns ->
  lnk <$> new_child_heap ns this x s = (lnk <$> ns) ++ [(Some x, None)].
Proof.
  intros Hlt. unfold new_child_heap. rewrite lnk_alter by reflexivity.
  rewrite fmap_app. reflexivity.
Qed.

Lemma nodes_with_snoc ns nd x :
  nodes_with (ns ++ [nd]) x =
  nodes_with ns x ++ (if bool_decide (item nd = Some x) then [length ns] else []).
Proof.
  unfold nodes_with. rewrite length_app. simpl.
  rewrite Nat.add_1_r, seq_S, List.filter_app. simpl. f_equal.
  - apply filter_ext_in. intros j Hj. apply in_seq in Hj.
    unfold has_item. rewrite lookup_app_l by lia. reflexivity.
  - unfold has_item. rewrite lookup_app_r by lia. rewrite Nat.sub_diag. simpl.
    destruct (bool_decide _); reflexivity.
Qed.

Lemma links_fresh : links [newFPNode None None] [] ∅.
Proof.
  assert (E : forall x, nodes_with [newFPNode None None] x = []) by reflexivity.
  constructor.
  - intros i nd H. destruct i as [|[|]]; simpl in H; try discriminate.
    injection H as <-. reflexivity.
  - intros x. rewrite E. reflexivity.
  - intros x. rewrite E. reflexivity.
  - constructor.
  - constructor.
Qed.

Lemma links_new_child ns fi la this x s :
  this < length ns -> links ns fi la ->
  let c := length ns in
  let ns1 := new_child_heap ns this x s in
  let ns2 := match la !! x with Some l => alter (set_next (Some c)) l ns1 | None => ns1 end in
  links ns2 (match jget x fi with Some _ => fi | None => jset x c fi end) (<[x := c]> la).
Proof.
  intros Hlt Hl c ns1 ns2.
  set (nn := set_support s (newFPNode (Some x) (Some this))).
  assert (E1 : lnk <$> ns1 = lnk <$> (ns ++ [nn])).
  { unfold ns1. rewrite lnk_new_child_heap by exact Hlt. rewrite fmap_app. reflexivity. }
  assert (Ei : item <$> ns2 = item <$> (ns ++ [nn])).
  { rewrite <- (items_lnk _ _ E1). unfold ns2. destruct (la !! x); [|reflexivity].
    apply proj_alter. intros nd. reflexivity. }
  assert (NW : forall y, nodes_with ns2 y =
                 nodes_with ns y ++ (if bool_decide (y = x) then [c] else [])).
  { intros y. rewrite (nodes_with_items _ _ _ Ei), nodes_with_snoc.
    f_equal. unfold nn. simpl.
    destruct (decide (y = x)) as [->|Hne].
    - rewrite !bool_decide_eq_true_2 by reflexivity. reflexivity.
    - rewrite !bool_decide_eq_false_2 by congruence. reflexivity. }
  assert (Hbelow : forall y j, In j (nodes_with ns y) -> j < c).
  { intros y j Hj. apply in_nodes_with in Hj as (nd & Hnd & _).
    eapply lookup_lt_Some; eauto. }
  (* the lookups of the new heap *)
  assert (Lk : forall j nd, ns2 !! j = Some nd ->
             (j = c /\ item nd = Some x /\ nextSameItemNode nd = None) \/
             (exists od, ns !! j = Some od /\ item nd = item od /\
                nextSameItemNode nd =
                  (if bool_decide (la !! x = Some j) then Some c else nextSameItemNode od))).
  { intros j nd Hj.
    assert (Hj1 : exists nd1, ns1 !! j = Some nd1 /\ item nd1 = item nd /\
               nextSameItemNode nd = if bool_decide (la !! x = Some j) then Some c
                                     else nextSameItemNode nd1).
    { unfold ns2 in Hj. destruct (la !! x) as [l|] eqn:El.
      - rewrite list_lookup_alter in Hj. case_decide as Hlj.
        + subst l. destruct (ns1 !! j) as [nd1|]; [|discriminate]. injection Hj as <-.
          exists nd1. rewrite bool_decide_eq_true_2 by reflexivity. auto.
        + exists nd. rewrite bool_decide_eq_false_2 by congruence. auto.
      - exists nd. rewrite bool_decide_eq_false_2 by discriminate. auto. }
    destruct Hj1 as (nd1 & Hnd1 & Ei1 & En1).
    assert (Hl1 := lnk_lookup _ _ _ _ (eq_sym E1) Hnd1).
    destruct Hl1 as (m & Hm & Em). unfold lnk in Em. injection Em as Em1 Em2.
    destruct (decide (j = c)) as [->|Hne].
    - left. rewrite lookup_app_r in Hm by lia. rewrite Nat.sub_diag in Hm.
      injection Hm as <-. unfold nn in Em1, Em2. simpl in Em1, Em2.
      split; [reflexivity|]. split; [congruence|].
      rewrite En1, Em2.
      destruct (la !! x) as [l|] eqn:El; [|reflexivity].
      rewrite bool_decide_eq_false_2; [reflexivity|].
      intros H. injection H as ->.
      rewrite (lk_last _ _ _ Hl) in El. apply last_Some in El as [l0 El].
      assert (In c (nodes_with ns x)) by (rewrite El; apply in_or_app; right; left; reflexivity).
      pose proof (Hbelow _ _ H). lia.
    - right. assert (j < c).
      { apply lookup_lt_Some in Hm. rewrite length_app in Hm. simpl in Hm. lia. }
      rewrite lookup_app_l in Hm by lia. exists m. split; [exact Hm|].
      split; [congruence|]. rewrite En1, Em2. reflexivity. }
  constructor.
  - intros j nd Hj. destruct (Lk _ _ Hj) as [(-> & Hx & Hn)|(od & Hod & Hi & Hn)].
    + rewrite Hx, Hn. unfold next_same. rewrite NW, bool_decide_eq_true_2 by reflexivity.
      rewrite List.filter_app. simpl. rewrite Nat.ltb_irrefl, app_nil_r.
      rewrite (filter_none _ _); [reflexivity|].
      intros k Hk. apply Nat.ltb_ge. pose proof (Hbelow _ _ Hk). lia.
    + rewrite Hi, Hn. assert (Hjc : j < c) by (eapply lookup_lt_Some; eauto).
      destruct (item od) as [y|] eqn:Ey.
      * assert (Hjin : In j (nodes_with ns y)) by (apply in_nodes_with; eauto).
        unfold next_same. rewrite NW, List.filter_app.
        destruct (bool_decide (la !! x = Some j)) eqn:Hb.
        -- apply bool_decide_eq_true in Hb.
           rewrite (lk_last _ _ _ Hl) in Hb.
           assert (y = x).
           { apply last_Some in Hb as [l0 Hb].
             assert (In j (nodes_with ns x)) by (rewrite Hb; apply in_or_app; right; left; reflexivity).
             apply in_nodes_with in H as (nd' & H1 & H2). congruence. }
           subst y. rewrite bool_decide_eq_true_2 by reflexivity.
           rewrite (filter_none _ _).
           ++ simpl. apply Nat.ltb_lt in Hjc. rewrite Hjc. reflexivity.
           ++ intros k Hk. apply Nat.ltb_ge.
              apply (sorted_last_max _ _ (nodes_with_sorted ns x) Hb). exact Hk.
        -- apply bool_decide_eq_false in Hb.
           rewrite (lk_next _ _ _ Hl _ _ Hod), Ey. unfold next_same.
           destruct (decide (y = x)) as [->|Hne].
           ++ (* [j] is not the last node with [x]: a later one exists *)
              rewrite (lk_last _ _ _ Hl) in Hb.
              destruct (last (nodes_with ns x)) as [l|] eqn:El.
              2:{ apply last_None in El. rewrite El in Hjin. contradiction. }
              assert (Hl' : In l (nodes_with ns x)).
              { apply last_Some in El as [l0 El]. rewrite El. apply in_or_app. right. left. reflexivity. }
              assert (j < l).
              { pose proof (sorted_last_max _ _ (nodes_with_sorted ns x) El _ Hjin).
                assert (j <> l) by congruence. lia. }
              destruct (List.filter (fun k => j <? k) (nodes_with ns x)) eqn:Ef; [|reflexivity].
              exfalso. assert (In l (List.filter (fun k => j <? k) (nodes_with ns x))).
              { apply filter_In. split; [exact Hl'|]. apply Nat.ltb_lt. exact H. }
              rewrite Ef in H0. exact H0.
           ++ rewrite bool_decide_eq_false_2 by exact Hne. rewrite app_nil_r. reflexivity.
      * rewrite (lk_next _ _ _ Hl _ _ Hod), Ey.
        destruct (bool_decide (la !! x = Some j)) eqn:Hb; [|reflexivity].
        exfalso. apply bool_decide_eq_true in Hb. rewrite (lk_last _ _ _ Hl) in Hb.
        apply last_Some in Hb as [l0 Hb].
        assert (In j (nodes_with ns x)) by (rewrite Hb; apply in_or_app; right; left; reflexivity).
        apply in_nodes_with in H as (nd' & H1 & H2). congruence.
  - intros y. rewrite NW. destruct (decide (y = x)) as [->|Hne].
    + rewrite bool_decide_eq_true_2 by reflexivity. rewrite head_app.
      destruct (jget x fi) as [f|] eqn:Ef.
      * rewrite <- (lk_first _ _ _ Hl), Ef. reflexivity.
      * rewrite jget_jset_eq. rewrite (lk_first _ _ _ Hl) in Ef. rewrite Ef. reflexivity.
    + rewrite bool_decide_eq_false_2 by exact Hne. rewrite app_nil_r.
      rewrite <- (lk_first _ _ _ Hl).
      destruct (jget x fi); [reflexivity|]. apply jget_jset_ne. exact Hne.
  - intros y. rewrite NW. destruct (decide (y = x)) as [->|Hne].
    + rewrite lookup_insert_eq, bool_decide_eq_true_2 by reflexivity.
      rewrite last_snoc. reflexivity.
    + rewrite lookup_insert_ne by congruence. rewrite bool_decide_eq_false_2 by exact Hne.
      rewrite app_nil_r. apply (lk_last _ _ _ Hl).
  - destruct (jget x fi) eqn:Ef; [apply (lk_keys _ _ _ Hl)|].
    rewrite jset_absent by exact Ef. rewrite map_app. simpl.
    apply NoDup_app. split; [apply (lk_keys _ _ _ Hl)|]. split; [|apply NoDup_singleton].
    intros k Hk Hk'. apply list_elem_of_singleton in Hk'. subst k.
    apply jget_None in Ef. contradiction.
  - destruct (jget x fi) eqn:Ef; [apply (lk_sorted _ _ _ Hl)|].
    rewrite jset_absent by exact Ef. apply sorted_snoc; [apply (lk_sorted _ _ _ Hl)|].
    intros [k v] Hkv. simpl.
    apply list_elem_of_In in Hkv.
    apply (jget_elem _ _ _ (lk_keys _ _ _ Hl)) in Hkv.
    rewrite (lk_first _ _ _ Hl) in Hkv.
    apply (Hbelow k). destruct (nodes_with ns k) as [|h tl]; simpl in Hkv; [discriminate|].
    injection Hkv as ->. left. reflexivity.
Qed.

End Links.

(** * Insertion keeps the heap well formed and the node-links exact *)

Section TreeOk.

Definition tree_ok (t : FPTree) : Prop :=
  wf (nodes t) /\ links (nodes t) (_firstInserted t) (_lastInserted t).

Lemma tree_ok_fresh sups m : tree_ok (newFPTree sups m).
Proof.
  split; [|apply links_fresh]. constructor.
  - eexists; split; [reflexivity|]. auto.
  - intros [|[|i]] nd H Hi; simpl in H; try discriminate. contradiction.
  - intros [|[|i]] nd c H Hc; simpl in H; try discriminate.
    injection H as <-. simpl in Hc. apply elem_of_nil in Hc. contradiction.
  - intros [|[|i]] nd c1 c2 n1 n2 H H1; simpl in H; try discriminate.
    injection H as <-. simpl in H1. apply elem_of_nil in H1. contradiction.
  - intros [|[|i]] nd H; simpl in H; try discriminate. injection H as <-. constructor.
Qed.

Lemma upsertChild_ok x t this s :
  tree_ok t -> this < length (nodes t) ->
  let r := upsertChild (onNewChild x) t this x s in
  tree_ok (fst r) /\ snd r < length (nodes (fst r)).
Proof.
  intros [Hwf Hl] Hlt r.
  destruct (upsertChild_wf x t this s Hwf Hlt) as (W1 & W2 & _).
  split; [split; [exact W1|]|exact W2].
  unfold r, upsertChild in *. clear W1 W2.
  destruct (getChild (nodes t) this x) as [c|] eqn:Hg; simpl.
  - apply (links_lnk (nodes t)); [|exact Hl].
    symmetry. apply lnk_alter. reflexivity.
  - pose proof (links_new_child _ _ _ this x s Hlt Hl) as H. simpl in H.
    unfold onNewChild, _updateFirstInserted, _updateLastInserted. simpl.
    destruct (jget x (_firstInserted t)); exact H.
Qed.

Lemma add_step_ok w tc x :
  tree_ok (fst tc) -> snd tc < length (nodes (fst tc)) ->
  tree_ok (fst (add_step w tc x)) /\ snd (add_step w tc x) < length (nodes (fst (add_step w tc x))).
Proof. destruct tc as [t c]. simpl. intros H1 H2. apply upsertChild_ok; auto. Qed.

Lemma addItems_ok t q w : tree_ok t -> tree_ok (_addItems t q w).
Proof.
  intros Hok. rewrite _addItems_fold.
  apply (fold_left_inv _ (fun tc => tree_ok (fst tc) /\ snd tc < length (nodes (fst tc)))).
  - split; [exact Hok|apply wf_root_lt, Hok].
  - intros tc x [H1 H2]. apply add_step_ok; auto.
Qed.

Lemma insert_all_ok t L : tree_ok t -> tree_ok (insert_all t L).
Proof.
  intros Hok. unfold insert_all.
  apply (fold_left_inv _ tree_ok); [exact Hok|].
  intros t' [q w] H. apply addItems_ok. exact H.
Qed.

Lemma built_ok sups m L : tree_ok (insert_all (newFPTree sups m) L).
Proof. apply insert_all_ok, tree_ok_fresh. Qed.

End TreeOk.

(** * Walking the node-links *)

Section Chains.

(** The nodes visited from [i] along [nextSameItemNode], at most [fuel]
    of them (the walk of [_getPrefixPaths]). *)
Fixpoint node_chain (fuel : nat) (ns : list FPNode) (i : nat) : list nat :=
  match fuel with
  | 0 => []
  | S f =>
      i :: match ns !! i with
           | Some nd => match nextSameItemNode nd with
                        | Some j => node_chain f ns j
                        | None => []
                        end
           | None => []
           end
  end.

Lemma filter_all {A} (f : A -> bool) l :
  (forall a, In a l -> f a = true) -> List.filter f l = l.
Proof.
  induction l as [|a l IH]; simpl; intros H; [reflexivity|].
  rewrite H by (left; reflexivity). f_equal. apply IH. intros b Hb. apply H. right. exact Hb.
Qed.

Lemma filter_after l i j rest :
  StronglySorted lt l -> List.filter (fun k => i <? k) l = j :: rest ->
  List.filter (fun k => j <? k) l = rest /\ In j l /\ i < j.
Proof.
  induction l as [|a l IH]; simpl; intros Hs Hf; [discriminate|].
  apply StronglySorted_inv in Hs as [Hs Ha]. rewrite Forall_forall in Ha.
  destruct (i <? a) eqn:Eia.
  - injection Hf as <- <-. apply Nat.ltb_lt in Eia.
    rewrite Nat.ltb_irrefl. split; [|split; [left; reflexivity|exact Eia]].
    assert (Hall : forall k, In k l -> a < k) by (intros k Hk; apply Ha, list_elem_of_In, Hk).
    rewrite !filter_all; [reflexivity|..];
    intros k Hk; apply Nat.ltb_lt; pose proof (Hall _ Hk); lia.
  - destruct (IH Hs Hf) as (H1 & H2 & H3).
    assert (a < j) by (apply Ha, list_elem_of_In, H2).
    assert (E : (j <? a) = false) by (apply Nat.ltb_ge; lia).
    rewrite E. auto.
Qed.

Lemma node_chain_spec ns fi la x fuel i :
  links ns fi la -> In i (nodes_with ns x) -> length ns - i <= fuel ->
  node_chain fuel ns i = i :: List.filter (fun k => i <? k) (nodes_with ns x).
Proof.
  intros Hl. revert i. induction fuel as [|f IH]; intros i Hi Hf.
  - apply in_nodes_with in Hi as (nd & Hnd & _). apply lookup_lt_Some in Hnd. lia.
  - apply in_nodes_with in Hi as Hi'. destruct Hi' as (nd & Hnd & Hx).
    simpl. rewrite Hnd, (lk_next _ _ _ Hl _ _ Hnd), Hx. unfold next_same.
    destruct (List.filter (fun k => i <? k) (nodes_with ns x)) as [|j rest] eqn:E; [reflexivity|].
    simpl. destruct (filter_after _ _ _ _ (nodes_with_sorted ns x) E) as (H1 & H2 & H3).
    rewrite IH; [rewrite H1; reflexivity|exact H2|].
    apply in_nodes_with in H2 as (nj & Hnj & _). apply lookup_lt_Some in Hnd. lia.
Qed.

Lemma node_chain_first ns fi la x f :
  links ns fi la -> jget x fi = Some f ->
  node_chain (length ns) ns f = nodes_with ns x.
Proof.
  intros Hl Hf. rewrite (lk_first _ _ _ Hl) in Hf.
  destruct (nodes_with ns x) as [|h tl] eqn:E; [discriminate|]. simpl in Hf.
  injection Hf as ->.
  assert (Hin : In f (nodes_with ns x)) by (rewrite E; left; reflexivity).
  rewrite (node_chain_spec _ _ _ x _ _ Hl Hin) by lia. rewrite E. simpl.
  rewrite Nat.ltb_irrefl. f_equal.
  pose proof (nodes_with_sorted ns x) as Hs. rewrite E in Hs.
  apply StronglySorted_inv in Hs as [_ Hs]. rewrite Forall_forall in Hs.
  apply filter_all. intros k Hk. apply Nat.ltb_lt, Hs, list_elem_of_In, Hk.
Qed.

End Chains.

(** * Single paths *)

Section SinglePath.

(** [p] is the sequence of nodes from [i] (excluded) down to a leaf, each
    the only child of the previous one. *)
Fixpoint down_path (ns : list FPNode) (i : nat) (p : list nat) : Prop :=
  match p with
  | [] => exists nd, ns !! i = Some nd /\ children nd = []
  | c :: p' => (exists nd, ns !! i = Some nd /\ children nd = [c]) /\ down_path ns c p'
  end.

Lemma wf_child_gt ns i nd c :
  wf ns -> ns !! i = Some nd -> c ∈ children nd -> i < c /\ c < length ns.
Proof.
  intros Hwf Hi Hc. destruct (wf_child _ Hwf _ _ _ Hi Hc) as (cn & Hcn & Hp).
  split; [|eapply lookup_lt_Some; eauto].
  destruct (decide (c = root)) as [->|Hnr].
  - destruct (wf_root _ Hwf) as (r & Hr & _ & Hpr). congruence.
  - destruct (wf_node _ Hwf _ _ Hcn Hnr) as (y & p & pn & _ & Hp' & Hlt & _).
    congruence || (rewrite Hp in Hp'; injection Hp' as <-; exact Hlt).
Qed.

Lemma getSinglePath_some ns fuel i cp r :
  wf ns -> i < length ns -> length ns <= i + fuel ->
  _getSinglePath fuel ns i cp = Some r -> exists p, r = cp ++ p /\ down_path ns i p.
Proof.
  intros Hwf. revert i cp. induction fuel as [|f IH]; intros i cp Hi Hf Hg; [lia|].
  simpl in Hg. destruct (lookup_lt_is_Some_2 _ _ Hi) as [nd Hnd]. rewrite Hnd in Hg.
  destruct (children nd) as [|c [|c' l]] eqn:Ec.
  - injection Hg as <-. exists []. rewrite app_nil_r. split; [reflexivity|]. exists nd. auto.
  - assert (Hc : c ∈ children nd) by (rewrite Ec; left).
    destruct (wf_child_gt _ _ _ _ Hwf Hnd Hc) as [H1 H2].
    destruct (IH c (cp ++ [c]) H2 ltac:(lia) Hg) as (p & -> & Hp).
    exists (c :: p). rewrite <- app_assoc. split; [reflexivity|]. split; [exists nd; auto|exact Hp].
  - discriminate.
Qed.

Lemma getSinglePath_none ns fuel i cp :
  _getSinglePath fuel ns i cp = None ->
  exists j nd, ns !! j = Some nd /\ 2 <= length (children nd).
Proof.
  revert i cp. induction fuel as [|f IH]; intros i cp Hg; simpl in Hg; [discriminate|].
  destruct (ns !! i) as [nd|] eqn:Hnd; [|discriminate].
  destruct (children nd) as [|c [|c' l]] eqn:Ec.
  - discriminate.
  - eapply IH; eauto.
  - exists i, nd. rewrite Ec. simpl. split; [exact Hnd|lia].
Qed.

Lemma down_path_children ns i p q nd j :
  down_path ns i p -> q ∈ i :: p -> ns !! q = Some nd -> j ∈ children nd -> j ∈ p.
Proof.
  revert i. induction p as [|c p IH]; intros i Hd Hq Hnd Hj; simpl in Hd.
  - apply list_elem_of_singleton in Hq. subst q. destruct Hd as (nd' & H1 & H2).
    rewrite H1 in Hnd. injection Hnd as <-. rewrite H2 in Hj. exact Hj.
  - destruct Hd as [(nd' & H1 & H2) Hd]. apply elem_of_cons in Hq as [->|Hq].
    + rewrite H1 in Hnd. injection Hnd as <-. rewrite H2 in Hj.
      apply list_elem_of_singleton in Hj. subst. left.
    + right. eapply IH; eauto.
Qed.

Lemma down_path_degree ns i p q nd :
  down_path ns i p -> q ∈ i :: p -> ns !! q = Some nd -> length (children nd) <= 1.
Proof.
  revert i. induction p as [|c p IH]; intros i Hd Hq Hnd; simpl in Hd.
  - apply list_elem_of_singleton in Hq. subst q. destruct Hd as (nd' & H1 & H2).
    rewrite H1 in Hnd. injection Hnd as <-. rewrite H2. simpl. lia.
  - destruct Hd as [(nd' & H1 & H2) Hd]. apply elem_of_cons in Hq as [->|Hq].
    + rewrite H1 in Hnd. injection Hnd as <-. rewrite H2. simpl. lia.
    + eapply IH; eauto.
Qed.

(** From the root, a down path goes through every node of a well-formed heap. *)
Lemma down_path_covers ns p :
  wf ns -> down_path ns root p -> forall j, j < length ns -> j ∈ root :: p.
Proof.
  intros Hwf Hd j. induction j as [j IH] using lt_wf_ind. intros Hj.
  destruct (decide (j = root)) as [->|Hnr]; [left|].
  destruct (lookup_lt_is_Some_2 _ _ Hj) as [nd Hnd].
  destruct (wf_node _ Hwf _ _ Hnd Hnr) as (y & q & qn & _ & _ & Hlt & Hqn & Hin).
  right. eapply down_path_children; eauto. apply IH; lia.
Qed.

Lemma down_path_all_degrees ns p :
  wf ns -> down_path ns root p -> forall j nd, ns !! j = Some nd -> length (children nd) <= 1.
Proof.
  intros Hwf Hd j nd Hj. apply (down_path_degree ns root p j nd Hd); [|exact Hj].
  apply (down_path_covers ns p Hwf Hd). eapply lookup_lt_Some; eauto.
Qed.

End SinglePath.

(** * The two builders *)

Section Builders.

Variable localeCompare : string -> string -> Z.

Lemma prepare_frame t t' q :
  supports t = supports t' -> _support t = _support t' ->
  prepare localeCompare t q = prepare localeCompare t' q.
Proof.
  intros E1 E2. unfold prepare, frequent. rewrite E1, E2. reflexivity.
Qed.

Lemma frame_fields t t' :
  frame t = frame t' -> _isInit t = _isInit t' /\ supports t = supports t' /\
                        _support t = _support t' /\ _headers t = _headers t'.
Proof. unfold frame. intros E. injection E as E1 E2 E3 E4. auto. Qed.

Lemma transactions_fold t0 ts t :
  frame t = frame t0 ->
  fold_left (fun t tr => _addItems t (prepare localeCompare t tr) 1) ts t =
  insert_all t (map (fun tr => (prepare localeCompare t0 tr, 1)) ts).
Proof.
  revert t. induction ts as [|tr ts IH]; intros t Hf; [reflexivity|]. simpl.
  destruct (frame_fields _ _ Hf) as (_ & E1 & E2 & _).
  rewrite (prepare_frame t t0) by auto. apply IH.
  rewrite frame_addItems. exact Hf.
Qed.

Lemma prefix_paths_fold t0 pps t :
  frame t = frame t0 ->
  fold_left (fun t pp => _addItems t (prepare localeCompare t (path pp)) (pp_support pp)) pps t =
  insert_all t (map (fun pp => (prepare localeCompare t0 (path pp), pp_support pp)) pps).
Proof.
  revert t. induction pps as [|pp pps IH]; intros t Hf; [reflexivity|]. simpl.
  destruct (frame_fields _ _ Hf) as (_ & E1 & E2 & _).
  rewrite (prepare_frame t t0) by auto. apply IH.
  rewrite frame_addItems. exact Hf.
Qed.

(** What [fromTransactions] builds on a fresh tree. *)
Lemma fromTransactions_built sups m ts :
  fromTransactions localeCompare (newFPTree sups m) ts =
  Ok (finish_build (insert_all (newFPTree sups m)
        (map (fun tr => (prepare localeCompare (newFPTree sups m) tr, 1)) ts))).
Proof. unfold fromTransactions. simpl. rewrite (transactions_fold (newFPTree sups m)); reflexivity. Qed.

(** What [fromPrefixPaths] builds on a fresh tree. *)
Lemma fromPrefixPaths_built sups m pps :
  fromPrefixPaths localeCompare (newFPTree sups m) pps =
  Ok (finish_build (insert_all (newFPTree sups m)
        (map (fun pp => (prepare localeCompare (newFPTree sups m) (path pp), pp_support pp)) pps))).
Proof. unfold fromPrefixPaths. simpl. rewrite (prefix_paths_fold (newFPTree sups m)); reflexivity. Qed.

End Builders.

(** * Array.prototype.sort *)

Section Sorting.

Context {A : Type}.

Lemma insert_by_perm (cmp : A -> A -> Z) x l : Permutation (insert_by cmp x l) (x :: l).
Proof.
  induction l as [|y l IH]; simpl; [reflexivity|].
  destruct (cmp x y <? 0)%Z; [reflexivity|].
  rewrite IH. apply perm_swap.
Qed.

Lemma js_sort_fold_perm (cmp : A -> A -> Z) l acc :
  Permutation (fold_left (fun acc x => insert_by cmp x acc) l acc) (l ++ acc).
Proof.
  revert acc. induction l as [|x l IH]; intros acc; simpl; [reflexivity|].
  rewrite IH, insert_by_perm. symmetry. apply Permutation_middle.
Qed.

Lemma js_sort_perm (cmp : A -> A -> Z) l : Permutation (js_sort cmp l) l.
Proof. unfold js_sort. rewrite js_sort_fold_perm, app_nil_r. reflexivity. Qed.

Lemma Forall_perm (P : A -> Prop) l l' : Permutation l l' -> Forall P l' -> Forall P l.
Proof.
  intros Hp H. rewrite Forall_forall in *. intros a Ha. apply H.
  apply list_elem_of_In. apply (Permutation_in a Hp). apply list_elem_of_In. exact Ha.
Qed.

(** Sorting by a numeric key, equal keys keeping an order [S] of the input. *)
Definition lex_key (key : A -> Z) (S : A -> A -> Prop) (a b : A) : Prop :=
  (key a < key b)%Z \/ (key a = key b /\ S a b).

Lemma insert_by_key_sorted (key : A -> Z) (S : A -> A -> Prop) x l :
  StronglySorted (lex_key key S) l -> (forall a, In a l -> S a x) ->
  StronglySorted (lex_key key S) (insert_by (fun a b => (key a - key b)%Z) x l).
Proof.
  induction l as [|y l IH]; simpl; intros Hs HS.
  - constructor; constructor.
  - apply StronglySorted_inv in Hs as [Hs Hy]. rewrite Forall_forall in Hy.
    destruct (key x - key y <? 0)%Z eqn:E.
    + apply Z.ltb_lt in E. constructor; [constructor; auto; rewrite Forall_forall; exact Hy|].
      constructor; [left; lia|]. rewrite Forall_forall. intros z Hz.
      destruct (Hy z Hz) as [H|[H _]]; left; lia.
    + apply Z.ltb_ge in E. constructor.
      * apply IH; auto.
      * apply (Forall_perm _ _ _ (insert_by_perm _ x l)). constructor.
        -- destruct (Z.eq_dec (key y) (key x)); [right; split; auto|left; lia].
        -- rewrite Forall_forall. exact Hy.
Qed.

Lemma js_sort_key_sorted (key : A -> Z) (S : A -> A -> Prop) l :
  StronglySorted S l ->
  StronglySorted (lex_key key S) (js_sort (fun a b => (key a - key b)%Z) l).
Proof.
  unfold js_sort. intros Hs.
  assert (G : forall acc, StronglySorted (lex_key key S) acc ->
            (forall a b, In a acc -> In b l -> S a b) ->
            StronglySorted (lex_key key S)
              (fold_left (fun acc x => insert_by (fun a b => (key a - key b)%Z) x acc) l acc)).
  { induction l as [|x l IH]; intros acc Ha Hab; simpl; [exact Ha|].
    apply StronglySorted_inv in Hs as [Hs Hx]. rewrite Forall_forall in Hx.
    apply IH; [exact Hs| |].
    - apply insert_by_key_sorted; [exact Ha|]. intros a Hin. apply Hab; [exact Hin|left; reflexivity].
    - intros a b Hin Hb. apply (Permutation_in a (insert_by_perm _ x acc)) in Hin.
      destruct Hin as [<-|Hin].
      + apply Hx, list_elem_of_In, Hb.
      + apply Hab; [exact Hin|right; exact Hb]. }
  apply G; [constructor|]. intros a b [].
Qed.

(** Sorting by a comparator that is a strict total order on the elements. *)
Lemma insert_by_strict_sorted (cmp : A -> A -> Z) x l :
  (forall a b c, (cmp a b < 0)%Z -> (cmp b c < 0)%Z -> (cmp a c < 0)%Z) ->
  (forall a, In a l -> a <> x -> (cmp a x < 0)%Z \/ (cmp x a < 0)%Z) ->
  ~ In x l ->
  StronglySorted (fun a b => (cmp a b < 0)%Z) l ->
  StronglySorted (fun a b => (cmp a b < 0)%Z) (insert_by cmp x l).
Proof.
  intros Htr. induction l as [|y l IH]; simpl; intros Htot Hx Hs.
  - constructor; constructor.
  - apply StronglySorted_inv in Hs as [Hs Hy]. rewrite Forall_forall in Hy.
    destruct (cmp x y <? 0)%Z eqn:E.
    + apply Z.ltb_lt in E. constructor; [constructor; auto; rewrite Forall_forall; exact Hy|].
      constructor; [exact E|]. rewrite Forall_forall. intros z Hz. eapply Htr; eauto.
    + apply Z.ltb_ge in E. constructor.
      * apply IH; auto.
      * apply (Forall_perm _ _ _ (insert_by_perm _ x l)). constructor.
        -- destruct (Htot y (or_introl eq_refl)) as [H|H]; [intros ->; apply Hx; left; reflexivity|exact H|lia].
        -- rewrite Forall_forall. exact Hy.
Qed.

Lemma js_sort_strict_sorted (cmp : A -> A -> Z) l :
  (forall a b c, (cmp a b < 0)%Z -> (cmp b c < 0)%Z -> (cmp a c < 0)%Z) ->
  (forall a b, In a l -> In b l -> a <> b -> (cmp a b < 0)%Z \/ (cmp b a < 0)%Z) ->
  NoDup l ->
  StronglySorted (fun a b => (cmp a b < 0)%Z) (js_sort cmp l).
Proof.
  intros Htr Htot Hnd. unfold js_sort.
  assert (G : forall acc, StronglySorted (fun a b => (cmp a b < 0)%Z) acc ->
            (forall a, In a acc -> In a l -> False) ->
            (forall a b, In a (acc ++ l) -> In b (acc ++ l) -> a <> b ->
                         (cmp a b < 0)%Z \/ (cmp b a < 0)%Z) ->
            NoDup l ->
            StronglySorted (fun a b => (cmp a b < 0)%Z)
              (fold_left (fun acc x => insert_by cmp x acc) l acc)).
  { clear Htot Hnd. induction l as [|x l IH]; intros acc Ha Hdis Htot Hnd; simpl; [exact Ha|].
    apply NoDup_cons in Hnd as [Hxl Hnd].
    assert (Hp := insert_by_perm cmp x acc).
    apply IH; [| | |exact Hnd].
    - apply insert_by_strict_sorted; [exact Htr| | |exact Ha].
      + intros a Ha' Hne. apply Htot; [apply in_or_app; left; exact Ha'|
                                      apply in_or_app; right; left; reflexivity|exact Hne].
      + intros Hin. apply (Hdis x Hin). left. reflexivity.
    - intros a Hin Hl. apply (Permutation_in a Hp) in Hin. destruct Hin as [<-|Hin].
      + apply Hxl. apply list_elem_of_In. exact Hl.
      + apply (Hdis a Hin). right. exact Hl.
    - intros a b Ha' Hb Hne. apply Htot; [| |exact Hne].
      + apply in_app_or in Ha' as [Ha'|Ha']; [apply (Permutation_in a Hp) in Ha'|].
        * destruct Ha' as [<-|Ha']; apply in_or_app; [right; left; reflexivity|left; exact Ha'].
        * apply in_or_app. right. right. exact Ha'.
      + apply in_app_or in Hb as [Hb|Hb]; [apply (Permutation_in b Hp) in Hb|].
        * destruct Hb as [<-|Hb]; apply in_or_app; [right; left; reflexivity|left; exact Hb].
        * apply in_or_app. right. right. exact Hb. }
  apply G; [constructor|intros a []|exact Htot|exact Hnd].
Qed.

End Sorting.

(** * Headers *)

Section Headers.

(** The index of the first node carrying [x] (its creation time). *)
Definition first_node (ns : list FPNode) (x : string) : nat :=
  default 0 (head (nodes_with ns x)).

Lemma sorted_map {A B} (R : A -> A -> Prop) (S : B -> B -> Prop) (f : A -> B) l :
  StronglySorted R l -> (forall a b, In a l -> In b l -> R a b -> S (f a) (f b)) ->
  StronglySorted S (map f l).
Proof.
  induction l as [|a l IH]; simpl; intros Hs H; [constructor|].
  apply StronglySorted_inv in Hs as [Hs Ha]. constructor.
  - apply IH; [exact Hs|]. intros x y Hx Hy. apply H; right; auto.
  - rewrite Forall_forall in Ha. rewrite Forall_forall. intros y Hy.
    apply list_elem_of_In, in_map_iff in Hy as (b & <- & Hb).
    apply H; [left; reflexivity|right; exact Hb|]. apply Ha, list_elem_of_In, Hb.
Qed.

Lemma first_keys_sorted ns fi la :
  links ns fi la ->
  StronglySorted (fun a b => first_node ns a < first_node ns b) (map fst fi).
Proof.
  intros Hl. apply (sorted_map (fun a b => snd a < snd b)); [apply (lk_sorted _ _ _ Hl)|].
  intros [a va] [b vb] Ha Hb H. simpl in *.
  assert (Ea := jget_elem _ _ _ (lk_keys _ _ _ Hl) (proj2 (list_elem_of_In _ _) Ha)).
  assert (Eb := jget_elem _ _ _ (lk_keys _ _ _ Hl) (proj2 (list_elem_of_In _ _) Hb)).
  rewrite (lk_first _ _ _ Hl) in Ea, Eb. unfold first_node. rewrite Ea, Eb. exact H.
Qed.

Lemma in_first_keys ns fi la x :
  links ns fi la -> In x (map fst fi) <-> exists i nd, ns !! i = Some nd /\ item nd = Some x.
Proof.
  intros Hl. split.
  - intros Hx. destruct (jget x fi) as [v|] eqn:E.
    + rewrite (lk_first _ _ _ Hl) in E. destruct (nodes_with ns x) as [|h tl] eqn:En; [discriminate|].
      assert (Hh : In h (nodes_with ns x)) by (rewrite En; left; reflexivity).
      apply in_nodes_with in Hh as (nd & H1 & H2). eauto.
    + apply jget_None in E. exfalso. apply E. apply list_elem_of_In. exact Hx.
  - intros (i & nd & H1 & H2).
    assert (Hi : In i (nodes_with ns x)) by (apply in_nodes_with; eauto).
    destruct (jget x fi) as [v|] eqn:E.
    + apply jget_in in E. apply in_map_iff. exists (x, v). split; [reflexivity|].
      apply list_elem_of_In. exact E.
    + rewrite (lk_first _ _ _ Hl) in E. destruct (nodes_with ns x); [contradiction|discriminate].
Qed.

(** The tie order of [Object.keys] on keys whose insertion order is [R]. *)
Definition key_before (R : string -> string -> Prop) (a b : string) : Prop :=
  (is_index a = true /\ is_index b = true /\ (index_of a <= index_of b)%Z) \/
  (is_index a = true /\ is_index b = false) \/
  (is_index a = false /\ is_index b = false /\ R a b).

Lemma filter_split_perm (f : string -> bool) (l : list string) :
  Permutation (List.filter f l ++ List.filter (fun k => negb (f k)) l) l.
Proof.
  induction l as [|x l IH]; simpl; [reflexivity|].
  destruct (f x); simpl.
  - apply perm_skip, IH.
  - rewrite <- Permutation_middle. apply perm_skip, IH.
Qed.

Lemma object_keys_perm ks : Permutation (object_keys ks) ks.
Proof.
  unfold object_keys. rewrite (js_sort_perm _ _). apply filter_split_perm.
Qed.

Lemma header_list_perm t : Permutation (_getHeaderList t) (map fst (_firstInserted t)).
Proof. unfold _getHeaderList. rewrite (js_sort_perm _ _). apply object_keys_perm. Qed.

Lemma sorted_app {A} (R : A -> A -> Prop) l1 l2 :
  StronglySorted R l1 -> StronglySorted R l2 ->
  (forall a b, In a l1 -> In b l2 -> R a b) -> StronglySorted R (l1 ++ l2).
Proof.
  induction l1 as [|a l1 IH]; simpl; intros H1 H2 H; [exact H2|].
  apply StronglySorted_inv in H1 as [H1 Ha]. constructor.
  - apply IH; [exact H1|exact H2|]. intros x y Hx Hy. apply H; [right; exact Hx|exact Hy].
  - rewrite Forall_forall in *. intros y Hy. apply list_elem_of_In in Hy.
    apply in_app_or in Hy as [Hy|Hy].
    + apply Ha, list_elem_of_In, Hy.
    + apply H; [left; reflexivity|exact Hy].
Qed.

Lemma sorted_filter {A} (R : A -> A -> Prop) (f : A -> bool) l :
  StronglySorted R l -> StronglySorted R (List.filter f l).
Proof.
  induction l as [|a l IH]; simpl; intros H; [constructor|].
  apply StronglySorted_inv in H as [H Ha]. destruct (f a); [|apply IH, H].
  constructor; [apply IH, H|]. rewrite Forall_forall in *. intros y Hy.
  apply list_elem_of_In, filter_In in Hy as [Hy _]. apply Ha, list_elem_of_In, Hy.
Qed.

Lemma sorted_true {A} (l : list A) : StronglySorted (fun _ _ => True) l.
Proof.
  induction l as [|a l IH]; constructor; [exact IH|]. rewrite Forall_forall. auto.
Qed.

Lemma object_keys_sorted (R : string -> string -> Prop) ks :
  StronglySorted R ks -> StronglySorted (key_before R) (object_keys ks).
Proof.
  intros Hs. unfold object_keys. apply sorted_app.
  - set (l1 := List.filter is_index ks).
    pose proof (js_sort_key_sorted index_of (fun _ _ => True) l1 (sorted_true l1)) as H1.
    apply (sorted_map (lex_key index_of (fun _ _ => True)) (key_before R) id) in H1.
    + rewrite map_id in H1. exact H1.
    + intros a b Ha Hb Hab.
      apply (Permutation_in _ (js_sort_perm _ _)), filter_In in Ha as [_ Ha].
      apply (Permutation_in _ (js_sort_perm _ _)), filter_In in Hb as [_ Hb].
      left. unfold id. split; [exact Ha|]. split; [exact Hb|]. destruct Hab as [H|[H _]]; lia.
  - pose proof (sorted_filter R (fun k => negb (is_index k)) ks Hs) as H2.
    apply (sorted_map R (key_before R) id) in H2.
    + rewrite map_id in H2. exact H2.
    + intros a b Ha Hb Hab. apply filter_In in Ha as [_ Ha]. apply filter_In in Hb as [_ Hb].
      right; right. unfold id. apply negb_true_iff in Ha, Hb. auto.
  - intros a b Ha Hb.
    apply (Permutation_in _ (js_sort_perm _ _)), filter_In in Ha as [_ Ha].
    apply filter_In in Hb as [_ Hb]. apply negb_true_iff in Hb. right; left. auto.
Qed.

End Headers.

(** * Root paths and weighted path counts *)

Section Paths.

Definition ipar (nd : FPNode) : option string * option nat := (item nd, parent nd).
Definition isp (nd : FPNode) : option string * option nat * nat :=
  (item nd, parent nd, support nd).

(** The items from the root (excluded) down to node [i] (included), the
    parent chain being followed at most [fuel] times. *)
Fixpoint ipath_f (fuel : nat) (ns : list FPNode) (i : nat) : list string :=
  match fuel with
  | 0 => []
  | S f =>
      match ns !! i with
      | Some nd =>
          match parent nd with
          | Some p => ipath_f f ns p ++ option_list (item nd)
          | None => []
          end
      | None => []
      end
  end.

Definition ipath (ns : list FPNode) (i : nat) : list string := ipath_f (S i) ns i.

(** The items of the strict ancestors of [i], root excluded, root-down. *)
Definition anc (ns : list FPNode) (i : nat) : list string :=
  match ns !! i with
  | Some nd => match parent nd with Some p => ipath ns p | None => [] end
  | None => []
  end.

Definition parents_older (ns : list FPNode) : Prop :=
  forall j nd p, ns !! j = Some nd -> parent nd = Some p -> p < j.

Lemma wf_parents_older ns : wf ns -> parents_older ns.
Proof.
  intros Hwf j nd p Hj Hp. destruct (decide (j = root)) as [->|Hnr].
  - destruct (wf_root _ Hwf) as (r & Hr & _ & Hpr). rewrite Hj in Hr. injection Hr as <-. congruence.
  - destruct (wf_node _ Hwf _ _ Hj Hnr) as (y & p' & pn & _ & Hp' & Hlt & _).
    rewrite Hp in Hp'. injection Hp' as <-. exact Hlt.
Qed.

Lemma ipath_f_fuel ns : parents_older ns ->
  forall f1 f2 i, i < f1 -> i < f2 -> ipath_f f1 ns i = ipath_f f2 ns i.
Proof.
  intros Ho f1. induction f1 as [|f1 IH]; intros f2 i H1 H2; [lia|].
  destruct f2 as [|f2]; [lia|]. simpl.
  destruct (ns !! i) as [nd|] eqn:E; [|reflexivity].
  destruct (parent nd) as [p|] eqn:Ep; [|reflexivity].
  pose proof (Ho _ _ _ E Ep). rewrite (IH f2 p) by lia. reflexivity.
Qed.

Lemma ipath_parent ns i nd p :
  parents_older ns -> ns !! i = Some nd -> parent nd = Some p ->
  ipath ns i = ipath ns p ++ option_list (item nd).
Proof.
  intros Ho Hi Hp. pose proof (Ho _ _ _ Hi Hp). unfold ipath. simpl. rewrite Hi, Hp.
  rewrite (ipath_f_fuel ns Ho i (S p) p) by lia. reflexivity.
Qed.

Lemma anc_ipath ns i nd p :
  parents_older ns -> ns !! i = Some nd -> parent nd = Some p ->
  anc ns i = ipath ns p /\ ipath ns i = anc ns i ++ option_list (item nd).
Proof.
  intros Ho Hi Hp. unfold anc. rewrite Hi, Hp. split; [reflexivity|]. apply ipath_parent; auto.
Qed.

Lemma ipath_root_nil ns : wf ns -> ipath ns root = [].
Proof.
  intros Hwf. destruct (wf_root _ Hwf) as (r & Hr & _ & Hp). unfold ipath, root in *.
  simpl. rewrite Hr, Hp. reflexivity.
Qed.

Lemma ipar_lookup (ns ns' : list FPNode) j :
  ipar <$> ns !! j = ipar <$> ns' !! j ->
  match ns !! j, ns' !! j with
  | Some nd, Some nd' => item nd = item nd' /\ parent nd = parent nd'
  | None, None => True
  | _, _ => False
  end.
Proof.
  destruct (ns !! j) as [nd|], (ns' !! j) as [nd'|]; simpl; intros H; try discriminate; auto.
  unfold ipar in H. injection H as H1 H2. auto.
Qed.

Lemma isp_ipar (ns ns' : list FPNode) j :
  isp <$> ns !! j = isp <$> ns' !! j -> ipar <$> ns !! j = ipar <$> ns' !! j.
Proof.
  destruct (ns !! j) as [nd|], (ns' !! j) as [nd'|]; simpl; intros H; try discriminate; auto.
  unfold isp in H. injection H as H1 H2 H3. unfold ipar. rewrite H1, H2. reflexivity.
Qed.

(** Paths depend only on the items and parents of the nodes on them. *)
Lemma ipath_f_same fuel (ns ns' : list FPNode) i :
  (forall j, ipar <$> ns !! j = ipar <$> ns' !! j) -> ipath_f fuel ns i = ipath_f fuel ns' i.
Proof.
  intros He. revert i. induction fuel as [|f IH]; intros i; [reflexivity|]. simpl.
  pose proof (ipar_lookup _ _ i (He i)) as L.
  destruct (ns !! i) as [nd|], (ns' !! i) as [nd'|]; try contradiction; [|reflexivity].
  destruct L as [E1 E2]. rewrite E1, E2. destruct (parent nd'); [|reflexivity].
  rewrite IH. reflexivity.
Qed.

Lemma ipath_f_ext fuel (ns ns' : list FPNode) i :
  parents_older ns ->
  (forall j, j <= i -> ipar <$> ns !! j = ipar <$> ns' !! j) ->
  ipath_f fuel ns i = ipath_f fuel ns' i.
Proof.
  intros Ho. revert i. induction fuel as [|f IH]; intros i He; [reflexivity|]. simpl.
  pose proof (ipar_lookup _ _ i (He i (le_n i))) as L.
  destruct (ns !! i) as [nd|] eqn:E1, (ns' !! i) as [nd'|]; try contradiction; [|reflexivity].
  destruct L as [L1 L2]. rewrite <- L1, <- L2.
  destruct (parent nd) as [p|] eqn:Ep; [|reflexivity].
  pose proof (Ho _ _ _ E1 Ep). rewrite (IH p); [reflexivity|].
  intros j Hj. apply He. lia.
Qed.

Lemma anc_same (ns ns' : list FPNode) i :
  (forall j, ipar <$> ns !! j = ipar <$> ns' !! j) -> anc ns i = anc ns' i.
Proof.
  intros He. unfold anc, ipath. pose proof (ipar_lookup _ _ i (He i)) as L.
  destruct (ns !! i) as [nd|], (ns' !! i) as [nd'|]; try contradiction; [|reflexivity].
  destruct L as [_ E]. rewrite E. destruct (parent nd'); [|reflexivity].
  apply ipath_f_same. exact He.
Qed.

Lemma anc_ext (ns ns' : list FPNode) i :
  parents_older ns ->
  (forall j, j <= i -> ipar <$> ns !! j = ipar <$> ns' !! j) ->
  anc ns i = anc ns' i.
Proof.
  intros Ho He. unfold anc, ipath. pose proof (ipar_lookup _ _ i (He i (le_n i))) as L.
  destruct (ns !! i) as [nd|] eqn:E1, (ns' !! i) as [nd'|]; try contradiction; [|reflexivity].
  destruct L as [_ E]. rewrite <- E. destruct (parent nd) as [p|] eqn:Ep; [|reflexivity].
  pose proof (Ho _ _ _ E1 Ep).
  apply ipath_f_ext; [exact Ho|]. intros j Hj. apply He. lia.
Qed.

(** The weight of node [j] towards the itemsets [x] together with [S]:
    its support when it carries [x] and its ancestors hold all of [S]. *)
Definition path_weight (ns : list FPNode) (x : string) (S : list string) (j : nat) : nat :=
  match ns !! j with
  | Some nd => if bool_decide (item nd = Some x) && contains_all (anc ns j) S
               then support nd else 0
  | None => 0
  end.

Definition cond_weight (ns : list FPNode) (x : string) (S : list string) : nat :=
  sum_list_with (path_weight ns x S) (seq 0 (length ns)).

(** The number of positions of [x] in [q] whose predecessors (after [pre])
    hold all of [S]. *)
Fixpoint hits (x : string) (S : list string) (pre q : list string) : nat :=
  match q with
  | [] => 0
  | y :: q' => (if String.eqb y x && contains_all pre S then 1 else 0) + hits x S (pre ++ [y]) q'
  end.

Lemma hits_snoc x S pre q y :
  hits x S pre (q ++ [y]) = hits x S pre q + (if String.eqb y x && contains_all (pre ++ q) S then 1 else 0).
Proof.
  revert pre. induction q as [|z q IH]; intros pre; simpl.
  - rewrite app_nil_r. lia.
  - rewrite IH, <- app_assoc. simpl. lia.
Qed.

Lemma sum_seq_ext (h1 h2 : nat -> nat) a n :
  (forall j, a <= j < a + n -> h1 j = h2 j) ->
  sum_list_with h1 (seq a n) = sum_list_with h2 (seq a n).
Proof.
  revert a. induction n as [|n IH]; intros a H; simpl; [reflexivity|].
  rewrite H by lia. rewrite IH; [reflexivity|]. intros j Hj. apply H. lia.
Qed.

Lemma sum_seq_point (h1 h2 : nat -> nat) a n c :
  a <= c < a + n -> (forall j, a <= j < a + n -> j <> c -> h1 j = h2 j) ->
  sum_list_with h1 (seq a n) + h2 c = sum_list_with h2 (seq a n) + h1 c.
Proof.
  revert a. induction n as [|n IH]; intros a Hc H; simpl; [lia|].
  destruct (decide (a = c)) as [->|Hne].
  - rewrite (sum_seq_ext h1 h2); [lia|]. intros j Hj. apply H; lia.
  - rewrite H by lia.
    assert (E : sum_list_with h1 (seq (S a) n) + h2 c = sum_list_with h2 (seq (S a) n) + h1 c)
      by (apply IH; [lia|intros j Hj Hjc; apply H; lia]).
    lia.
Qed.

Lemma sum_seq_snoc (h : nat -> nat) n :
  sum_list_with h (seq 0 (S n)) = sum_list_with h (seq 0 n) + h n.
Proof. rewrite seq_S, sum_list_with_app. simpl. lia. Qed.

Lemma path_weight_same (ns ns' : list FPNode) x S j :
  (forall k, isp <$> ns !! k = isp <$> ns' !! k) -> path_weight ns x S j = path_weight ns' x S j.
Proof.
  intros He. unfold path_weight.
  rewrite (anc_same ns ns') by (intros k; apply isp_ipar, He).
  specialize (He j).
  destruct (ns !! j) as [nd|], (ns' !! j) as [nd'|]; simpl in He; try discriminate; [|reflexivity].
  unfold isp in He. injection He as H1 H2 H3. rewrite H1, H3. reflexivity.
Qed.

Lemma path_weight_ext (ns ns' : list FPNode) x S j :
  parents_older ns -> (forall k, k <= j -> isp <$> ns !! k = isp <$> ns' !! k) ->
  path_weight ns x S j = path_weight ns' x S j.
Proof.
  intros Ho He. unfold path_weight.
  rewrite (anc_ext ns ns') by (auto; intros k Hk; apply isp_ipar, He, Hk).
  specialize (He j (le_n j)).
  destruct (ns !! j) as [nd|], (ns' !! j) as [nd'|]; simpl in He; try discriminate; [|reflexivity].
  unfold isp in He. injection He as H1 H2 H3. rewrite H1, H3. reflexivity.
Qed.

Lemma isp_onNewChild x t c : forall k, isp <$> nodes (onNewChild x t c) !! k = isp <$> nodes t !! k.
Proof.
  intros k. rewrite <- !list_lookup_fmap. f_equal.
  unfold onNewChild, _updateFirstInserted, _updateLastInserted.
  destruct (jget _ _); simpl;
  (destruct (_lastInserted t !! x); [apply proj_alter; reflexivity|reflexivity]).
Qed.

Lemma eqb_bool_decide (y x : string) : String.eqb y x = bool_decide (Some y = Some x).
Proof.
  destruct (String.eqb_spec y x) as [->|Hne].
  - symmetry. apply bool_decide_eq_true. reflexivity.
  - symmetry. apply bool_decide_eq_false. congruence.
Qed.

(** One [upsertChild] step of [_addItems]: old nodes keep their items and
    parents, the node returned extends the path of [cur] by [y], and the
    weights towards [x] grow by [w] exactly when [y = x]. *)
Lemma upsert_step y t cur w :
  wf (nodes t) -> cur < length (nodes t) ->
  let r := upsertChild (onNewChild y) t cur y w in
  length (nodes t) <= length (nodes (fst r)) /\
  (forall j, j < length (nodes t) -> ipar <$> nodes (fst r) !! j = ipar <$> nodes t !! j) /\
  (forall j nd, nodes (fst r) !! j = Some nd -> length (nodes t) <= j -> j = snd r) /\
  ipath (nodes (fst r)) (snd r) = ipath (nodes t) cur ++ [y] /\
  (forall x S, cond_weight (nodes (fst r)) x S = cond_weight (nodes t) x S +
                 (if String.eqb y x && contains_all (ipath (nodes t) cur) S then w else 0)).
Proof.
  intros Hwf Hlt r. assert (Ho := wf_parents_older _ Hwf).
  destruct (lookup_lt_is_Some_2 _ _ Hlt) as [tn Ht].
  unfold r, upsertChild. destruct (getChild (nodes t) cur y) as [c|] eqn:Hg; simpl.
  - set (f := fun nd => set_support (support nd + w) nd).
    destruct (getChild_Some _ _ _ _ _ Ht Hg) as [Hc (cn & Hcn & Hy)].
    destruct (wf_child _ Hwf _ _ _ Ht Hc) as (cn' & Hcn' & Hp). rewrite Hcn in Hcn'.
    injection Hcn' as <-.
    assert (Ei : forall j, ipar <$> alter f c (nodes t) !! j = ipar <$> nodes t !! j).
    { intros j. rewrite <- !list_lookup_fmap. f_equal. apply proj_alter. reflexivity. }
    assert (Hclt : c < length (nodes t)) by (eapply lookup_lt_Some; eauto).
    rewrite length_alter. split; [lia|]. split; [intros j _; apply Ei|]. split.
    { intros j nd Hj Hge. apply lookup_lt_Some in Hj. rewrite length_alter in Hj. lia. }
    split.
    + unfold ipath. rewrite (ipath_f_same _ _ (nodes t)) by exact Ei. fold (ipath (nodes t) c).
      rewrite (ipath_parent _ _ _ _ Ho Hcn Hp), Hy. reflexivity.
    + intros x S. unfold cond_weight. rewrite length_alter.
      assert (Ec : path_weight (alter f c (nodes t)) x S c =
                   path_weight (nodes t) x S c +
                   (if String.eqb y x && contains_all (ipath (nodes t) cur) S then w else 0)).
      { unfold path_weight. rewrite list_lookup_alter, Hcn. rewrite decide_True by reflexivity.
        simpl. rewrite (anc_same _ (nodes t)) by exact Ei.
        destruct (anc_ipath _ _ _ _ Ho Hcn Hp) as [-> _]. rewrite Hy, eqb_bool_decide.
        destruct (_ && _); simpl; lia. }
      assert (Hr : 0 <= c < 0 + length (nodes t)) by lia.
      assert (E := sum_seq_point (path_weight (alter f c (nodes t)) x S) (path_weight (nodes t) x S)
                     0 (length (nodes t)) c Hr).
      assert (Hne : forall j, 0 <= j < 0 + length (nodes t) -> j <> c ->
                path_weight (alter f c (nodes t)) x S j = path_weight (nodes t) x S j).
      { intros j _ Hj. unfold path_weight.
        rewrite list_lookup_alter_ne by congruence.
        rewrite (anc_same _ (nodes t)) by exact Ei. reflexivity. }
      specialize (E Hne). lia.
  - set (ns1 := new_child_heap (nodes t) cur y w).
    set (t1 := set_nodes (alter (push_child (length (nodes t))) cur
                (nodes t ++ [set_support w (newFPNode (Some y) (Some cur))])) t).
    assert (Hns1 : nodes t1 = ns1) by reflexivity.
    assert (Hwf1 : wf ns1) by (eapply wf_new_child; eauto).
    assert (Ho1 := wf_parents_older _ Hwf1).
    assert (E1 : forall k, isp <$> nodes (onNewChild y t1 (length (nodes t))) !! k = isp <$> ns1 !! k)
      by (intros k; rewrite isp_onNewChild; reflexivity).
    assert (Lk := new_child_heap_lookup (nodes t) cur y w).
    assert (Eold : forall j, j < length (nodes t) -> isp <$> ns1 !! j = isp <$> nodes t !! j).
    { intros j Hj. unfold ns1. rewrite Lk by exact Hlt.
      destruct (decide (j = cur)) as [->|]; [rewrite Ht; reflexivity|].
      rewrite decide_False by lia. reflexivity. }
    assert (Hlen : length (nodes (onNewChild y t1 (length (nodes t)))) = S (length (nodes t))).
    { assert (Hf : isp <$> nodes (onNewChild y t1 (length (nodes t))) = isp <$> ns1)
        by (apply list_eq; intros k; rewrite !list_lookup_fmap; apply E1).
      apply (f_equal length) in Hf. rewrite !length_fmap in Hf. rewrite Hf.
      apply length_new_child_heap. }
    rewrite Hlen. split; [lia|]. split.
    { intros j Hj. apply isp_ipar. rewrite E1. apply Eold, Hj. }
    split.
    { intros j nd Hj Hge. apply lookup_lt_Some in Hj. rewrite Hlen in Hj. lia. }
    assert (Hnew : ns1 !! length (nodes t) = Some (set_support w (newFPNode (Some y) (Some cur)))).
    { unfold ns1. rewrite Lk by exact Hlt. rewrite decide_False by lia.
      rewrite decide_True by reflexivity. reflexivity. }
    assert (Hcur : ipath ns1 cur = ipath (nodes t) cur).
    { unfold ipath. apply ipath_f_ext; [exact Ho1|]. intros j Hj.
      apply isp_ipar. apply Eold. lia. }
    assert (Hip : forall j, ipar <$> nodes (onNewChild y t1 (length (nodes t))) !! j = ipar <$> ns1 !! j)
      by (intros j; apply isp_ipar, E1).
    split.
    + unfold ipath at 1. rewrite (ipath_f_same _ _ ns1) by exact Hip. fold (ipath ns1 (length (nodes t))).
      rewrite (ipath_parent _ _ _ _ Ho1 Hnew) by reflexivity. rewrite Hcur. reflexivity.
    + intros x S. unfold cond_weight. rewrite Hlen.
      rewrite (sum_seq_ext _ (path_weight ns1 x S)) by (intros j _; apply path_weight_same, E1).
      rewrite sum_seq_snoc. f_equal.
      * apply sum_seq_ext. intros j Hj. symmetry. apply path_weight_ext; [exact Ho|].
        intros k Hk. symmetry. apply Eold. lia.
      * unfold path_weight. rewrite Hnew. simpl.
        destruct (anc_ipath _ _ _ _ Ho1 Hnew eq_refl) as [-> _]. rewrite Hcur, eqb_bool_decide.
        destruct (_ && _); reflexivity.
Qed.

End Paths.

(** * What an insertion sequence puts in the tree *)

Section Growth.

Lemma ipath_keep (ns ns' : list FPNode) j :
  wf ns -> (forall k, k < length ns -> ipar <$> ns' !! k = ipar <$> ns !! k) ->
  j < length ns -> ipath ns' j = ipath ns j.
Proof.
  intros Hwf He Hj. unfold ipath. symmetry. apply ipath_f_ext; [apply wf_parents_older, Hwf|].
  intros k Hk. symmetry. apply He. lia.
Qed.

(** The state of [_addItems t0 q w] after the items [r] of [q]. *)
Definition add_inv (t0 : FPTree) (w : nat) (r : list string) (tc : FPTree * nat) : Prop :=
  let '(t, cur) := tc in
  wf (nodes t) /\ cur < length (nodes t) /\ ipath (nodes t) cur = r /\
  length (nodes t0) <= length (nodes t) /\
  (forall j, j < length (nodes t0) -> ipar <$> nodes t !! j = ipar <$> nodes t0 !! j) /\
  (forall j nd, nodes t !! j = Some nd -> length (nodes t0) <= j -> ipath (nodes t) j `prefix_of` r) /\
  (forall k, k <= length r -> exists j, j < length (nodes t) /\ ipath (nodes t) j = take k r) /\
  (forall x S, cond_weight (nodes t) x S = cond_weight (nodes t0) x S + w * hits x S [] r).

Lemma add_inv_step t0 w r tc y :
  add_inv t0 w r tc -> add_inv t0 w (r ++ [y]) (add_step w tc y).
Proof.
  destruct tc as [t cur]. simpl.
  intros (Hwf & Hlt & Hp & Hlen & Hold & Hnew & Htake & Hcw).
  destruct (upsertChild_wf y t cur w Hwf Hlt) as (W1 & W2 & _).
  destruct (upsert_step y t cur w Hwf Hlt) as (S1 & S2 & S3 & S4 & S5).
  destruct (upsertChild (onNewChild y) t cur y w) as [t' c] eqn:E. simpl in *.
  split; [exact W1|]. split; [exact W2|]. split; [rewrite S4, Hp; reflexivity|].
  split; [lia|]. split.
  { intros j Hj. rewrite S2 by lia. apply Hold, Hj. }
  split.
  { intros j nd Hj Hge. destruct (decide (j < length (nodes t))) as [Hjt|Hjt].
    - rewrite (ipath_keep (nodes t)) by auto.
      destruct (lookup_lt_is_Some_2 _ _ Hjt) as [nd0 Hnd0].
      apply prefix_app_r. eapply Hnew; eauto.
    - rewrite (S3 j nd Hj) by lia. rewrite S4, Hp. reflexivity. }
  split.
  { intros k Hk. rewrite length_app in Hk. simpl in Hk.
    destruct (decide (k <= length r)) as [Hkr|Hkr].
    - rewrite take_app_le by exact Hkr. destruct (Htake k Hkr) as (j & Hj & Hjp).
      exists j. split; [lia|]. rewrite (ipath_keep (nodes t)) by auto. exact Hjp.
    - exists c. split; [exact W2|]. rewrite take_ge by (rewrite length_app; simpl; lia).
      rewrite S4, Hp. reflexivity. }
  intros x S. rewrite S5, Hcw, hits_snoc, Hp. simpl.
  destruct (String.eqb y x && contains_all r S); lia.
Qed.

Lemma add_inv_fold t0 w rest r tc :
  add_inv t0 w r tc -> add_inv t0 w (r ++ rest) (fold_left (add_step w) rest tc).
Proof.
  revert r tc. induction rest as [|y rest IH]; intros r tc H; simpl.
  - rewrite app_nil_r. exact H.
  - replace (r ++ y :: rest) with ((r ++ [y]) ++ rest) by (rewrite <- app_assoc; reflexivity).
    apply IH. apply add_inv_step, H.
Qed.

Lemma addItems_inv t q w :
  wf (nodes t) ->
  let t' := _addItems t q w in
  wf (nodes t') /\ length (nodes t) <= length (nodes t') /\
  (forall j, j < length (nodes t) -> ipar <$> nodes t' !! j = ipar <$> nodes t !! j) /\
  (forall j nd, nodes t' !! j = Some nd -> length (nodes t) <= j -> ipath (nodes t') j `prefix_of` q) /\
  (forall k, k <= length q -> exists j, j < length (nodes t') /\ ipath (nodes t') j = take k q) /\
  (forall x S, cond_weight (nodes t') x S = cond_weight (nodes t) x S + w * hits x S [] q).
Proof.
  intros Hwf t'. unfold t'. rewrite _addItems_fold.
  assert (H0 : add_inv t w [] (t, root)).
  { simpl. split; [exact Hwf|]. split; [apply wf_root_lt, Hwf|].
    split; [apply ipath_root_nil, Hwf|]. split; [lia|]. split; [reflexivity|].
    split; [intros j nd Hj Hge; apply lookup_lt_Some in Hj; lia|].
    split; [|intros x S; simpl; lia].
    intros k Hk. exists root. split; [apply wf_root_lt, Hwf|].
    rewrite ipath_root_nil by exact Hwf. simpl in Hk. replace k with 0 by lia. reflexivity. }
  pose proof (add_inv_fold t w q [] (t, root) H0) as H. simpl in H.
  destruct (fold_left (add_step w) q (t, root)) as [t1 c]. simpl.
  destruct H as (H1 & H2 & H3 & H4 & H5 & H6 & H7 & H8). auto 10.
Qed.

(** The invariant of a tree built by a sequence of insertions [L]. *)
Definition grown (L : list (list string * nat)) (t : FPTree) : Prop :=
  tree_ok t /\
  (forall j nd, nodes t !! j = Some nd -> j <> root ->
     exists q w, In (q, w) L /\ ipath (nodes t) j `prefix_of` q) /\
  (forall q w, In (q, w) L -> forall k, k <= length q ->
     exists j, j < length (nodes t) /\ ipath (nodes t) j = take k q) /\
  (forall x S, cond_weight (nodes t) x S =
               sum_list_with (fun '(q, w) => w * hits x S [] q) L).

Lemma grown_step L t q w : grown L t -> grown (L ++ [(q, w)]) (_addItems t q w).
Proof.
  intros (Hok & Hpre & Htake & Hcw).
  assert (Hwf : wf (nodes t)) by apply Hok.
  destruct (addItems_inv t q w Hwf) as (A1 & A2 & A3 & A4 & A5 & A6).
  split; [apply addItems_ok, Hok|]. split; [|split].
  - intros j nd Hj Hnr. destruct (decide (j < length (nodes t))) as [Hjt|Hjt].
    + destruct (lookup_lt_is_Some_2 _ _ Hjt) as [nd0 Hnd0].
      destruct (Hpre j nd0 Hnd0 Hnr) as (q' & w' & Hin & Hp).
      exists q', w'. split; [apply in_or_app; left; exact Hin|].
      rewrite (ipath_keep (nodes t)) by auto. exact Hp.
    + exists q, w. split; [apply in_or_app; right; left; reflexivity|].
      eapply A4; [exact Hj|lia].
  - intros q' w' Hin k Hk. apply in_app_or in Hin as [Hin|[Hin|[]]].
    + destruct (Htake q' w' Hin k Hk) as (j & Hj & Hjp). exists j. split; [lia|].
      rewrite (ipath_keep (nodes t)) by auto. exact Hjp.
    + injection Hin as <- <-. apply A5, Hk.
  - intros x S. rewrite A6, Hcw, sum_list_with_app. simpl. lia.
Qed.

Lemma grown_insert_all L0 t L :
  grown L0 t -> grown (L0 ++ L) (insert_all t L).
Proof.
  unfold insert_all. revert L0 t. induction L as [|[q w] L IH]; intros L0 t H; simpl.
  - rewrite app_nil_r. exact H.
  - replace (L0 ++ (q, w) :: L) with ((L0 ++ [(q, w)]) ++ L) by (rewrite <- app_assoc; reflexivity).
    apply IH. apply grown_step, H.
Qed.

Lemma cond_weight_fresh x S : cond_weight [newFPNode None None] x S = 0.
Proof. reflexivity. Qed.

Lemma grown_built sups m L : grown L (insert_all (newFPTree sups m) L).
Proof.
  apply (grown_insert_all [] (newFPTree sups m) L). split; [apply tree_ok_fresh|].
  split; [|split].
  - intros [|j] nd Hj Hnr; [contradiction|]. destruct j; discriminate.
  - intros q w [].
  - intros x S. reflexivity.
Qed.

End Growth.

(** * Occurrence counts *)

Section Occurrences.

Definition occ (l : list string) (x : string) : nat := List.count_occ String.string_dec l x.

Lemma count_step_lookup (M : gmap string nat) y x :
  (<[y := default 0 (M !! y) + 1]> M) !! x =
  if String.eqb y x then Some (default 0 (M !! x) + 1) else M !! x.
Proof.
  destruct (String.eqb_spec y x) as [->|Hne].
  - apply lookup_insert_eq.
  - apply lookup_insert_ne. exact Hne.
Qed.

Lemma count_arr_default (arr : list string) (M : gmap string nat) x :
  default 0 (fold_left (fun count x => <[x := default 0 (count !! x) + 1]> count) arr M !! x) =
  default 0 (M !! x) + occ arr x.
Proof.
  revert M. induction arr as [|y arr IH]; intros M; simpl; [lia|].
  rewrite IH, count_step_lookup. unfold occ. simpl.
  destruct (String.eqb_spec y x) as [->|Hne].
  - destruct (String.string_dec x x); [simpl; lia|contradiction].
  - destruct (String.string_dec y x); [contradiction|reflexivity].
Qed.

Lemma count_arr_some (arr : list string) (M : gmap string nat) x :
  (is_Some (M !! x) \/ In x arr) ->
  is_Some (fold_left (fun count x => <[x := default 0 (count !! x) + 1]> count) arr M !! x).
Proof.
  revert M. induction arr as [|y arr IH]; intros M H; simpl.
  - destruct H as [H|[]]. exact H.
  - apply IH. rewrite count_step_lookup.
    destruct (String.eqb_spec y x) as [->|Hne]; [left; eexists; reflexivity|].
    destruct H as [H|[->|H]]; auto. contradiction.
Qed.

Lemma distinct_count_default ts x :
  default 0 (_getDistinctItemsCount ts !! x) = sum_list_with (fun tr => occ tr x) ts.
Proof.
  unfold _getDistinctItemsCount.
  assert (G : forall M : gmap string nat, default 0 (fold_left (fun count arr =>
               fold_left (fun count x => <[x := default 0 (count !! x) + 1]> count) arr count)
               ts M !! x) = default 0 (M !! x) + sum_list_with (fun tr => occ tr x) ts).
  { induction ts as [|tr ts IH]; intros M; simpl; [lia|]. rewrite IH, count_arr_default. lia. }
  rewrite G. reflexivity.
Qed.

Lemma distinct_count_some ts x tr :
  In tr ts -> In x tr -> is_Some (_getDistinctItemsCount ts !! x).
Proof.
  unfold _getDistinctItemsCount.
  assert (G : forall M : gmap string nat, (is_Some (M !! x) \/ exists tr, In tr ts /\ In x tr) ->
            is_Some (fold_left (fun count arr =>
               fold_left (fun count x => <[x := default 0 (count !! x) + 1]> count) arr count)
               ts M !! x)).
  { induction ts as [|tr' ts IH]; intros M H; simpl.
    - destruct H as [H|(? & [] & _)]. exact H.
    - apply IH. destruct H as [H|(tr0 & [<-|Hin] & Hx)].
      + left. apply count_arr_some. left. exact H.
      + left. apply count_arr_some. right. exact Hx.
      + right. eauto. }
  intros Htr Hx. apply G. right. eauto.
Qed.

Lemma occ_filter (f : string -> bool) l x : f x = true -> occ (List.filter f l) x = occ l x.
Proof.
  intros Hf. unfold occ. induction l as [|y l IH]; simpl; [reflexivity|].
  destruct (String.string_dec y x) as [->|Hne].
  - rewrite Hf. simpl. destruct (String.string_dec x x); [lia|contradiction].
  - destruct (f y); simpl; [destruct (String.string_dec y x); [contradiction|]|]; exact IH.
Qed.

Lemma occ_perm l l' x : Permutation l l' -> occ l x = occ l' x.
Proof. intros H. unfold occ. apply Permutation_count_occ, H. Qed.

Lemma occ_prepare lc t tr x :
  frequent t x = true -> occ (prepare lc t tr) x = occ tr x.
Proof.
  intros Hf. unfold prepare. rewrite (occ_perm _ (List.filter (frequent t) tr)) by apply js_sort_perm.
  apply occ_filter, Hf.
Qed.

End Occurrences.

(** * Conditional trees *)

Section Conditional.

Variable localeCompare : string -> string -> Z.

Definition nsup (ns : list FPNode) (n : nat) : nat := default 0 (support <$> (ns !! n)).

(** One node visited by [_getPrefixPaths]: its prefix path is pushed when
    it is not empty, and the callback has run on its items. *)
Definition pp_step (ns : list FPNode) (cb : Callback)
    (st : list IPrefixPath * gmap string nat) (n : nat) : list IPrefixPath * gmap string nat :=
  let '(acc, cts) := st in
  let s := nsup ns n in
  let '(p, cts) := _getPrefixPath (length ns) ns n s cb cts in
  (match p with [] => acc | _ :: _ => acc ++ [mkPrefixPath p s] end, cts).

Lemma getPrefixPath_anc ns fuel i cnt cb cts :
  wf ns -> i < length ns -> i < fuel ->
  _getPrefixPath fuel ns i cnt cb cts =
    (rev (anc ns i), fold_left (fun cts y => cb y cnt cts) (rev (anc ns i)) cts).
Proof.
  intros Hwf. assert (Ho := wf_parents_older _ Hwf).
  revert i cts. induction fuel as [|f IH]; intros i cts Hi Hf; [lia|]. simpl.
  destruct (lookup_lt_is_Some_2 _ _ Hi) as [nd Hnd]. rewrite Hnd.
  unfold anc. rewrite Hnd.
  destruct (parent nd) as [p|] eqn:Hp; [|reflexivity].
  pose proof (Ho _ _ _ Hnd Hp) as Hpi.
  destruct (lookup_lt_is_Some_2 ns p ltac:(lia)) as [pn Hpn]. rewrite Hpn.
  destruct (parent pn) as [g|] eqn:Hg.
  - assert (Hpr : p <> root).
    { intros ->. destruct (wf_root _ Hwf) as (r & Hr & _ & Hr'). congruence. }
    destruct (wf_node _ Hwf _ _ Hpn Hpr) as (y & g' & gn & Hy & _).
    rewrite Hy. rewrite (IH p (cb y cnt cts)) by lia.
    destruct (anc_ipath _ _ _ _ Ho Hpn Hg) as [_ Ei]. rewrite Ei, Hy. simpl.
    rewrite rev_app_distr. reflexivity.
  - assert (Hpr : p = root).
    { destruct (decide (p = root)) as [|Hne]; [assumption|].
      destruct (wf_node _ Hwf _ _ Hpn Hne) as (y & g' & gn & _ & Hg' & _). congruence. }
    subst p. rewrite ipath_root_nil by exact Hwf. reflexivity.
Qed.

Lemma getPrefixPaths_chain fuel t i cnt cb cts acc :
  _isInit t = true ->
  _getPrefixPaths fuel t i cnt cb cts acc =
    Ok (fold_left (pp_step (nodes t) cb) (node_chain fuel (nodes t) i) (acc, cts)).
Proof.
  intros Hi. revert i cts acc. induction fuel as [|f IH]; intros i cts acc; [reflexivity|].
  simpl. unfold getPrefixPath. rewrite Hi. simpl.
  unfold nsup. destruct (_getPrefixPath (length (nodes t)) (nodes t) i _ cb cts) as [p cts'].
  destruct (nodes t !! i) as [nd|] eqn:E; simpl.
  - destruct (nextSameItemNode nd) as [nx|]; [|destruct p; reflexivity].
    destruct p; simpl; rewrite IH; reflexivity.
  - destruct p; reflexivity.
Qed.

(** The prefix paths and the item counts [getConditionalFPTree] collects for [x]. *)
Definition cond_paths (ns : list FPNode) (x : string) : list IPrefixPath :=
  flat_map (fun n => match anc ns n with
                     | [] => []
                     | _ :: _ => [mkPrefixPath (rev (anc ns n)) (nsup ns n)]
                     end) (nodes_with ns x).

Definition add_counts (ns : list FPNode) (cts : gmap string nat) (n : nat) : gmap string nat :=
  fold_left (fun cts y => count_item y (nsup ns n) cts) (rev (anc ns n)) cts.

Definition cond_counts (ns : list FPNode) (x : string) : gmap string nat :=
  fold_left (add_counts ns) (nodes_with ns x) ∅.

Lemma pp_step_anc ns acc cts n :
  wf ns -> n < length ns ->
  pp_step ns count_item (acc, cts) n =
    (acc ++ match anc ns n with
            | [] => []
            | _ :: _ => [mkPrefixPath (rev (anc ns n)) (nsup ns n)]
            end, add_counts ns cts n).
Proof.
  intros Hwf Hn. unfold pp_step, add_counts. rewrite getPrefixPath_anc by auto.
  destruct (anc ns n) as [|a l'] eqn:E; simpl.
  - rewrite app_nil_r. reflexivity.
  - destruct (rev l' ++ [a]) eqn:E2; [|reflexivity].
    apply app_eq_nil in E2 as [_ E2]. discriminate.
Qed.

Lemma pp_fold ns l acc cts :
  wf ns -> (forall n, In n l -> n < length ns) ->
  fold_left (pp_step ns count_item) l (acc, cts) =
    (acc ++ flat_map (fun n => match anc ns n with
                               | [] => []
                               | _ :: _ => [mkPrefixPath (rev (anc ns n)) (nsup ns n)]
                               end) l,
     fold_left (add_counts ns) l cts).
Proof.
  intros Hwf. revert acc cts. induction l as [|n l IH]; intros acc cts Hl; cbn [fold_left flat_map].
  - rewrite app_nil_r. reflexivity.
  - rewrite pp_step_anc by (auto; apply Hl; left; reflexivity).
    rewrite IH by (intros k Hk; apply Hl; right; exact Hk).
    rewrite app_assoc. reflexivity.
Qed.

Lemma nodes_with_lt ns x n : In n (nodes_with ns x) -> n < length ns.
Proof. intros H. apply in_nodes_with in H as (nd & H & _). eapply lookup_lt_Some; eauto. Qed.

(** Whether some node of the tree carries [y]. *)
Definition occurs (t : FPTree) (y : string) : Prop :=
  exists j nd, nodes t !! j = Some nd /\ item nd = Some y.

Lemma headers_members sups m L x :
  In x (_headers (finish_build (insert_all (newFPTree sups m) L))) <->
  occurs (finish_build (insert_all (newFPTree sups m) L)) x.
Proof.
  destruct (built_ok sups m L) as [_ Hl].
  assert (Hs : supports (insert_all (newFPTree sups m) L) = sups).
  { pose proof (frame_insert_all (newFPTree sups m) L) as F.
    destruct (frame_fields _ _ F) as (_ & E & _). exact E. }
  simpl. assert (Hp := header_list_perm (insert_all (newFPTree sups m) L)).
  unfold occurs. simpl. rewrite <- (in_first_keys _ _ _ x Hl). split; intros H.
  - apply (Permutation_in x Hp). exact H.
  - apply (Permutation_in x (Permutation_sym Hp)). exact H.
Qed.

(** [getConditionalFPTree] on a built tree, in closed form. *)
Lemma getConditionalFPTree_built sups m L x :
  let t := finish_build (insert_all (newFPTree sups m) L) in
  occurs t x ->
  let ns := nodes t in
  let ret := finish_build (insert_all (newFPTree (cond_counts ns x) m)
               (map (fun pp => (prepare localeCompare (newFPTree (cond_counts ns x) m) (path pp),
                                pp_support pp)) (cond_paths ns x))) in
  getConditionalFPTree localeCompare t x = Ok (if root_has_children ret then Some ret else None).
Proof.
  intros t Hx ns ret. destruct (built_ok sups m L) as [Hwf Hl].
  assert (Hm : _support (insert_all (newFPTree sups m) L) = m).
  { pose proof (frame_insert_all (newFPTree sups m) L) as F.
    destruct (frame_fields _ _ F) as (_ & _ & E & _). exact E. }
  unfold getConditionalFPTree.
  destruct Hx as (j & nd & Hj & Hx).
  assert (Hin : In j (nodes_with ns x)) by (apply in_nodes_with; eauto).
  destruct (jget x (_firstInserted t)) as [start|] eqn:Hf.
  2:{ exfalso. simpl in Hf. rewrite (lk_first _ _ _ Hl) in Hf.
      unfold ns, t in Hin. simpl in Hin. destruct (nodes_with _ x); [contradiction|discriminate]. }
  rewrite getPrefixPaths_chain by reflexivity.
  assert (Hl' : links (nodes t) (_firstInserted t) (_lastInserted t)) by exact Hl.
  assert (Hwf' : wf (nodes t)) by exact Hwf.
  rewrite (node_chain_first _ _ _ x start Hl' Hf).
  rewrite pp_fold by (auto; apply nodes_with_lt). cbn [rbind app].
  replace (_support t) with m by (symmetry; exact Hm).
  rewrite fromPrefixPaths_built. cbn [rbind]. fold (cond_counts (nodes t) x) (cond_paths (nodes t) x). fold ns ret. destruct (root_has_children ret); reflexivity.
Qed.

End Conditional.

(** * Mining: what every emitted itemset satisfies *)

Section Mining.

Variable localeCompare : string -> string -> Z.

Lemma occurs_in_inserted sups m B y :
  occurs (finish_build (insert_all (newFPTree sups m) B)) y ->
  exists q w, In (q, w) B /\ In y q /\
    exists j, nodes (insert_all (newFPTree sups m) B) !! j <> None /\
              ipath (nodes (insert_all (newFPTree sups m) B)) j `prefix_of` q /\
              In y (ipath (nodes (insert_all (newFPTree sups m) B)) j).
Proof.
  intros (j & nd & Hj & Hy). simpl in Hj.
  destruct (grown_built sups m B) as ((Hwf & _) & Hpre & _).
  assert (Hnr : j <> root).
  { intros ->. destruct (wf_root _ Hwf) as (r & Hr & Hi & _). congruence. }
  destruct (wf_node _ Hwf _ _ Hj Hnr) as (y' & p & pn & Hy' & Hp & _).
  assert (Hin : In y (ipath (nodes (insert_all (newFPTree sups m) B)) j)).
  { rewrite (ipath_parent _ _ _ _ (wf_parents_older _ Hwf) Hj Hp), Hy.
    apply in_or_app. right. left. reflexivity. }
  destruct (Hpre j nd Hj Hnr) as (q & w & HqB & [k Hk]).
  exists q, w. split; [exact HqB|]. split.
  - rewrite Hk. apply in_or_app. left. exact Hin.
  - exists j. split; [congruence|]. split; [exists k; exact Hk|exact Hin].
Qed.

Lemma prepare_members t l y :
  In y (prepare localeCompare t l) <-> In y l /\ frequent t y = true.
Proof.
  unfold prepare. split; intros H.
  - apply (Permutation_in y (js_sort_perm _ _)) in H. apply filter_In in H. exact H.
  - apply (Permutation_in y (Permutation_sym (js_sort_perm _ _))). apply filter_In. exact H.
Qed.

Lemma frequent_fresh sups thr y :
  frequent (newFPTree sups thr) y = true -> exists s, sups !! y = Some s /\ (thr <= Z.of_nat s)%Z.
Proof.
  unfold frequent. simpl. destruct (sups !! y) as [s|]; [|discriminate].
  intros H. apply Z.leb_le in H. eauto.
Qed.

Lemma fold_ok_inv {A} (Good : list Itemset -> Prop)
    (F : result (list Itemset) -> A -> result (list Itemset)) (hs : list A) acc :
  (forall e x, F (Throw e) x = Throw e) ->
  (forall x l l', In x hs -> Good l -> F (Ok l) x = Ok l' -> Good l') ->
  (forall l, acc = Ok l -> Good l) ->
  forall l, fold_left F hs acc = Ok l -> Good l.
Proof.
  intros Hth. revert acc. induction hs as [|x hs IH]; intros acc Hstep Hacc l Hl; simpl in Hl.
  - apply Hacc, Hl.
  - apply (IH (F acc x)); [intros; eapply Hstep; eauto; right; auto| |exact Hl].
    intros l' Hl'. destruct acc as [l0|e].
    + eapply Hstep; [left; reflexivity|apply Hacc; reflexivity|exact Hl'].
    + rewrite Hth in Hl'. discriminate.
Qed.

Lemma supports_built sups m B :
  supports (finish_build (insert_all (newFPTree sups m) B)) = sups /\
  _support (finish_build (insert_all (newFPTree sups m) B)) = m.
Proof.
  pose proof (frame_insert_all (newFPTree sups m) B) as F.
  destruct (frame_fields _ _ F) as (_ & E1 & E2 & _). simpl. auto.
Qed.

(** The miner's step: what [_fpGrowth] does with one header item. *)
Lemma fpGrowth_step_cases f (T : FPTree) ps P x l l' :
  (let! itemsets := Ok l in
   let s := Nat.min (default 0 (supports T !! x)) ps in
   let currentPrefix := P ++ [x] in
   let itemsets := itemsets ++ [_getFrequentItemset currentPrefix s] in
   let! childTree := getConditionalFPTree localeCompare T x in
   match childTree with
   | Some ct => let! sub := _fpGrowth localeCompare f ct s currentPrefix in Ok (itemsets ++ sub)
   | None => Ok itemsets
   end) = Ok l' ->
  let s := Nat.min (default 0 (supports T !! x)) ps in
  (l' = l ++ [mkItemset (P ++ [x]) s]) \/
  exists ct sub, getConditionalFPTree localeCompare T x = Ok (Some ct) /\
    _fpGrowth localeCompare f ct s (P ++ [x]) = Ok sub /\
    l' = (l ++ [mkItemset (P ++ [x]) s]) ++ sub.
Proof.
  intros H s. cbn [rbind] in H.
  destruct (getConditionalFPTree localeCompare T x) as [[ct|]|e]; cbn [rbind] in H.
  - right. destruct (_fpGrowth localeCompare f ct _ (P ++ [x])) as [sub|e] eqn:E; [|discriminate].
    injection H as <-. exists ct, sub. auto.
  - left. injection H as <-. reflexivity.
  - discriminate.
Qed.

(** ** The absolute threshold (C3) *)

Definition thr_inv (thr : Z) (T : FPTree) (ps : nat) : Prop :=
  exists sups B, T = finish_build (insert_all (newFPTree sups thr) B) /\
    (forall q w, In (q, w) B -> forall y, In y q -> exists s, sups !! y = Some s /\ (thr <= Z.of_nat s)%Z) /\
    (thr <= Z.of_nat ps)%Z.

Lemma thr_cond thr T ps x T' ps' :
  thr_inv thr T ps -> In x (_headers T) ->
  getConditionalFPTree localeCompare T x = Ok (Some T') -> (thr <= Z.of_nat ps')%Z ->
  thr_inv thr T' ps'.
Proof.
  intros (sups & B & -> & Hf & _) Hx Hc Hps.
  apply headers_members in Hx.
  rewrite (getConditionalFPTree_built localeCompare sups thr B x Hx) in Hc.
  match type of Hc with Ok (if root_has_children ?r then _ else _) = _ =>
    destruct (root_has_children r); [injection Hc as <-|discriminate] end.
  eexists; eexists; split; [reflexivity|]. split; [|exact Hps].
  intros q w Hq y Hy. apply in_map_iff in Hq as (pp & Hpp & _). injection Hpp as <- _.
  apply prepare_members in Hy as [_ Hy]. apply frequent_fresh, Hy.
Qed.

Lemma mine_thr thr fuel : forall T ps P,
  thr_inv thr T ps -> forall l, _fpGrowth localeCompare fuel T ps P = Ok l ->
  forall is, In is l -> (thr <= Z.of_nat (is_support is))%Z.
Proof.
  induction fuel as [|f IH]; intros T ps P Hinv l Hl.
  - simpl in Hl. injection Hl as <-. intros is [].
  - simpl in Hl. revert l Hl.
    apply (fold_ok_inv (fun l => forall is, In is l -> (thr <= Z.of_nat (is_support is))%Z)).
    + reflexivity.
    + intros x l l' Hx Hgood Hstep.
      destruct Hinv as (sups & B & HT & Hf & Hps).
      assert (Hs : forall s0, supports T !! x = Some s0 -> (thr <= Z.of_nat s0)%Z).
      { intros s0 Hs0. pose proof Hx as Hx'. rewrite HT in Hx'. apply headers_members in Hx'.
        destruct (occurs_in_inserted _ _ _ _ Hx') as (q & w & Hq & Hy & _).
        destruct (Hf q w Hq x Hy) as (s1 & Hs1 & Hle).
        rewrite HT in Hs0. rewrite (proj1 (supports_built _ _ _)) in Hs0. congruence. }
      assert (Hmin : (thr <= Z.of_nat (Nat.min (default 0%nat (supports T !! x)) ps))%Z).
      { destruct (supports T !! x) as [s0|] eqn:E.
        - specialize (Hs s0 eq_refl). simpl. lia.
        - exfalso. pose proof Hx as Hx'. rewrite HT in Hx'. apply headers_members in Hx'.
          destruct (occurs_in_inserted _ _ _ _ Hx') as (q & w & Hq & Hy & _).
          destruct (Hf q w Hq x Hy) as (s1 & Hs1 & _).
          rewrite HT in E. rewrite (proj1 (supports_built _ _ _)) in E. congruence. }
      apply fpGrowth_step_cases in Hstep as [->|(ct & sub & Hc & Hsub & ->)];
        intros is His; apply in_app_or in His as [His|His]; auto.
      * destruct His as [<-|[]]. exact Hmin.
      * apply in_app_or in His as [His|[<-|[]]]; [auto|exact Hmin].
      * eapply IH; [|exact Hsub|exact His].
        apply (thr_cond thr T ps x ct); [exists sups, B; auto|exact Hx|exact Hc|exact Hmin].
    + intros l Hl. injection Hl as <-. intros is [].
Qed.

End Mining.

(** * Exact supports of the mined itemsets *)

(** A comparator that is a strict total order (through its negative results). *)
Definition strict_total (cmp : string -> string -> Z) : Prop :=
  (forall a b c, (cmp a b < 0)%Z -> (cmp b c < 0)%Z -> (cmp a c < 0)%Z) /\
  (forall a b, (cmp a b < 0)%Z -> ~ (cmp b a < 0)%Z) /\
  (forall a b, a <> b -> (cmp a b < 0)%Z \/ (cmp b a < 0)%Z).

(** The weight of the inserted paths [B] that hold all of [S]. *)
Definition wcount (B : list (list string * nat)) (S : list string) : nat :=
  sum_list_with (fun '(q, w) => if contains_all q S then w else 0) B.

Section Counting.

Lemma string_compare_lt_trans a b c :
  String.compare a b = Lt -> String.compare b c = Lt -> String.compare a c = Lt.
Proof.
  revert b c. induction a as [|ca a IH]; intros [|cb b] [|cc c]; cbn [String.compare];
    try discriminate; auto.
  unfold Ascii.compare.
  destruct (N.compare_spec (Ascii.N_of_ascii ca) (Ascii.N_of_ascii cb)) as [E1|E1|E1]; try discriminate;
  destruct (N.compare_spec (Ascii.N_of_ascii cb) (Ascii.N_of_ascii cc)) as [E2|E2|E2]; try discriminate;
  destruct (N.compare_spec (Ascii.N_of_ascii ca) (Ascii.N_of_ascii cc)) as [E3|E3|E3]; try lia; eauto.
Qed.

Lemma code_point_compare_lt a b : (code_point_compare a b < 0)%Z <-> String.compare a b = Lt.
Proof. unfold code_point_compare. destruct (String.compare a b); split; intros H; first [lia | reflexivity | discriminate]. Qed.

Lemma code_point_compare_strict : strict_total code_point_compare.
Proof.
  split; [|split].
  - intros a b c. rewrite !code_point_compare_lt. apply string_compare_lt_trans.
  - intros a b. rewrite !code_point_compare_lt, (String.compare_antisym b a).
    intros ->. discriminate.
  - intros a b Hne. rewrite !code_point_compare_lt, (String.compare_antisym b a).
    destruct (String.compare a b) eqn:E; auto.
    apply String.compare_eq_iff in E. contradiction.
Qed.

Lemma contains_all_spec t S : contains_all t S = true <-> forall y, In y S -> In y t.
Proof.
  unfold contains_all. rewrite forallb_forall. split; intros H y Hy.
  - apply list_elem_of_In. apply (proj1 (bool_decide_eq_true _)). apply H, Hy.
  - apply (proj2 (bool_decide_eq_true _)). apply list_elem_of_In. apply H, Hy.
Qed.

Lemma contains_all_ext t t' S :
  (forall y, In y S -> (In y t <-> In y t')) -> contains_all t S = contains_all t' S.
Proof.
  intros H. apply Bool.eq_true_iff_eq. rewrite !contains_all_spec.
  split; intros Hs y Hy; apply (H y Hy); auto.
Qed.

Lemma contains_all_cons t x S :
  contains_all t (x :: S) = bool_decide (x ∈ t) && contains_all t S.
Proof. reflexivity. Qed.

Lemma contains_all_app t S1 S2 :
  contains_all t (S1 ++ S2) = contains_all t S1 && contains_all t S2.
Proof. unfold contains_all. apply forallb_app. Qed.

Lemma contains_all_nil_l S : S <> [] -> contains_all [] S = false.
Proof.
  destruct S as [|s S]; [contradiction|]. intros _. rewrite contains_all_cons.
  rewrite bool_decide_eq_false_2; [reflexivity|apply not_elem_of_nil].
Qed.

Lemma ss_app_inv {A} (R : A -> A -> Prop) l1 l2 :
  StronglySorted R (l1 ++ l2) ->
  StronglySorted R l1 /\ StronglySorted R l2 /\ (forall a b, In a l1 -> In b l2 -> R a b).
Proof.
  induction l1 as [|a l1 IH]; simpl; intros H.
  - split; [constructor|]. split; [exact H|]. intros _ _ [].
  - apply StronglySorted_inv in H as [H Ha]. destruct (IH H) as (H1 & H2 & H3).
    rewrite List.Forall_forall in Ha. split.
    + constructor; [exact H1|]. rewrite List.Forall_forall. intros z Hz. apply Ha, in_or_app. left. exact Hz.
    + split; [exact H2|]. intros a' b [<-|Ha'] Hb; [apply Ha, in_or_app; right; exact Hb|].
      apply H3; auto.
Qed.

Lemma ss_nodup {A} (R : A -> A -> Prop) l :
  (forall a, ~ R a a) -> StronglySorted R l -> NoDup l.
Proof.
  intros Hirr. induction l as [|a l IH]; intros H; [constructor|].
  apply StronglySorted_inv in H as [H Ha]. rewrite List.Forall_forall in Ha.
  constructor; [intros Hin; apply list_elem_of_In in Hin; exact (Hirr a (Ha a Hin))|apply IH, H].
Qed.

(** On a path sorted by a strict order in which every item of [S] precedes
    [x], [x] occurs at most once and after all of [S]. *)
Lemma hits_sorted (R : string -> string -> Prop) x S :
  (forall a b, R a b -> ~ R b a) -> (forall s, In s S -> R s x) ->
  forall q pre, StronglySorted R q ->
  hits x S pre q = if bool_decide (x ∈ q) && contains_all (pre ++ q) S then 1 else 0.
Proof.
  intros Has HS. induction q as [|y q IH]; intros pre Hs; cbn [hits].
  - rewrite bool_decide_eq_false_2; [reflexivity|apply not_elem_of_nil].
  - apply StronglySorted_inv in Hs as [Hs Hy]. rewrite List.Forall_forall in Hy.
    rewrite IH by exact Hs. rewrite <- app_assoc. cbn [app].
    destruct (String.eqb_spec y x) as [->|Hne].
    + assert (Hxq : ~ In x q) by (intros H; exact (Has x x (Hy x H) (Hy x H))).
      rewrite (bool_decide_eq_false_2 (x ∈ q)) by (rewrite list_elem_of_In; exact Hxq).
      rewrite (bool_decide_eq_true_2 (x ∈ x :: q)) by (rewrite list_elem_of_In; left; reflexivity).
      rewrite (contains_all_ext pre (pre ++ x :: q) S).
      * cbn [andb]. destruct (contains_all (pre ++ x :: q) S); reflexivity.
      * intros s Hs'. split; [intros H; apply in_or_app; left; exact H|].
        intros H. apply in_app_or in H as [H|[<-|H]]; [exact H| |].
        -- exfalso. exact (Has x x (HS x Hs') (HS x Hs')).
        -- exfalso. exact (Has s x (HS s Hs') (Hy s H)).
    + replace (bool_decide (x ∈ y :: q)) with (bool_decide (x ∈ q)).
      * reflexivity.
      * apply bool_decide_ext. rewrite !list_elem_of_In. simpl.
        split; [auto|intros [E|H]; [contradiction|exact H]].
Qed.

Lemma weighted_hits (R : string -> string -> Prop) B x S :
  (forall a b, R a b -> ~ R b a) -> (forall s, In s S -> R s x) ->
  (forall q w, In (q, w) B -> StronglySorted R q) ->
  sum_list_with (fun '(q, w) => w * hits x S [] q) B = wcount B (x :: S).
Proof.
  intros Has HS. unfold wcount. induction B as [|[q w] B IH]; intros HB; [reflexivity|].
  cbn [sum_list_with]. rewrite IH by (intros; eapply HB; right; eauto).
  rewrite (hits_sorted R x S Has HS q []) by (eapply HB; left; reflexivity).
  cbn [app]. rewrite contains_all_cons. destruct (bool_decide _ && _); lia.
Qed.

Lemma brute_count_sum D S :
  brute_count D S = sum_list_with (fun t => if contains_all t S then 1 else 0) D.
Proof.
  unfold brute_count. induction D as [|t D IH]; simpl; [reflexivity|].
  destruct (contains_all t S); simpl; rewrite IH; reflexivity.
Qed.

Lemma brute_mono D P x : brute_count D (P ++ [x]) <= brute_count D P.
Proof.
  rewrite !brute_count_sum. induction D as [|t D IH]; simpl; [lia|].
  rewrite contains_all_app. destruct (contains_all t P), (contains_all t [x]); simpl; lia.
Qed.

Lemma brute_nil D : brute_count D [] = length D.
Proof. unfold brute_count. induction D as [|t D IH]; simpl; [reflexivity|]. f_equal. exact IH. Qed.

Lemma occ_nodup l y : NoDup l -> occ l y = if bool_decide (y ∈ l) then 1 else 0.
Proof.
  intros Hnd. apply NoDup_ListNoDup in Hnd. unfold occ. case_bool_decide as H; rewrite list_elem_of_In in H.
  - exact (proj1 (NoDup_count_occ' String.string_dec l) Hnd y H).
  - apply (count_occ_not_In String.string_dec), H.
Qed.

Lemma ipath_items ns i y :
  In y (ipath ns i) -> exists j nd, ns !! j = Some nd /\ item nd = Some y.
Proof.
  unfold ipath. generalize (S i) as f. intros f. revert i.
  induction f as [|f IH]; intros i H; simpl in H; [contradiction|].
  destruct (ns !! i) as [nd|] eqn:E; [|contradiction].
  destruct (parent nd) as [p|]; [|contradiction].
  apply in_app_or in H as [H|H]; [eapply IH; eauto|].
  destruct (item nd) as [z|] eqn:Ez; simpl in H; [|contradiction].
  destruct H as [<-|[]]. eauto.
Qed.

Lemma sum_filter (p : nat -> bool) (f : nat -> nat) l :
  sum_list_with f (List.filter p l) = sum_list_with (fun j => if p j then f j else 0) l.
Proof. induction l as [|a l IH]; simpl; [reflexivity|]. destruct (p a); simpl; lia. Qed.

Lemma sum_in_ext {A} (f g : A -> nat) l :
  (forall a, In a l -> f a = g a) -> sum_list_with f l = sum_list_with g l.
Proof.
  induction l as [|a l IH]; intros H; simpl; [reflexivity|].
  rewrite (H a (or_introl eq_refl)), IH; [reflexivity|]. intros; apply H; right; auto.
Qed.

Lemma count_items_default (l : list string) c (M : gmap string nat) y :
  default 0 (fold_left (fun cts z => count_item z c cts) l M !! y) = default 0 (M !! y) + c * occ l y.
Proof.
  revert M. induction l as [|z l IH]; intros M; simpl; [lia|].
  rewrite IH. unfold count_item, occ. simpl. destruct (String.string_dec z y) as [->|Hne].
  - rewrite lookup_insert_eq. simpl. rewrite Nat.mul_succ_r. lia.
  - rewrite lookup_insert_ne by exact Hne. reflexivity.
Qed.

Lemma count_items_some (l : list string) c (M : gmap string nat) y :
  (is_Some (M !! y) \/ In y l) -> is_Some (fold_left (fun cts z => count_item z c cts) l M !! y).
Proof.
  revert M. induction l as [|z l IH]; intros M H; simpl.
  - destruct H as [H|[]]. exact H.
  - apply IH. unfold count_item. destruct (String.string_dec z y) as [->|Hne].
    + left. rewrite lookup_insert_eq. eexists; reflexivity.
    + rewrite lookup_insert_ne by exact Hne. destruct H as [H|[->|H]]; auto. contradiction.
Qed.

Lemma cond_counts_default ns x y :
  default 0 (cond_counts ns x !! y) =
  sum_list_with (fun n => nsup ns n * occ (rev (anc ns n)) y) (nodes_with ns x).
Proof.
  unfold cond_counts.
  assert (G : forall l M, default 0 (fold_left (add_counts ns) l M !! y) =
                default 0 (M !! y) + sum_list_with (fun n => nsup ns n * occ (rev (anc ns n)) y) l).
  { induction l as [|n l IH]; intros M; simpl; [lia|].
    rewrite IH. unfold add_counts. rewrite count_items_default. lia. }
  rewrite G, lookup_empty. reflexivity.
Qed.


Lemma cond_counts_some ns x y n :
  In n (nodes_with ns x) -> In y (anc ns n) -> is_Some (cond_counts ns x !! y).
Proof.
  unfold cond_counts, add_counts.
  assert (G : forall l M, (is_Some (M !! y) \/ exists n, In n l /\ In y (anc ns n)) ->
                is_Some (fold_left (add_counts ns) l M !! y)).
  { induction l as [|n' l IH]; intros M H; simpl.
    - destruct H as [H|(? & [] & _)]. exact H.
    - apply IH. destruct H as [H|(n0 & [<-|Hin] & Hy)].
      + left. apply count_items_some. left. exact H.
      + left. apply count_items_some. right. apply in_rev. rewrite rev_involutive. exact Hy.
      + right. eauto. }
  intros Hn Hy. apply G. right. eauto.
Qed.

End Counting.

Section Soundness.

Variable localeCompare : string -> string -> Z.
Hypothesis Hlc : strict_total localeCompare.

(** The order [prepare] sorts by: [a] before [b]. *)
Definition before (sups : gmap string nat) (a b : string) : Prop :=
  (item_cmp localeCompare sups a b < 0)%Z.

Lemma item_cmp_lt sups a b :
  (item_cmp localeCompare sups a b < 0)%Z <->
  (sup_of sups b < sup_of sups a)%Z \/
  (sup_of sups a = sup_of sups b /\ (localeCompare b a < 0)%Z).
Proof.
  unfold item_cmp. destruct (Z.eqb_spec (sup_of sups b - sup_of sups a) 0) as [E|E].
  - split; [intros H; right; split; [lia|exact H]|intros [H|[_ H]]; [lia|exact H]].
  - split; [intros H; left; lia|intros [H|[H _]]; lia].
Qed.

Lemma item_cmp_strict sups : strict_total (item_cmp localeCompare sups).
Proof.
  destruct Hlc as (Ht & Ha & Hto). split; [|split].
  - intros a b c H1 H2. rewrite item_cmp_lt in *.
    destruct H1 as [H1|[E1 H1]], H2 as [H2|[E2 H2]]; [left; lia|left; lia|left; lia|].
    right. split; [lia|]. exact (Ht _ _ _ H2 H1).
  - intros a b H1 H2. rewrite item_cmp_lt in *.
    destruct H1 as [H1|[E1 H1]], H2 as [H2|[E2 H2]]; try lia. exact (Ha _ _ H1 H2).
  - intros a b Hne. rewrite !item_cmp_lt.
    destruct (Z.lt_trichotomy (sup_of sups a) (sup_of sups b)) as [H|[H|H]].
    + right. left. exact H.
    + destruct (Hto b a (not_eq_sym Hne)) as [H'|H'].
      * left. right. split; [exact H|exact H'].
      * right. right. split; [lia|exact H'].
    + left. left. exact H.
Qed.

Lemma before_asym sups a b : before sups a b -> ~ before sups b a.
Proof. apply (item_cmp_strict sups). Qed.

Lemma before_irrefl sups a : ~ before sups a a.
Proof. intros H. exact (before_asym sups a a H H). Qed.

Lemma prepare_sorted sups m l :
  NoDup l -> StronglySorted (before sups) (prepare localeCompare (newFPTree sups m) l).
Proof.
  intros Hnd. destruct (item_cmp_strict sups) as (Ht & _ & Hto).
  unfold prepare. apply js_sort_strict_sorted.
  - exact Ht.
  - intros a b _ _. apply Hto.
  - apply NoDup_ListNoDup, List.NoDup_filter, NoDup_ListNoDup, Hnd.
Qed.

Lemma contains_all_prepare t l S :
  (forall y, In y S -> frequent t y = true) ->
  contains_all (prepare localeCompare t l) S = contains_all l S.
Proof.
  intros Hf. apply contains_all_ext. intros y Hy. rewrite prepare_members.
  split; [intros [H _]; exact H|intros H; split; [exact H|apply Hf, Hy]].
Qed.

(** The nodes carrying [x] in a tree built from sorted paths: their
    ancestors' items are distinct, all precede [x], and all occur in the tree. *)
Lemma xnode_facts sups m B x n :
  (forall q w, In (q, w) B -> StronglySorted (before sups) q) ->
  In n (nodes_with (nodes (insert_all (newFPTree sups m) B)) x) ->
  let ns := nodes (insert_all (newFPTree sups m) B) in
  NoDup (anc ns n) /\ (forall s, In s (anc ns n) -> before sups s x) /\
  (forall s, In s (anc ns n) -> exists j nd, ns !! j = Some nd /\ item nd = Some s).
Proof.
  intros Hsort Hn ns. apply in_nodes_with in Hn as (nd & Hn & Hx).
  destruct (grown_built sups m B) as ((Hwf & _) & Hpre & _).
  assert (Hnr : n <> root).
  { intros ->. destruct (wf_root _ Hwf) as (r & Hr & Hi & _). unfold ns in Hn. congruence. }
  destruct (wf_node _ Hwf _ _ Hn Hnr) as (y' & p & pn & _ & Hp & _).
  destruct (anc_ipath _ _ _ _ (wf_parents_older _ Hwf) Hn Hp) as [Ha Hip].
  rewrite Hx in Hip. cbn [option_list] in Hip.
  destruct (Hpre n nd Hn Hnr) as (q & w & HqB & [k Hk]).
  pose proof (Hsort q w HqB) as Hs. rewrite Hk, Hip, <- app_assoc in Hs.
  apply ss_app_inv in Hs as (Hs1 & _ & Hs3).
  split; [exact (ss_nodup _ _ (before_irrefl sups) Hs1)|]. split.
  - intros s Hs. apply Hs3; [exact Hs|left; reflexivity].
  - intros s Hs. unfold ns in *. rewrite Ha in Hs. eapply ipath_items; eauto.
Qed.

Lemma occurs_cond sups m B x y :
  let ns := nodes (insert_all (newFPTree sups m) B) in
  let t' := newFPTree (cond_counts ns x) m in
  occurs (finish_build (insert_all t'
            (map (fun pp => (prepare localeCompare t' (path pp), pp_support pp)) (cond_paths ns x)))) y ->
  exists n, In n (nodes_with ns x) /\ In y (anc ns n) /\ frequent t' y = true.
Proof.
  intros ns t' Hy. destruct (occurs_in_inserted _ _ _ _ Hy) as (q & w & Hq & Hyq & _).
  apply in_map_iff in Hq as (pp & Hpp & Hin). injection Hpp as <- _.
  apply prepare_members in Hyq as [Hyq Hf].
  unfold cond_paths in Hin. apply in_flat_map in Hin as (n & Hn & Hin).
  exists n. split; [exact Hn|]. split; [|exact Hf].
  destruct (anc ns n) as [|s l] eqn:E; [contradiction|].
  destruct Hin as [<-|[]]. cbn [path] in Hyq. apply in_rev in Hyq. exact Hyq.
Qed.

Lemma wcount_cond_paths t ns x S :
  S <> [] -> (forall y, In y S -> frequent t y = true) ->
  wcount (map (fun pp => (prepare localeCompare t (path pp), pp_support pp)) (cond_paths ns x)) S =
  sum_list_with (fun n => if contains_all (anc ns n) S then nsup ns n else 0) (nodes_with ns x).
Proof.
  intros HS Hf. unfold wcount, cond_paths. induction (nodes_with ns x) as [|n l IH]; [reflexivity|].
  cbn [flat_map sum_list_with]. rewrite map_app, sum_list_with_app, IH. f_equal.
  destruct (anc ns n) as [|s l'] eqn:E; cbn [map sum_list_with path pp_support].
  - rewrite contains_all_nil_l by exact HS. reflexivity.
  - rewrite contains_all_prepare by exact Hf.
    rewrite (contains_all_ext (rev (s :: l')) (s :: l') S) by (intros y _; rewrite <- in_rev; reflexivity).
    destruct (contains_all (s :: l') S); lia.
Qed.

Lemma cond_weight_nodes_with ns x S :
  cond_weight ns x S =
  sum_list_with (fun n => if contains_all (anc ns n) S then nsup ns n else 0) (nodes_with ns x).
Proof.
  unfold cond_weight, nodes_with. rewrite sum_filter.
  apply sum_in_ext. intros j _. unfold path_weight, has_item, nsup.
  destruct (ns !! j) as [nd|]; [|reflexivity].
  destruct (bool_decide (item nd = Some x)), (contains_all (anc ns j) S); reflexivity.
Qed.

(** What the miner knows about a tree it mines: it was built from paths
    sorted by the tree's own order whose weights count, for every set [S] of
    its items, the input transactions holding [P ++ S]; its supports are
    those weights; and [ps] counts the transactions holding [P]. *)
Definition mine_inv (D : list (list string)) (T : FPTree) (P : list string) (ps : nat) : Prop :=
  exists sups m B, T = finish_build (insert_all (newFPTree sups m) B) /\
    (forall q w, In (q, w) B -> StronglySorted (before sups) q) /\
    (forall S, S <> [] -> (forall y, In y S -> occurs T y) -> wcount B S = brute_count D (P ++ S)) /\
    (forall y, occurs T y -> sups !! y = Some (wcount B [y])) /\
    ps = brute_count D P.

Lemma mine_support D T P ps x :
  mine_inv D T P ps -> In x (_headers T) ->
  Nat.min (default 0 (supports T !! x)) ps = brute_count D (P ++ [x]).
Proof.
  intros (sups & m & B & -> & _ & Hw & Hsup & ->) Hx. apply headers_members in Hx.
  rewrite (proj1 (supports_built _ _ _)), (Hsup x Hx). cbn [default].
  rewrite (Hw [x]) by (discriminate || (intros y [<-|[]]; exact Hx)).
  pose proof (brute_mono D P x). unfold id. lia.
Qed.

Lemma cond_inv D T P ps x T' :
  mine_inv D T P ps -> In x (_headers T) ->
  getConditionalFPTree localeCompare T x = Ok (Some T') ->
  mine_inv D T' (P ++ [x]) (brute_count D (P ++ [x])).
Proof.
  intros (sups & m & B & -> & Hs & Hw & Hsup & ->) Hx Hc. apply headers_members in Hx.
  rewrite (getConditionalFPTree_built localeCompare sups m B x Hx) in Hc.
  match type of Hc with Ok (if root_has_children ?r then _ else _) = _ =>
    destruct (root_has_children r); [injection Hc as <-|discriminate] end.
  change (nodes (finish_build (insert_all (newFPTree sups m) B)))
    with (nodes (insert_all (newFPTree sups m) B)).
  pose proof (occurs_cond sups m B x) as Hoc. cbv zeta in Hoc.
  set (ns := nodes (insert_all (newFPTree sups m) B)) in *.
  set (t' := newFPTree (cond_counts ns x) m) in *.
  (* the weights of the conditional paths *)
  assert (Hwc : forall S, S <> [] -> (forall y, In y S -> occurs (finish_build (insert_all t'
              (map (fun pp => (prepare localeCompare t' (path pp), pp_support pp)) (cond_paths ns x)))) y) ->
            wcount (map (fun pp => (prepare localeCompare t' (path pp), pp_support pp)) (cond_paths ns x)) S =
            wcount B (x :: S)).
  { intros S HS Hocc.
    rewrite wcount_cond_paths; [|exact HS|intros y Hy; destruct (Hoc y (Hocc y Hy)) as (_ & _ & _ & Hf); exact Hf].
    rewrite <- cond_weight_nodes_with.
    destruct (grown_built sups m B) as (_ & _ & _ & Hcw). unfold ns. rewrite Hcw.
    apply (weighted_hits (before sups)); [apply before_asym| |exact Hs].
    intros s Hs'. destruct (Hoc s (Hocc s Hs')) as (n & Hn & Hsn & _).
    exact (proj1 (proj2 (xnode_facts sups m B x n Hs Hn)) s Hsn). }
  exists (cond_counts ns x), m. eexists. split; [reflexivity|]. split; [|split; [|split]].
  - intros q w Hq. apply in_map_iff in Hq as (pp & Hpp & Hin). injection Hpp as <- _.
    unfold cond_paths in Hin. apply in_flat_map in Hin as (n & Hn & Hin).
    destruct (anc ns n) as [|s l] eqn:E; [contradiction|].
    destruct Hin as [<-|[]]. apply prepare_sorted. cbn [path].
    apply NoDup_ListNoDup, List.NoDup_rev, NoDup_ListNoDup. rewrite <- E. exact (proj1 (xnode_facts sups m B x n Hs Hn)).
  - intros S HS Hocc. rewrite (Hwc S HS Hocc).
    rewrite (Hw (x :: S)); [rewrite <- app_assoc; reflexivity|discriminate|].
    intros y [<-|Hy]; [exact Hx|].
    destruct (Hoc y (Hocc y Hy)) as (n & Hn & Hyn & _).
    destruct (proj2 (proj2 (xnode_facts sups m B x n Hs Hn)) y Hyn) as (j & nd & Hj & Hi).
    exact (ex_intro _ j (ex_intro _ nd (conj Hj Hi))).
  - intros y Hy. destruct (Hoc y Hy) as (n & Hn & Hyn & Hf).
    destruct (cond_counts_some ns x y n Hn Hyn) as [v Hv]. rewrite Hv. f_equal.
    change v with (default 0 (Some v)). rewrite <- Hv, cond_counts_default.
    rewrite wcount_cond_paths; [|discriminate|intros z [<-|[]]; exact Hf].
    apply sum_in_ext. intros n' Hn'.
    rewrite (occ_perm (rev (anc ns n')) (anc ns n')) by (symmetry; apply Permutation_rev).
    rewrite occ_nodup by exact (proj1 (xnode_facts sups m B x n' Hs Hn')).
    rewrite contains_all_cons. cbn [contains_all forallb]. rewrite andb_true_r.
    destruct (bool_decide _); lia.
  - reflexivity.
Qed.

Lemma mine_sound D fuel : forall T ps P,
  mine_inv D T P ps -> forall l, _fpGrowth localeCompare fuel T ps P = Ok l ->
  forall is, In is l -> is_support is = brute_count D (items is).
Proof.
  induction fuel as [|f IH]; intros T ps P Hinv l Hl.
  - simpl in Hl. injection Hl as <-. intros is [].
  - simpl in Hl. revert l Hl.
    apply (fold_ok_inv (fun l => forall is, In is l -> is_support is = brute_count D (items is))).
    + reflexivity.
    + intros x l l' Hx Hgood Hstep.
      pose proof (mine_support D T P ps x Hinv Hx) as Hs.
      apply fpGrowth_step_cases in Hstep as [->|(ct & sub & Hc & Hsub & ->)];
        intros is His; apply in_app_or in His as [His|His]; auto.
      * destruct His as [<-|[]]. exact Hs.
      * apply in_app_or in His as [His|[<-|[]]]; [auto|exact Hs].
      * rewrite Hs in Hsub. eapply IH; [|exact Hsub|exact His].
        exact (cond_inv D T P ps x ct Hinv Hx Hc).
    + intros l Hl. injection Hl as <-. intros is [].
Qed.

Lemma wcount_transactions t D S :
  (forall y, In y S -> frequent t y = true) ->
  wcount (map (fun tr => (prepare localeCompare t tr, 1)) D) S = brute_count D S.
Proof.
  intros HS. unfold wcount. rewrite brute_count_sum.
  induction D as [|tr D IH]; [reflexivity|]. cbn [map sum_list_with].
  rewrite contains_all_prepare by exact HS. rewrite IH. reflexivity.
Qed.

(** The tree [exec] builds from duplicate-free transactions satisfies the
    miner's invariant, with the empty prefix. *)
Lemma exec_mine_inv D thr :
  (forall tr, In tr D -> NoDup tr) ->
  mine_inv D (finish_build (insert_all (newFPTree (_getDistinctItemsCount D) thr)
                (map (fun tr => (prepare localeCompare (newFPTree (_getDistinctItemsCount D) thr) tr, 1)) D)))
           [] (length D).
Proof.
  intros Hnd. set (t := newFPTree (_getDistinctItemsCount D) thr).
  set (B := map (fun tr => (prepare localeCompare t tr, 1)) D).
  assert (Hf : forall y, occurs (finish_build (insert_all t B)) y ->
                 frequent t y = true /\ exists tr, In tr D /\ In y tr).
  { intros y Hy. destruct (occurs_in_inserted _ _ _ _ Hy) as (q & w & Hq & Hyq & _).
    unfold B in Hq. apply in_map_iff in Hq as (tr & Htr & Hin). injection Htr as <- _.
    apply prepare_members in Hyq as [Hy1 Hy2]. split; [exact Hy2|eauto]. }
  exists (_getDistinctItemsCount D), thr, B. split; [reflexivity|]. split; [|split; [|split]].
  - intros q w Hq. unfold B in Hq. apply in_map_iff in Hq as (tr & Htr & Hin).
    injection Htr as <- _. apply prepare_sorted, Hnd, Hin.
  - intros S _ Hocc. cbn [app]. apply wcount_transactions.
    intros y Hy. apply (Hf y (Hocc y Hy)).
  - intros y Hy. destruct (Hf y Hy) as [Hfy (tr & Htr & Hytr)].
    destruct (distinct_count_some D y tr Htr Hytr) as [v Hv]. rewrite Hv. f_equal.
    change v with (default 0 (Some v)). rewrite <- Hv, distinct_count_default.
    unfold B. rewrite wcount_transactions by (intros z [<-|[]]; exact Hfy).
    rewrite brute_count_sum. apply sum_in_ext. intros tr' Htr'.
    rewrite occ_nodup by (apply Hnd, Htr'). rewrite contains_all_cons.
    cbn [contains_all forallb]. rewrite andb_true_r. reflexivity.
  - symmetry. apply brute_nil.
Qed.

End Soundness.

(** * The single-path shortcut of src/unnamed/part_001 *)

Section ShortCut.

(** The non-empty subsequences of a list, each once: the subsets of the
    path's nodes, every one in path order. *)
Fixpoint subsets_ne {A} (l : list A) : list (list A) :=
  match l with
  | [] => []
  | a :: l' => [a] :: map (cons a) (subsets_ne l') ++ subsets_ne l'
  end.

(** The itemset a subset of path nodes stands for: the prefix followed by the
    nodes' items, with the least of the nodes' supports and [prefixSupport]. *)
Definition subset_itemset (ns : list FPNode) (prefixSupport : nat)
    (prefix : list string) (s : list nat) : Itemset :=
  mkItemset (prefix ++ concat (map (Part001.node_item ns) s))
            (fold_right Nat.min prefixSupport (map (Part001.node_support ns) s)).

Lemma subsets_ne_snoc {A} (l : list A) (a : A) :
  Permutation (subsets_ne (l ++ [a]))
              (subsets_ne l ++ map (fun s => s ++ [a]) (subsets_ne l) ++ [[a]]).
Proof.
  induction l as [|b l IH]; [reflexivity|].
  cbn [app subsets_ne].
  rewrite (Permutation_app (Permutation_map (cons b) IH) IH).
  cbn [map app]. constructor. rewrite !map_app.
  rewrite <- !app_assoc. apply Permutation_app_head.
  replace (map (fun s => s ++ [a]) (map (cons b) (subsets_ne l)))
    with (map (fun x => b :: x ++ [a]) (subsets_ne l))
    by (rewrite map_map; reflexivity).
  set (S := subsets_ne l). set (D := map (fun x => b :: x ++ [a]) S).
  set (E := map (fun s => s ++ [a]) S).
  replace (map (cons b) E) with D by (unfold D, E; rewrite map_map; reflexivity).
  cbn [map app]. set (R := E ++ [[a]]).
  rewrite <- (Permutation_middle D (S ++ R) [b; a]).
  rewrite <- (Permutation_middle S (D ++ R) [b; a]). constructor. rewrite !app_assoc. apply Permutation_app_tail.
  apply Permutation_app_comm.
Qed.

Lemma fold_min_snoc ps (l : list nat) x :
  fold_right Nat.min ps (l ++ [x]) = Nat.min (fold_right Nat.min ps l) x.
Proof. induction l as [|y l IH]; simpl; [lia|]. rewrite IH. lia. Qed.

Lemma handleSinglePath_snoc ns sp n ps prefix :
  Part001._handleSinglePath ns (sp ++ [n]) ps prefix =
  let G := Part001._handleSinglePath ns sp ps prefix in
  G ++ map (fun is => _getFrequentItemset (items is ++ Part001.node_item ns n)
                        (Nat.min (is_support is) (Part001.node_support ns n))) G
    ++ [_getFrequentItemset (prefix ++ Part001.node_item ns n)
                            (Nat.min (Part001.node_support ns n) ps)].
Proof. unfold Part001._handleSinglePath. rewrite fold_left_app. reflexivity. Qed.

Lemma handleSinglePath_subsets ns sp ps prefix :
  Permutation (Part001._handleSinglePath ns sp ps prefix)
              (map (subset_itemset ns ps prefix) (subsets_ne sp)).
Proof.
  induction sp as [|n sp IH] using rev_ind; [reflexivity|].
  rewrite handleSinglePath_snoc. cbv zeta.
  rewrite (Permutation_map _ (subsets_ne_snoc sp n)), !map_app, map_map.
  apply Permutation_app; [exact IH|]. apply Permutation_app.
  - rewrite (Permutation_map _ IH), map_map. apply Permutation_refl'. apply map_ext.
    intros s. unfold subset_itemset, _getFrequentItemset. cbn [items is_support].
    rewrite !map_app. cbn [map]. rewrite concat_app, fold_min_snoc. cbn [concat].
    rewrite app_nil_r, app_assoc.
    reflexivity.
  - unfold subset_itemset, _getFrequentItemset. cbn [map concat fold_right]. rewrite app_nil_r.
    reflexivity.
Qed.

End ShortCut.

(** The single-path input of the concrete runs: [["a";"b"];["a"]] at a
    relative support of 1/2. *)
Definition single_path_transactions : list (list string) := [["a"; "b"]; ["a"]].

Definition single_path_tree : FPTree :=
  match fromTransactions code_point_compare
          (newFPTree (_getDistinctItemsCount single_path_transactions) 1)
          single_path_transactions with
  | Ok t => t
  | Throw _ => newFPTree ∅ 1
  end.

(** * Further lemmas: counts, prefix paths, mining shape, node supports *)

Section MoreCounts.

Lemma count_arr_pos (arr : list string) (M : gmap string nat) :
  (forall k v, M !! k = Some v -> 0 < v) ->
  forall k v, fold_left (fun count x => <[x := default 0 (count !! x) + 1]> count) arr M !! k = Some v ->
  0 < v.
Proof.
  revert M. induction arr as [|y arr IH]; intros M HM; simpl; [exact HM|].
  apply IH. intros k v Hk. rewrite count_step_lookup in Hk.
  destruct (String.eqb y k); [injection Hk as <-; lia|eauto].
Qed.

Lemma distinct_count_pos ts x n : _getDistinctItemsCount ts !! x = Some n -> 0 < n.
Proof.
  unfold _getDistinctItemsCount.
  assert (G : forall M : gmap string nat, (forall k v, M !! k = Some v -> 0 < v) ->
            forall k v, fold_left (fun count arr =>
               fold_left (fun count x => <[x := default 0 (count !! x) + 1]> count) arr count)
               ts M !! k = Some v -> 0 < v).
  { induction ts as [|tr ts IH]; intros M HM; simpl; [exact HM|]. apply IH. apply count_arr_pos, HM. }
  apply G. intros k v H. rewrite lookup_empty in H. discriminate.
Qed.

Lemma sum_pos_exists {A} (f : A -> nat) l : 0 < sum_list_with f l -> exists a, In a l /\ 0 < f a.
Proof.
  induction l as [|a l IH]; simpl; intros H; [lia|].
  destruct (f a) eqn:E; [destruct (IH ltac:(lia)) as (b & Hb & Hf); eauto|].
  exists a. split; [left; reflexivity|lia].
Qed.

Lemma occ_In l x : 0 < occ l x <-> In x l.
Proof. unfold occ. split; [apply count_occ_In|apply count_occ_In]. Qed.

End MoreCounts.

Section PrefixPaths.

Lemma built_wf_links sups m L :
  let t := finish_build (insert_all (newFPTree sups m) L) in
  wf (nodes t) /\ links (nodes t) (_firstInserted t) (_lastInserted t) /\ _isInit t = true.
Proof. destruct (built_ok sups m L) as [Hwf Hl]. simpl. auto. Qed.

Definition pp_of (ns : list FPNode) (n : nat) : list IPrefixPath :=
  match anc ns n with
  | [] => []
  | _ :: _ => [mkPrefixPath (rev (anc ns n)) (nsup ns n)]
  end.

Lemma pp_fold_fst ns cb l acc cts :
  wf ns -> (forall n, In n l -> n < length ns) ->
  fst (fold_left (pp_step ns cb) l (acc, cts)) = acc ++ flat_map (pp_of ns) l.
Proof.
  intros Hwf. revert acc cts. induction l as [|n l IH]; intros acc cts Hl; cbn [fold_left flat_map].
  - rewrite app_nil_r. reflexivity.
  - assert (Hn : n < length ns) by (apply Hl; left; reflexivity).
    unfold pp_step at 2. rewrite getPrefixPath_anc by (auto; unfold nsup; lia).
    rewrite IH by (intros k Hk; apply Hl; right; exact Hk).
    rewrite app_assoc. f_equal. unfold pp_of.
    destruct (anc ns n) as [|a l'] eqn:E; simpl; [rewrite app_nil_r; reflexivity|].
    destruct (rev l' ++ [a]) eqn:E2; [apply app_eq_nil in E2 as [_ E2]; discriminate|reflexivity].
Qed.

Lemma anc_nil_iff ns i nd :
  wf ns -> ns !! i = Some nd ->
  anc ns i = [] <-> parent nd = None \/ parent nd = Some root.
Proof.
  intros Hwf Hi. assert (Ho := wf_parents_older _ Hwf). unfold anc. rewrite Hi.
  destruct (parent nd) as [p|] eqn:Hp; [|tauto].
  split.
  - intros H. right. f_equal. destruct (decide (p = root)) as [|Hne]; [assumption|exfalso].
    destruct (wf_node _ Hwf i nd Hi) as (x & p' & pn & _ & Hp' & Hlt & Hpn & _).
    { intros ->. destruct (wf_root _ Hwf) as (r & Hr & _ & Hr'). congruence. }
    rewrite Hp in Hp'. injection Hp' as <-.
    destruct (wf_node _ Hwf p pn Hpn Hne) as (y & g & gn & Hy & Hg & _).
    rewrite (ipath_parent _ _ _ _ Ho Hpn Hg), Hy in H. simpl in H.
    apply app_eq_nil in H as [_ H]. discriminate.
  - intros [H|H]; [discriminate|]. injection H as ->. apply ipath_root_nil, Hwf.
Qed.

End PrefixPaths.

(** getPrefixPath *)
Section NeverRejects.

Variable localeCompare : string -> string -> Z.

Definition built_tree (T : FPTree) : Prop :=
  exists sups m B, T = finish_build (insert_all (newFPTree sups m) B).

Lemma cond_built T x ct :
  built_tree T -> In x (_headers T) ->
  getConditionalFPTree localeCompare T x = Ok (Some ct) -> built_tree ct.
Proof.
  intros (sups & m & B & ->) Hx Hc. apply headers_members in Hx.
  rewrite (getConditionalFPTree_built localeCompare sups m B x Hx) in Hc.
  match type of Hc with Ok (if root_has_children ?r then _ else _) = _ =>
    destruct (root_has_children r); [injection Hc as <-|discriminate] end.
  eexists; eexists; eexists; reflexivity.
Qed.

Lemma cond_ok T x :
  built_tree T -> In x (_headers T) ->
  exists r, getConditionalFPTree localeCompare T x = Ok r.
Proof.
  intros (sups & m & B & ->) Hx. apply headers_members in Hx.
  rewrite (getConditionalFPTree_built localeCompare sups m B x Hx). eauto.
Qed.

Lemma fold_ok {A} (F : result (list Itemset) -> A -> result (list Itemset)) (hs : list A) l0 :
  (forall x l, In x hs -> exists l', F (Ok l) x = Ok l') ->
  exists l, fold_left F hs (Ok l0) = Ok l.
Proof.
  revert l0. induction hs as [|x hs IH]; intros l0 H; simpl; [eauto|].
  destruct (H x l0 (or_introl eq_refl)) as [l' ->]. apply IH.
  intros; apply H; right; auto.
Qed.

Lemma fpGrowth_ok fuel : forall T ps P,
  built_tree T -> exists l, _fpGrowth localeCompare fuel T ps P = Ok l.
Proof.
  induction fuel as [|f IH]; intros T ps P HT; simpl; [eauto|].
  apply fold_ok. intros x l Hx. cbn [rbind].
  destruct (cond_ok T x HT Hx) as [[ct|] Hc]; rewrite Hc; cbn [rbind]; [|eauto].
  destruct (IH ct (Nat.min (default 0 (supports T !! x)) ps) (P ++ [x]) (cond_built T x ct HT Hx Hc))
    as [sub ->]. cbn [rbind]. eauto.
Qed.

Lemma fpGrowth001_ok fuel : forall T ps P,
  built_tree T -> exists l, Part001._fpGrowth localeCompare fuel T ps P = Ok l.
Proof.
  induction fuel as [|f IH]; intros T ps P HT; simpl; [eauto|].
  assert (Hs : exists sp, getSinglePath T = Ok sp).
  { destruct HT as (sups & m & B & ->). unfold getSinglePath. simpl. eauto. }
  destruct Hs as [sp ->]. cbn [rbind]. destruct sp as [sp|]; [eauto|].
  apply fold_ok. intros x l Hx. cbn [rbind].
  destruct (cond_ok T x HT Hx) as [[ct|] Hc]; rewrite Hc; cbn [rbind]; [|eauto].
  destruct (IH ct (Nat.min (default 0 (supports T !! x)) ps) (P ++ [x]) (cond_built T x ct HT Hx Hc))
    as [sub ->]. cbn [rbind]. eauto.
Qed.

End NeverRejects.

Section Shape.

Variable localeCompare : string -> string -> Z.

Definition extends (ps : nat) (prefix : list string) (is : Itemset) : Prop :=
  (exists x rest, items is = prefix ++ x :: rest) /\ is_support is <= ps.

Lemma extends_weaken ps ps' prefix x is :
  ps' <= ps -> extends ps' (prefix ++ [x]) is -> extends ps prefix is.
Proof.
  intros Hle ((y & rest & E) & Hs). split; [|lia].
  exists x, (y :: rest). rewrite E, <- app_assoc. reflexivity.
Qed.

Lemma mine_extends fuel : forall T ps P l,
  _fpGrowth localeCompare fuel T ps P = Ok l -> forall is, In is l -> extends ps P is.
Proof.
  induction fuel as [|f IH]; intros T ps P l Hl.
  - simpl in Hl. injection Hl as <-. intros is [].
  - simpl in Hl. revert l Hl.
    apply (fold_ok_inv (fun l => forall is, In is l -> extends ps P is)).
    + reflexivity.
    + intros x l l' _ Hgood Hstep.
      assert (Hx : extends ps P (mkItemset (P ++ [x]) (Nat.min (default 0 (supports T !! x)) ps))).
      { split; [exists x, []; reflexivity|simpl; lia]. }
      apply (fpGrowth_step_cases localeCompare) in Hstep as [->|(ct & sub & _ & Hsub & ->)];
        intros is His; apply in_app_or in His as [His|His]; auto.
      * destruct His as [<-|[]]. exact Hx.
      * apply in_app_or in His as [His|[<-|[]]]; [auto|exact Hx].
      * eapply extends_weaken; [|eapply IH; [exact Hsub|exact His]]. lia.
    + intros l Hl. injection Hl as <-. intros is [].
Qed.

Definition extends_or_eq (ps : nat) (prefix : list string) (is : Itemset) : Prop :=
  (exists rest, items is = prefix ++ rest) /\ is_support is <= ps.

Lemma handleSinglePath_shape ns sp ps prefix is :
  In is (Part001._handleSinglePath ns sp ps prefix) -> extends_or_eq ps prefix is.
Proof.
  intros H. apply (Permutation_in is (handleSinglePath_subsets ns sp ps prefix)) in H.
  apply in_map_iff in H as (s & <- & _). unfold subset_itemset. split; [eexists; reflexivity|].
  cbn [is_support]. clear. induction (map (Part001.node_support ns) s) as [|a l IH]; simpl; lia.
Qed.

Lemma mine001_shape fuel : forall T ps P l,
  Part001._fpGrowth localeCompare fuel T ps P = Ok l -> forall is, In is l -> extends_or_eq ps P is.
Proof.
  induction fuel as [|f IH]; intros T ps P l Hl.
  - simpl in Hl. injection Hl as <-. intros is [].
  - simpl in Hl. destruct (getSinglePath T) as [[sp|]|e]; cbn [rbind] in Hl; [| |discriminate].
    { injection Hl as <-. apply handleSinglePath_shape. }
    revert l Hl.
    apply (fold_ok_inv (fun l => forall is, In is l -> extends_or_eq ps P is)).
    + reflexivity.
    + intros x l l' _ Hgood Hstep.
      assert (Hx : extends_or_eq ps P (mkItemset (P ++ [x]) (Nat.min (default 0 (supports T !! x)) ps))).
      { split; [exists [x]; reflexivity|simpl; lia]. }
      cbn [rbind] in Hstep.
      destruct (getConditionalFPTree localeCompare T x) as [[ct|]|e]; cbn [rbind] in Hstep;
        [|injection Hstep as <-|discriminate].
      * destruct (Part001._fpGrowth localeCompare f ct _ (P ++ [x])) as [sub|e] eqn:E;
          [|discriminate]. injection Hstep as <-.
        intros is His. apply in_app_or in His as [His|His].
        -- apply in_app_or in His as [His|[<-|[]]]; [auto|exact Hx].
        -- destruct (IH _ _ _ _ E is His) as ((rest & Er) & Hs). split; [|lia].
           exists (x :: rest). rewrite Er, <- app_assoc. reflexivity.
      * intros is His. apply in_app_or in His as [His|[<-|[]]]; [auto|exact Hx].
    + intros l Hl. injection Hl as <-. intros is [].
Qed.

End Shape.

Section Frequent.

Variable localeCompare : string -> string -> Z.

Lemma occurs_transactions ts thr x :
  let sups := _getDistinctItemsCount ts in
  let T0 := newFPTree sups thr in
  occurs (finish_build (insert_all T0 (map (fun tr => (prepare localeCompare T0 tr, 1)) ts))) x <->
  (exists tr, In tr ts /\ In x tr) /\ frequent T0 x = true.
Proof.
  intros sups T0. split.
  - intros H. destruct (occurs_in_inserted _ _ _ _ H) as (q & w & Hq & Hx & _).
    apply in_map_iff in Hq as (tr & Htr & Hin). injection Htr as <- _.
    apply prepare_members in Hx as [Hx Hf]. eauto.
  - intros ((tr & Htr & Hx) & Hf).
    set (q := prepare localeCompare T0 tr).
    assert (Hq : In x q) by (apply prepare_members; auto).
    destruct (grown_built sups thr (map (fun tr => (prepare localeCompare T0 tr, 1)) ts))
      as (_ & _ & Htake & _).
    destruct (Htake q 1 ltac:(apply in_map_iff; eauto) (length q) (le_n _)) as (j & _ & Hj).
    rewrite firstn_all in Hj. rewrite <- Hj in Hq.
    destruct (ipath_items _ _ _ Hq) as (k & nd & Hk & Hi). exists k, nd. auto.
Qed.

Lemma frequent_count ts thr x :
  (exists tr, In tr ts /\ In x tr) ->
  frequent (newFPTree (_getDistinctItemsCount ts) thr) x = true <->
  (thr <= Z.of_nat (sum_list_with (fun tr => occ tr x) ts))%Z.
Proof.
  intros (tr & Htr & Hx). destruct (distinct_count_some ts x tr Htr Hx) as [n Hn].
  pose proof (distinct_count_default ts x) as D. rewrite Hn in D. simpl in D.
  unfold frequent. simpl. rewrite Hn, <- D. apply Z.leb_le.
Qed.

Lemma headers_transactions ts thr x :
  let sups := _getDistinctItemsCount ts in
  let T0 := newFPTree sups thr in
  In x (_headers (finish_build (insert_all T0 (map (fun tr => (prepare localeCompare T0 tr, 1)) ts)))) <->
  (exists tr, In tr ts /\ In x tr) /\ (thr <= Z.of_nat (sum_list_with (fun tr => occ tr x) ts))%Z.
Proof.
  intros sups T0. unfold T0, sups. rewrite headers_members, (occurs_transactions ts thr x). split.
  - intros [H1 H2]. split; [exact H1|]. apply (frequent_count ts thr x H1), H2.
  - intros [H1 H2]. split; [exact H1|]. apply (frequent_count ts thr x H1), H2.
Qed.

Lemma fold_grows {A} (F : result (list Itemset) -> A -> result (list Itemset)) (g : A -> Itemset)
    (hs : list A) l0 l :
  (forall e x, F (Throw e) x = Throw e) ->
  (forall x l l', In x hs -> F (Ok l) x = Ok l' -> exists r, l' = l ++ g x :: r) ->
  fold_left F hs (Ok l0) = Ok l ->
  (forall is, In is l0 -> In is l) /\ (forall x, In x hs -> In (g x) l).
Proof.
  intros Hth. revert l0. induction hs as [|x hs IH]; intros l0 Hstep Hl; simpl in Hl.
  - injection Hl as <-. split; [auto|intros x []].
  - destruct (F (Ok l0) x) as [l1|e] eqn:E.
    + destruct (Hstep x l0 l1 (or_introl eq_refl) E) as [r ->].
      destruct (IH (l0 ++ g x :: r)) as [H1 H2]; [intros; eapply Hstep; eauto; right; auto|exact Hl|].
      split.
      * intros is His. apply H1, in_or_app. left. exact His.
      * intros y [<-|Hy]; [apply H1, in_or_app; right; left; reflexivity|auto].
    + exfalso. clear IH Hstep E. induction hs as [|y hs IH]; simpl in Hl; [discriminate|].
      rewrite Hth in Hl. auto.
Qed.

Lemma fpGrowth_heads f T ps P l :
  _fpGrowth localeCompare (S f) T ps P = Ok l ->
  forall x, In x (_headers T) ->
    In (mkItemset (P ++ [x]) (Nat.min (default 0 (supports T !! x)) ps)) l.
Proof.
  intros Hl. simpl in Hl.
  refine (proj2 (fold_grows _ (fun x => mkItemset (P ++ [x]) (Nat.min (default 0 (supports T !! x)) ps))
                  _ [] l _ _ Hl)); [reflexivity|].
  intros x l0 l' _ Hs. apply (fpGrowth_step_cases localeCompare) in Hs as [->|(ct & sub & _ & _ & ->)].
  - exists []. reflexivity.
  - exists sub. rewrite <- app_assoc. reflexivity.
Qed.

End Frequent.

Section CondTree.

Variable localeCompare : string -> string -> Z.

Lemma not_occurs_cond sups m L x :
  let t := finish_build (insert_all (newFPTree sups m) L) in
  ~ occurs t x -> getConditionalFPTree localeCompare t x = Ok None.
Proof.
  intros t Hn. destruct (built_wf_links sups m L) as (_ & Hl & _). fold t in Hl.
  unfold getConditionalFPTree. rewrite (lk_first _ _ _ Hl).
  destruct (nodes_with (nodes t) x) as [|h tl] eqn:E; [reflexivity|exfalso].
  assert (Hh : In h (nodes_with (nodes t) x)) by (rewrite E; left; reflexivity).
  apply in_nodes_with in Hh as (nd & H1 & H2). apply Hn. exists h, nd. auto.
Qed.

Lemma occ_rev l y : occ (rev l) y = occ l y.
Proof. apply occ_perm. symmetry. apply Permutation_rev. Qed.

End CondTree.

Section Upsert.

Lemma child_is_ext (ns ns' : list FPNode) x c :
  item <$> ns !! c = item <$> ns' !! c -> child_is ns x c = child_is ns' x c.
Proof.
  unfold child_is. destruct (ns !! c), (ns' !! c); simpl; intros H; try discriminate; [|reflexivity].
  injection H as ->. reflexivity.
Qed.

Lemma find_in_ext {A} (f g : A -> bool) l :
  (forall a, In a l -> f a = g a) -> List.find f l = List.find g l.
Proof.
  induction l as [|a l IH]; intros H; simpl; [reflexivity|].
  rewrite (H a (or_introl eq_refl)). destruct (g a); [reflexivity|].
  apply IH. intros; apply H; right; auto.
Qed.

Lemma find_app {A} (f : A -> bool) l1 l2 :
  List.find f (l1 ++ l2) = match List.find f l1 with Some a => Some a | None => List.find f l2 end.
Proof. induction l1 as [|a l1 IH]; simpl; [reflexivity|]. destruct (f a); [reflexivity|exact IH]. Qed.

Lemma shape_items (ns ns' : list FPNode) (c : nat) :
  shape <$> ns = shape <$> ns' -> item <$> ns !! c = item <$> ns' !! c.
Proof.
  intros Hs. destruct (ns' !! c) as [nd'|] eqn:E.
  - destruct (shape_lookup _ _ _ _ Hs E) as (nd & -> & Hi & _). simpl. congruence.
  - apply lookup_ge_None in E. apply (f_equal length) in Hs. rewrite !length_fmap in Hs.
    rewrite (proj2 (lookup_ge_None ns c)) by lia. reflexivity.
Qed.

Lemma getChild_shape (ns ns' : list FPNode) this x :
  shape <$> ns = shape <$> ns' -> getChild ns this x = getChild ns' this x.
Proof.
  intros Hs. unfold getChild. destruct (ns' !! this) as [nd'|] eqn:E.
  - destruct (shape_lookup _ _ _ _ Hs E) as (nd & -> & _ & _ & Hc). rewrite Hc.
    apply find_in_ext. intros c _. apply child_is_ext, shape_items, Hs.
  - apply lookup_ge_None in E. apply (f_equal length) in Hs. rewrite !length_fmap in Hs.
    rewrite (proj2 (lookup_ge_None ns this)) by lia. reflexivity.
Qed.

Lemma nsup_isp (ns ns' : list FPNode) j : isp <$> ns !! j = isp <$> ns' !! j -> nsup ns j = nsup ns' j.
Proof.
  unfold nsup. destruct (ns !! j), (ns' !! j); simpl; intros H; try discriminate; [|reflexivity].
  injection H as _ _ ->. reflexivity.
Qed.

End Upsert.

Lemma upsert_sup (t : FPTree) (this : nat) (x : string) (s : nat) :
    let ns := nodes t in
    wf ns -> this < length ns ->
    let '(t', c) := upsertChild (onNewChild x) t this x s in
    let ns' := nodes t' in
    getChild ns' this x = Some c /\
    (forall j, j <> c -> nsup ns' j = nsup ns j) /\
    match getChild ns this x with
    | Some c0 => c = c0 /\ length ns' = length ns /\ nsup ns' c = nsup ns c + s
    | None => c = length ns /\ length ns' = S (length ns) /\ nsup ns' c = s /\
              item <$> ns' !! c = Some (Some x) /\ parent <$> ns' !! c = Some (Some this)
    end.
Proof.
  intros ns Hwf Hlt.
  destruct (lookup_lt_is_Some_2 _ _ Hlt) as [tn Ht].
  unfold upsertChild. fold ns. destruct (getChild ns this x) as [c|] eqn:Hg; cbn [nodes set_nodes].
  - set (f := fun nd => set_support (support nd + s) nd).
    destruct (getChild_Some _ _ _ _ _ Ht Hg) as [_ (cn & Hcn & _)].
    assert (Hsh : shape <$> alter f c ns = shape <$> ns) by (apply shape_alter; reflexivity).
    split; [rewrite (getChild_shape _ ns) by exact Hsh; exact Hg|]. split.
    { intros j Hj. unfold nsup. rewrite list_lookup_alter_ne by congruence. reflexivity. }
    split; [reflexivity|]. split; [apply length_alter|].
    unfold nsup. rewrite list_lookup_alter, Hcn, decide_True by reflexivity. reflexivity.
  - set (ns1 := new_child_heap ns this x s).
    set (t1 := set_nodes (alter (push_child (length ns)) this
                (ns ++ [set_support s (newFPNode (Some x) (Some this))])) t).
    assert (Hns1 : nodes t1 = ns1) by reflexivity.
    assert (Hsh : shape <$> nodes (onNewChild x t1 (length ns)) = shape <$> ns1)
      by (rewrite shape_onNewChild; reflexivity).
    assert (Hisp : forall k, isp <$> nodes (onNewChild x t1 (length ns)) !! k = isp <$> ns1 !! k)
      by (intros k; rewrite isp_onNewChild; reflexivity).
    assert (Lk := new_child_heap_lookup ns this x s).
    assert (Hnew : ns1 !! length ns = Some (set_support s (newFPNode (Some x) (Some this)))).
    { unfold ns1. rewrite Lk by exact Hlt. rewrite decide_False by lia.
      rewrite decide_True by reflexivity. reflexivity. }
    assert (Hlen : length (nodes (onNewChild x t1 (length ns))) = S (length ns)).
    { apply (f_equal length) in Hsh. rewrite !length_fmap in Hsh. rewrite Hsh.
      apply length_new_child_heap. }
    split.
    { rewrite (getChild_shape _ ns1) by exact Hsh. unfold getChild.
      unfold ns1 at 1. rewrite Lk by exact Hlt. rewrite decide_True by reflexivity. rewrite Ht.
      cbn [fmap option_fmap option_map children push_child]. rewrite find_app.
      assert (Hold : List.find (child_is ns1 x) (children tn) = None).
      { unfold getChild in Hg. rewrite Ht in Hg. rewrite <- Hg. apply find_in_ext.
        intros c Hc. apply child_is_ext. unfold ns1. rewrite Lk by exact Hlt.
        assert (Hclt : c < length ns) by (eapply wf_lookup_lt; eauto; apply list_elem_of_In, Hc).
        destruct (decide (c = this)) as [->|]; [rewrite Ht; reflexivity|].
        rewrite decide_False by lia. reflexivity. }
      rewrite Hold. simpl. unfold child_is. rewrite Hnew. simpl. rewrite String.eqb_refl. reflexivity. }
    split.
    { intros j Hj. rewrite (nsup_isp _ ns1) by apply Hisp. apply nsup_isp.
      unfold ns1. rewrite Lk by exact Hlt.
      destruct (decide (j = this)) as [->|]; [rewrite Ht; reflexivity|].
      rewrite decide_False by exact Hj. reflexivity. }
    split; [reflexivity|]. split; [exact Hlen|].
    pose proof (Hisp (length ns)) as Hc. rewrite Hnew in Hc.
    unfold nsup. destruct (nodes (onNewChild x t1 (length ns)) !! length ns) as [nd|]; [|discriminate].
    injection Hc as Hi Hp Hs. simpl. rewrite Hi, Hp, Hs. auto.
Qed.

Section NodeSupports.

Lemma ipath_nonroot ns j nd :
  wf ns -> ns !! j = Some nd -> j <> root ->
  exists p y, parent nd = Some p /\ item nd = Some y /\ ipath ns j = ipath ns p ++ [y].
Proof.
  intros Hwf Hj Hnr. destruct (wf_node _ Hwf j nd Hj Hnr) as (y & p & pn & Hy & Hp & _).
  exists p, y. split; [exact Hp|]. split; [exact Hy|].
  rewrite (ipath_parent _ _ _ _ (wf_parents_older _ Hwf) Hj Hp), Hy. reflexivity.
Qed.

Lemma ipath_nonroot_ne ns j nd : wf ns -> ns !! j = Some nd -> j <> root -> ipath ns j <> [].
Proof.
  intros Hwf Hj Hnr. destruct (ipath_nonroot _ _ _ Hwf Hj Hnr) as (p & y & _ & _ & ->).
  intros H. apply app_eq_nil in H as [_ H]. discriminate.
Qed.

(** Distinct nodes have distinct root paths. *)
Lemma ipath_inj ns i j ni nj :
  wf ns -> ns !! i = Some ni -> ns !! j = Some nj -> ipath ns i = ipath ns j -> i = j.
Proof.
  intros Hwf. revert j ni nj. induction i as [i IH] using (well_founded_induction lt_wf).
  intros j ni nj Hi Hj E.
  destruct (decide (i = root)) as [Hir|Hir]; destruct (decide (j = root)) as [Hjr|Hjr].
  - congruence.
  - exfalso. apply (ipath_nonroot_ne _ _ _ Hwf Hj Hjr). rewrite <- E, Hir. apply ipath_root_nil, Hwf.
  - exfalso. apply (ipath_nonroot_ne _ _ _ Hwf Hi Hir). rewrite E, Hjr. apply ipath_root_nil, Hwf.
  - destruct (wf_node _ Hwf i ni Hi Hir) as (xi & pi & pni & Hxi & Hpi & Hlt & Hpni & Hci).
    destruct (wf_node _ Hwf j nj Hj Hjr) as (xj & pj & pnj & Hxj & Hpj & _ & Hpnj & Hcj).
    rewrite (ipath_parent _ _ _ _ (wf_parents_older _ Hwf) Hi Hpi),
            (ipath_parent _ _ _ _ (wf_parents_older _ Hwf) Hj Hpj), Hxi, Hxj in E.
    apply app_inj_tail in E as [Ep Ex].
    assert (pi = pj) by (eapply IH; eauto). subst pj. rewrite Hpni in Hpnj. injection Hpnj as <-.
    apply (wf_sibling _ Hwf _ _ _ _ _ _ Hpni Hci Hcj Hi Hj). congruence.
Qed.

Lemma prefix_snoc_cases (p r : list string) y :
  p `prefix_of` r ++ [y] -> p `prefix_of` r \/ p = r ++ [y].
Proof.
  intros [k Hk]. destruct k as [|z k] using rev_ind.
  - right. rewrite app_nil_r in Hk. symmetry. exact Hk.
  - left. rewrite app_assoc in Hk. apply app_inj_tail in Hk as [Hk _]. exists k. exact Hk.
Qed.

Lemma not_prefix_snoc (r : list string) y : ~ (r ++ [y]) `prefix_of` r.
Proof. intros H. apply prefix_length in H. rewrite length_app in H. simpl in H. lia. Qed.

(** The support of node [j] while [_addItems t0 q w] runs, after the items [r]. *)
Definition sup_add (t0 : FPTree) (w : nat) (r : list string) (tc : FPTree * nat) : Prop :=
  forall j, j < length (nodes (fst tc)) -> j <> root ->
    nsup (nodes (fst tc)) j =
      (if decide (j < length (nodes t0)) then nsup (nodes t0) j else 0) +
      (if bool_decide (ipath (nodes (fst tc)) j `prefix_of` r) then w else 0).

Lemma sup_add_step t0 w r tc y :
  add_inv t0 w r tc -> sup_add t0 w r tc -> sup_add t0 w (r ++ [y]) (add_step w tc y).
Proof.
  destruct tc as [t cur]. unfold sup_add. cbn [fst add_step].
  intros (Hwf & Hlt & Hp & Hlen & _) Hs.
  destruct (upsertChild_wf y t cur w Hwf Hlt) as (W1 & _).
  destruct (upsert_step y t cur w Hwf Hlt) as (S1 & S2 & S3 & S4 & _).
  pose proof (upsert_sup t cur y w Hwf Hlt) as U.
  destruct (upsertChild (onNewChild y) t cur y w) as [t' c] eqn:E. cbn [fst snd] in *.
  destruct U as (_ & Uo & Uc).
  assert (Hc : c < length (nodes t') /\
               nsup (nodes t') c = (if decide (c < length (nodes t)) then nsup (nodes t) c else 0) + w).
  { destruct (getChild (nodes t) cur y) as [c0|] eqn:Hg.
    - destruct Uc as (-> & Hl & Hn). destruct (lookup_lt_is_Some_2 _ _ Hlt) as [tn Ht].
      destruct (getChild_Some _ _ _ _ _ Ht Hg) as [_ (cn & Hcn & _)].
      apply lookup_lt_Some in Hcn. rewrite decide_True by exact Hcn. split; [lia|exact Hn].
    - destruct Uc as (-> & Hl & Hn & _). rewrite decide_False by lia. split; [lia|]. rewrite Hn. lia. }
  assert (Hold : forall j, j < length (nodes t) -> ipath (nodes t') j = ipath (nodes t) j)
    by (intros j Hj; apply ipath_keep; auto).
  intros j Hj Hnr. destruct (decide (j = c)) as [->|Hjc].
  - destruct Hc as [_ Hc]. rewrite Hc, S4, Hp. rewrite bool_decide_true by reflexivity.
    destruct (decide (c < length (nodes t))) as [Hct|Hct].
    + rewrite (Hs c Hct Hnr), <- (Hold c Hct), S4, Hp.
      rewrite (bool_decide_false (_ `prefix_of` r)) by apply not_prefix_snoc.
      destruct (decide (c < length (nodes t0))); lia.
    + rewrite decide_False by lia. lia.
  - assert (Hjt : j < length (nodes t)).
    { destruct (decide (j < length (nodes t))) as [|Hge]; [assumption|].
      destruct (lookup_lt_is_Some_2 _ _ Hj) as [nd Hnd]. exfalso. apply Hjc. eapply S3; eauto. lia. }
    rewrite Uo by exact Hjc. rewrite (Hs j Hjt Hnr), (Hold j Hjt). f_equal.
    destruct (decide (ipath (nodes t) j `prefix_of` r)) as [Hpr|Hpr].
    + rewrite !bool_decide_true; [reflexivity| |exact Hpr]. apply prefix_app_r, Hpr.
    + rewrite (bool_decide_false _ Hpr). rewrite bool_decide_false; [reflexivity|].
      intros Hpy. apply prefix_snoc_cases in Hpy as [Hpy|Hpy]; [contradiction|].
      apply Hjc. destruct (lookup_lt_is_Some_2 _ _ Hj) as [nd Hnd].
      destruct (lookup_lt_is_Some_2 _ _ (proj1 Hc)) as [cn Hcn].
      apply (ipath_inj _ _ _ _ _ W1 Hnd Hcn). rewrite (Hold j Hjt), Hpy, S4, Hp. reflexivity.
Qed.

Lemma sup_add_fold t0 w rest r tc :
  add_inv t0 w r tc -> sup_add t0 w r tc ->
  sup_add t0 w (r ++ rest) (fold_left (add_step w) rest tc).
Proof.
  revert r tc. induction rest as [|y rest IH]; intros r tc H1 H2; simpl.
  - rewrite app_nil_r. exact H2.
  - replace (r ++ y :: rest) with ((r ++ [y]) ++ rest) by (rewrite <- app_assoc; reflexivity).
    apply IH; [apply add_inv_step, H1|apply sup_add_step; auto].
Qed.

Lemma addItems_sup t q w :
  wf (nodes t) ->
  forall j, j < length (nodes (_addItems t q w)) -> j <> root ->
    nsup (nodes (_addItems t q w)) j =
      (if decide (j < length (nodes t)) then nsup (nodes t) j else 0) +
      (if bool_decide (ipath (nodes (_addItems t q w)) j `prefix_of` q) then w else 0).
Proof.
  intros Hwf. rewrite _addItems_fold.
  assert (H0 : add_inv t w [] (t, root)).
  { simpl. split; [exact Hwf|]. split; [apply wf_root_lt, Hwf|].
    split; [apply ipath_root_nil, Hwf|]. split; [lia|]. split; [reflexivity|].
    split; [intros j nd Hj Hge; apply lookup_lt_Some in Hj; lia|].
    split; [|intros x S; simpl; lia].
    intros k Hk. exists root. split; [apply wf_root_lt, Hwf|].
    rewrite ipath_root_nil by exact Hwf. simpl in Hk. replace k with 0 by lia. reflexivity. }
  assert (S0 : sup_add t w [] (t, root)).
  { intros j Hj Hnr. cbn [fst] in *. rewrite decide_True by exact Hj.
    destruct (lookup_lt_is_Some_2 _ _ Hj) as [nd Hnd].
    rewrite bool_decide_false; [lia|]. intros Hpr. apply prefix_nil_inv in Hpr.
    exact (ipath_nonroot_ne _ _ _ Hwf Hnd Hnr Hpr). }
  exact (sup_add_fold t w q [] (t, root) H0 S0).
Qed.

(** The weight of the inserted paths that start with [p]. *)
Definition through (L : list (list string * nat)) (p : list string) : nat :=
  sum_list_with (fun '(q, w) => if bool_decide (p `prefix_of` q) then w else 0) L.

Definition sup_ok (L : list (list string * nat)) (t : FPTree) : Prop :=
  forall j, j < length (nodes t) -> j <> root -> nsup (nodes t) j = through L (ipath (nodes t) j).

Lemma sup_ok_step L t q w : grown L t -> sup_ok L t -> sup_ok (L ++ [(q, w)]) (_addItems t q w).
Proof.
  intros ((Hwf & _) & _ & Htake & _) Hs.
  destruct (addItems_inv t q w Hwf) as (A1 & A2 & A3 & _).
  intros j Hj Hnr. rewrite (addItems_sup t q w Hwf j Hj Hnr).
  unfold through. rewrite sum_list_with_app. cbn [sum_list_with]. rewrite Nat.add_0_r.
  f_equal.
  destruct (decide (j < length (nodes t))) as [Hjt|Hjt].
  - rewrite (Hs j Hjt Hnr). unfold through. rewrite (ipath_keep (nodes t) (nodes (_addItems t q w)) j); auto.
  - assert (Hz : forall q' w', In (q', w') L -> ~ ipath (nodes (_addItems t q w)) j `prefix_of` q').
    { intros q' w' Hin Hpr.
      destruct (lookup_lt_is_Some_2 _ _ Hj) as [nd Hnd].
      destruct (Htake q' w' Hin (length (ipath (nodes (_addItems t q w)) j)))
        as (j0 & Hj0 & E0); [apply prefix_length, Hpr|].
      assert (Et : take (length (ipath (nodes (_addItems t q w)) j)) q' = ipath (nodes (_addItems t q w)) j)
        by (destruct Hpr as [k ->]; apply take_app_length).
      rewrite Et in E0.
      destruct (lookup_lt_is_Some_2 (nodes (_addItems t q w)) j0 ltac:(lia)) as [nd1 Hnd1].
      assert (j0 = j); [|lia].
      apply (ipath_inj _ _ _ _ _ A1 Hnd1 Hnd). rewrite <- E0. apply ipath_keep; auto. }
    symmetry. unfold through. rewrite (sum_in_ext _ (fun _ => 0)).
    + clear. induction L as [|a L IH]; simpl; lia.
    + intros [q' w'] Hin. rewrite bool_decide_false by exact (Hz q' w' Hin). reflexivity.
Qed.

Lemma sup_ok_built sups m L : sup_ok L (insert_all (newFPTree sups m) L).
Proof.
  induction L as [|[q w] L IH] using rev_ind.
  - intros j Hj Hnr. simpl in Hj. unfold root in Hnr. lia.
  - unfold insert_all. rewrite fold_left_app. cbn [fold_left].
    fold (insert_all (newFPTree sups m) L). apply sup_ok_step; [apply grown_built|exact IH].
Qed.

Lemma built_node_support sups m L j nd :
  nodes (insert_all (newFPTree sups m) L) !! j = Some nd -> j <> root ->
  support nd = through L (ipath (nodes (insert_all (newFPTree sups m) L)) j).
Proof.
  intros Hj Hnr. pose proof (sup_ok_built sups m L j ltac:(eapply lookup_lt_Some; eauto) Hnr) as H.
  unfold nsup in H. rewrite Hj in H. exact H.
Qed.

Lemma through_mono L p p' : p `prefix_of` p' -> through L p' <= through L p.
Proof.
  intros Hp. induction L as [|[q w] L IH]; cbn [through sum_list_with]; [lia|].
  unfold through in IH. cbn [sum_list_with]. unfold through. cbn [sum_list_with].
  destruct (decide (p' `prefix_of` q)) as [H|H].
  - rewrite (bool_decide_true _ H), (bool_decide_true _ (transitivity Hp H)). lia.
  - rewrite (bool_decide_false _ H). lia.
Qed.

End NodeSupports.

Section Distinct.

Variable localeCompare : string -> string -> Z.
Hypothesis Hlc : strict_total localeCompare.

Definition dup_inv (T : FPTree) (P : list string) : Prop :=
  exists sups m B, T = finish_build (insert_all (newFPTree sups m) B) /\
    (forall q w, In (q, w) B -> StronglySorted (before localeCompare sups) q) /\
    NoDup P /\ (forall y, occurs T y -> ~ In y P).

Lemma dup_cond T P x ct :
  dup_inv T P -> In x (_headers T) ->
  getConditionalFPTree localeCompare T x = Ok (Some ct) -> dup_inv ct (P ++ [x]).
Proof.
  intros (sups & m & B & -> & Hs & Hnd & Hout) Hx Hc. apply headers_members in Hx.
  assert (HxP : ~ In x P) by (apply Hout, Hx).
  rewrite (getConditionalFPTree_built localeCompare sups m B x Hx) in Hc.
  match type of Hc with Ok (if root_has_children ?r then _ else _) = _ =>
    destruct (root_has_children r); [injection Hc as <-|discriminate] end.
  change (nodes (finish_build (insert_all (newFPTree sups m) B)))
    with (nodes (insert_all (newFPTree sups m) B)).
  pose proof (occurs_cond localeCompare sups m B x) as Hoc. cbv zeta in Hoc.
  set (ns := nodes (insert_all (newFPTree sups m) B)) in *.
  set (t' := newFPTree (cond_counts ns x) m) in *.
  exists (cond_counts ns x), m. eexists. split; [reflexivity|]. split; [|split].
  - intros q w Hq. apply in_map_iff in Hq as (pp & Hpp & Hin). injection Hpp as <- _.
    unfold cond_paths in Hin. apply in_flat_map in Hin as (n & Hn & Hin).
    destruct (anc ns n) as [|s l] eqn:E; [contradiction|].
    destruct Hin as [<-|[]]. apply (prepare_sorted localeCompare Hlc). cbn [path].
    apply NoDup_ListNoDup, List.NoDup_rev, NoDup_ListNoDup. rewrite <- E.
    exact (proj1 (xnode_facts localeCompare Hlc sups m B x n Hs Hn)).
  - apply NoDup_ListNoDup. apply NoDup_ListNoDup in Hnd.
    apply List.NoDup_app; [exact Hnd|constructor; [intros []|constructor]|].
    intros y Hy [E|[]]. subst y. exact (HxP Hy).
  - intros y Hy. destruct (Hoc y Hy) as (n & Hn & Hyn & _).
    destruct (xnode_facts localeCompare Hlc sups m B x n Hs Hn) as (_ & Hbef & Hocc).
    intros Hin. apply in_app_or in Hin as [Hin|[<-|[]]].
    + destruct (Hocc y Hyn) as (j & nd & Hj & Hi). exact (Hout y (ex_intro _ j (ex_intro _ nd (conj Hj Hi))) Hin).
    + exact (before_irrefl localeCompare Hlc sups x (Hbef x Hyn)).
Qed.

Lemma mine_nodup fuel : forall T ps P,
  dup_inv T P -> forall l, _fpGrowth localeCompare fuel T ps P = Ok l ->
  forall is, In is l -> NoDup (items is).
Proof.
  induction fuel as [|f IH]; intros T ps P Hinv l Hl.
  - simpl in Hl. injection Hl as <-. intros is [].
  - simpl in Hl. revert l Hl.
    apply (fold_ok_inv (fun l => forall is, In is l -> NoDup (items is))).
    + reflexivity.
    + intros x l l' Hx Hgood Hstep.
      assert (Hnd : NoDup (P ++ [x])).
      { destruct Hinv as (sups & m & B & -> & _ & Hnd & Hout).
        pose proof Hx as Hx'. apply headers_members in Hx'.
        apply NoDup_ListNoDup. apply NoDup_ListNoDup in Hnd.
        apply List.NoDup_app; [exact Hnd|constructor; [intros []|constructor]|].
        intros y Hy [E|[]]. subst y. exact (Hout x Hx' Hy). }
      apply (fpGrowth_step_cases localeCompare) in Hstep as [->|(ct & sub & Hc & Hsub & ->)];
        intros is His; apply in_app_or in His as [His|His]; auto.
      * destruct His as [<-|[]]. exact Hnd.
      * apply in_app_or in His as [His|[<-|[]]]; [auto|exact Hnd].
      * eapply IH; [|exact Hsub|exact His]. exact (dup_cond T P x ct Hinv Hx Hc).
    + intros l Hl. injection Hl as <-. intros is [].
Qed.

End Distinct.

Section Once.

Variable localeCompare : string -> string -> Z.

Lemma headers_nodup T : built_tree T -> NoDup (_headers T).
Proof.
  intros (sups & m & B & ->). destruct (built_ok sups m B) as [_ Hl].
  simpl. rewrite (header_list_perm _). apply (lk_keys _ _ _ Hl).
Qed.

Lemma fold_once (P : list string) (F : result (list Itemset) -> string -> result (list Itemset))
    (hs : list string) l0 l :
  (forall e x, F (Throw e) x = Throw e) ->
  (forall x l l', In x hs -> F (Ok l) x = Ok l' ->
     exists nw, l' = l ++ nw /\ NoDup (map items nw) /\
                forall is, In is nw -> exists rest, items is = P ++ x :: rest) ->
  NoDup hs -> NoDup (map items l0) ->
  (forall is, In is l0 -> exists x' rest, items is = P ++ x' :: rest /\ ~ In x' hs) ->
  fold_left F hs (Ok l0) = Ok l -> NoDup (map items l).
Proof.
  intros Hth. revert l0. induction hs as [|x hs IH]; intros l0 Hstep Hnd H0 Hin0 Hl; simpl in Hl.
  - injection Hl as <-. exact H0.
  - destruct (F (Ok l0) x) as [l1|e] eqn:E.
    2:{ exfalso. clear IH Hstep E Hnd Hin0. induction hs as [|y hs IH].
        - simpl in Hl. discriminate.
        - simpl in Hl. rewrite Hth in Hl. exact (IH Hl). }
    destruct (Hstep x l0 l1 (or_introl eq_refl) E) as (nw & -> & Hnw & Hpre).
    apply NoDup_cons in Hnd as [Hx Hnd]. rewrite list_elem_of_In in Hx.
    apply (IH (l0 ++ nw)); [intros; eapply Hstep; eauto; right; auto|exact Hnd| | |exact Hl].
    + rewrite map_app. apply NoDup_app. split; [exact H0|]. split; [|exact Hnw].
      intros p Hp1 Hp2. apply list_elem_of_In in Hp1, Hp2.
      apply in_map_iff in Hp1 as (is1 & <- & H1). apply in_map_iff in Hp2 as (is2 & E2 & H2).
      destruct (Hin0 is1 H1) as (x' & r1 & E1 & Hx'). destruct (Hpre is2 H2) as (r2 & E2').
      rewrite E1, E2' in E2. apply app_inv_head in E2. injection E2 as -> _.
      apply Hx'. left. reflexivity.
    + intros is His. apply in_app_or in His as [His|His].
      * destruct (Hin0 is His) as (x' & r & E1 & Hx'). exists x', r. split; [exact E1|].
        intros H. apply Hx'. right. exact H.
      * destruct (Hpre is His) as (r & E1). exists x, r. split; [exact E1|exact Hx].
Qed.

Lemma mine_once fuel : forall T ps P,
  built_tree T -> forall l, _fpGrowth localeCompare fuel T ps P = Ok l -> NoDup (map items l).
Proof.
  induction fuel as [|f IH]; intros T ps P HT l Hl.
  - simpl in Hl. injection Hl as <-. constructor.
  - simpl in Hl. refine (fold_once P _ _ [] l _ _ (headers_nodup T HT) _ _ Hl).
    + reflexivity.
    + intros x l0 l' Hx Hs.
      apply (fpGrowth_step_cases localeCompare) in Hs as [->|(ct & sub & Hc & Hsub & ->)].
      * eexists. split; [reflexivity|]. split; [apply NoDup_singleton|].
        intros is [<-|[]]. exists []. reflexivity.
      * eexists. split; [rewrite <- app_assoc; reflexivity|]. split.
        -- cbn [map app]. constructor.
           ++ intros Hin. apply list_elem_of_In, in_map_iff in Hin as (is & E & His).
              destruct (mine_extends localeCompare f ct _ _ sub Hsub is His) as ((y & rest & Ei) & _).
              apply (f_equal length) in Ei. cbn [items] in E. rewrite E in Ei. rewrite !length_app in Ei. simpl in Ei. lia.
           ++ exact (IH ct _ _ (cond_built localeCompare T x ct HT Hx Hc) sub Hsub).
        -- intros is [<-|His]; [exists []; reflexivity|].
           destruct (mine_extends localeCompare f ct _ _ sub Hsub is His) as ((y & rest & Ei) & _).
           exists (y :: rest). rewrite Ei, <- app_assoc. reflexivity.
    + constructor.
    + intros is [].
Qed.

End Once.

(** ** The recursion budget of [_fpGrowth] is never exhausted *)

Section Fuel.

Variable localeCompare : string -> string -> Z.

(** No root path of the tree is longer than [h]. *)
Definition hbound (T : FPTree) (h : nat) : Prop :=
  forall j, length (ipath (nodes T) j) <= h.

Lemma built_hbound sups m L h :
  (forall q w, In (q, w) L -> length q <= h) ->
  hbound (finish_build (insert_all (newFPTree sups m) L)) h.
Proof.
  intros HL j. simpl. destruct (built_ok sups m L) as [Hwf _].
  destruct (grown_built sups m L) as (_ & Hpre & _).
  destruct (nodes (insert_all (newFPTree sups m) L) !! j) as [nd|] eqn:Hj.
  - destruct (decide (j = root)) as [->|Hnr].
    + rewrite (ipath_root_nil _ Hwf). simpl. lia.
    + destruct (Hpre j nd Hj Hnr) as (q & w & Hin & [k Hk]).
      pose proof (HL q w Hin) as Hq. rewrite Hk, length_app in Hq. lia.
  - unfold ipath. simpl. rewrite Hj. simpl. lia.
Qed.

Lemma headers_hpos T x h :
  built_tree T -> In x (_headers T) -> hbound T h -> 1 <= h.
Proof.
  intros (sups & m & B & ->) Hx Hh. apply headers_members in Hx as (j & nd & Hj & Hi).
  destruct (built_ok sups m B) as [Hwf _]. simpl in Hj.
  assert (Hnr : j <> root).
  { intros ->. destruct (wf_root _ Hwf) as (r & Hr & Hri & _). rewrite Hr in Hj.
    injection Hj as <-. congruence. }
  pose proof (ipath_nonroot_ne _ _ _ Hwf Hj Hnr) as Hne. pose proof (Hh j) as Hl.
  simpl in Hl. destruct (ipath _ j); [congruence|]. simpl in Hl. lia.
Qed.

Lemma length_prepare t l : length (prepare localeCompare t l) <= length l.
Proof.
  unfold prepare. rewrite (Permutation_length (js_sort_perm _ _)).
  induction l as [|a l IH]; simpl; [lia|]. destruct (frequent t a); simpl; lia.
Qed.

Lemma cond_hbound T x ct h :
  built_tree T -> In x (_headers T) -> hbound T h ->
  getConditionalFPTree localeCompare T x = Ok (Some ct) -> hbound ct (pred h).
Proof.
  intros (sups & m & B & ->) Hx Hh Hc. apply headers_members in Hx.
  rewrite (getConditionalFPTree_built localeCompare sups m B x Hx) in Hc.
  match type of Hc with Ok (if root_has_children ?r then _ else _) = _ =>
    destruct (root_has_children r); [injection Hc as <-|discriminate] end.
  destruct (built_ok sups m B) as [Hwf _].
  set (ns := nodes (insert_all (newFPTree sups m) B)).
  assert (Ho : parents_older ns) by (apply wf_parents_older, Hwf).
  apply built_hbound. intros q w Hin.
  apply in_map_iff in Hin as (pp & E & Hpp). injection E as <- _.
  rewrite length_prepare. unfold cond_paths in Hpp. apply in_flat_map in Hpp as (n & Hn & Hpp).
  destruct (anc ns n) as [|a r] eqn:Ea; [destruct Hpp|].
  destruct Hpp as [<-|[]]. cbn [path]. rewrite length_rev, <- Ea.
  apply in_nodes_with in Hn as (nd & Hnd & Hix).
  unfold anc in Ea. rewrite Hnd in Ea. destruct (parent nd) as [p|] eqn:Hp; [|discriminate].
  destruct (anc_ipath ns n nd p Ho Hnd Hp) as [E1 E2].
  pose proof (Hh n) as Hl. change (nodes _) with ns in Hl.
  rewrite E2, length_app, Hix in Hl. simpl in Hl. lia.
Qed.

Lemma fold_ext {A B} (F G : A -> B -> A) (l : list B) a :
  (forall acc x, In x l -> F acc x = G acc x) -> fold_left F l a = fold_left G l a.
Proof.
  revert a. induction l as [|x l IH]; intros a H; simpl; [reflexivity|].
  rewrite H by (left; reflexivity). apply IH. intros acc y Hy. apply H. right. exact Hy.
Qed.

(** Any budget above the longest root path gives the same result. *)
Lemma fpGrowth_fuel_enough f : forall T ps P h f',
  built_tree T -> hbound T h -> h < f -> f <= f' ->
  _fpGrowth localeCompare f T ps P = _fpGrowth localeCompare f' T ps P.
Proof.
  induction f as [|f IH]; intros T ps P h f' HT Hh Hf Hf'; [lia|].
  destruct f' as [|f']; [lia|]. simpl. apply fold_ext. intros acc x Hx.
  destruct acc as [l|e]; cbn [rbind]; [|reflexivity].
  destruct (getConditionalFPTree localeCompare T x) as [[ct|]|e] eqn:Hc; cbn [rbind]; try reflexivity.
  pose proof (headers_hpos T x h HT Hx Hh).
  rewrite (IH ct _ _ (pred h) f' (cond_built localeCompare T x ct HT Hx Hc)
             (cond_hbound T x ct h HT Hx Hh Hc)) by lia.
  reflexivity.
Qed.

Lemma fpGrowth001_fuel_enough f : forall T ps P h f',
  built_tree T -> hbound T h -> h < f -> f <= f' ->
  Part001._fpGrowth localeCompare f T ps P = Part001._fpGrowth localeCompare f' T ps P.
Proof.
  induction f as [|f IH]; intros T ps P h f' HT Hh Hf Hf'; [lia|].
  destruct f' as [|f']; [lia|]. simpl.
  destruct (getSinglePath T) as [[sp|]|e]; cbn [rbind]; try reflexivity.
  apply fold_ext. intros acc x Hx.
  destruct acc as [l|e]; cbn [rbind]; [|reflexivity].
  destruct (getConditionalFPTree localeCompare T x) as [[ct|]|e] eqn:Hc; cbn [rbind]; try reflexivity.
  pose proof (headers_hpos T x h HT Hx Hh).
  rewrite (IH ct _ _ (pred h) f' (cond_built localeCompare T x ct HT Hx Hc)
             (cond_hbound T x ct h HT Hx Hh Hc)) by lia.
  reflexivity.
Qed.

(** The tree [exec] builds has no root path longer than its longest
    transaction, so [mining_fuel] exceeds every root path. *)
Lemma exec_tree_hbound ts thr :
  let T0 := newFPTree (_getDistinctItemsCount ts) thr in
  hbound (finish_build (insert_all T0 (map (fun tr => (prepare localeCompare T0 tr, 1)) ts)))
         (list_max (map length ts)).
Proof.
  intros T0. apply built_hbound. intros q w Hin.
  apply in_map_iff in Hin as (tr & E & Htr). injection E as <- _.
  rewrite length_prepare.
  pose proof (proj1 (list_max_le (map length ts) (list_max (map length ts))) (le_n _)) as H.
  rewrite Forall_forall in H. apply H, list_elem_of_In, in_map, Htr.
Qed.

End Fuel.

(** [exec] resolves to the same result under any recursion budget at least
    [mining_fuel]: the budget never cuts the code's recursion short. *)
Lemma exec_fuel_enough lc self ts f :
  mining_fuel ts <= f ->
  snd (exec lc self ts) =
    (let thr := Qceiling (fpg_support self * inject_Z (Z.of_nat (length ts))) in
     let! tree := fromTransactions lc (newFPTree (_getDistinctItemsCount ts) thr) ts in
     _fpGrowth lc f tree (length ts) []) /\
  snd (Part001.exec lc self ts) =
    (let thr := Qceiling (fpg_support self * inject_Z (Z.of_nat (length ts))) in
     let! tree := fromTransactions lc (newFPTree (_getDistinctItemsCount ts) thr) ts in
     Part001._fpGrowth lc f tree (length ts) []).
Proof.
  intros Hf. unfold exec, Part001.exec. cbn [snd]. rewrite !fromTransactions_built. cbn [rbind].
  pose proof (exec_tree_hbound lc ts (Qceiling (fpg_support self * inject_Z (Z.of_nat (length ts)))))
    as Hh. cbv zeta in Hh.
  split.
  - eapply fpGrowth_fuel_enough; [eexists; eexists; eexists; reflexivity|exact Hh|unfold mining_fuel; lia|exact Hf].
  - eapply fpGrowth001_fuel_enough; [eexists; eexists; eexists; reflexivity|exact Hh|unfold mining_fuel; lia|exact Hf].
Qed.

(** A transaction with a repeated item: the recursion goes one level per
    occurrence, and [exec] returns all four itemsets the code emits. *)
Lemma exec_repeated_item_run :
  show_result (snd (exec code_point_compare (newFPGrowth (1 # 2)) [["a"; "a"; "a"; "a"]])) =
    [(["a"], 1); (["a"; "a"], 1); (["a"; "a"; "a"], 1); (["a"; "a"; "a"; "a"], 1)].
Proof. vm_compute. reflexivity. Qed.

(** The example transactions have number items, whose keys are array
    indices: the tied items 2, 3 and 5 (support 4) come out in numeric order,
    not in the order 3, 5, 2 in which they first entered the tree. *)
Lemma spec_headers_numeric_ties :
  (let! t := fromTransactions code_point_compare
               (newFPTree (_getDistinctItemsCount spec_transactions) 2) spec_transactions in
   Ok (_headers t, map fst (_firstInserted t))) =
  Ok (["1"; "2"; "3"; "5"], ["3"; "1"; "5"; "2"]).
Proof. vm_compute. reflexivity. Qed.

(** * Claims *)

(** C4 (counterexample): on a fresh FPTree, [getConditionalFPTree] does not
    fail: it returns [null]. *)
Lemma getConditionalFPTree_fresh_no_error :
  ~ (exists e, getConditionalFPTree code_point_compare (newFPTree ∅ 1) "a" = Throw e).
Proof. intros [e He]. vm_compute in He. discriminate. Qed.

(** C4 (amended): before [fromTransactions]/[fromPrefixPaths], the queries
    [getPrefixPaths], [getPrefixPath], [isSinglePath] and [getSinglePath]
    throw [Error('Error building the FPTree')] and [getConditionalFPTree]
    returns [null]; building an already built tree (by either method) throws
    that same error. *)
Theorem queries_before_build_and_rebuild :
  forall (lc : string -> string -> Z) (sups : gmap string nat) (m : Z) (x : string)
         (node : nat) (cb : Callback) (cts : gmap string nat)
         (t : FPTree) (ts ts' : list (list string)) (pps pps' : list IPrefixPath),
    let t0 := newFPTree sups m in
    getPrefixPaths t0 x = Throw ErrorBuildingFPTree /\
    getPrefixPath t0 node cb cts = Throw ErrorBuildingFPTree /\
    isSinglePath t0 = Throw ErrorBuildingFPTree /\
    getSinglePath t0 = Throw ErrorBuildingFPTree /\
    getConditionalFPTree lc t0 x = Ok None /\
    rbind (fromTransactions lc t ts) (fun t' => fromTransactions lc t' ts') = Throw ErrorBuildingFPTree /\
    rbind (fromTransactions lc t ts) (fun t' => fromPrefixPaths lc t' pps) = Throw ErrorBuildingFPTree /\
    rbind (fromPrefixPaths lc t pps) (fun t' => fromTransactions lc t' ts) = Throw ErrorBuildingFPTree /\
    rbind (fromPrefixPaths lc t pps) (fun t' => fromPrefixPaths lc t' pps') = Throw ErrorBuildingFPTree.
Proof.
  intros. subst t0.
  split; [reflexivity|]. split; [reflexivity|]. split; [reflexivity|].
  split; [reflexivity|]. split; [reflexivity|].
  unfold fromTransactions, fromPrefixPaths.
  destruct (_isInit t); simpl; repeat split; reflexivity.
Qed.

(** C5 (counterexample): an item repeated in a transaction is counted
    twice by the first scan and inserted twice, as a node and its child. *)
Lemma duplicate_item_counted_and_inserted_twice :
  _getDistinctItemsCount dup_transactions !! "a" = Some 2 /\
  exists t, dup_tree = Ok t /\
    (item <$> nodes t !! 1) = Some (Some "a") /\
    (item <$> nodes t !! 2) = Some (Some "a") /\
    (parent <$> nodes t !! 2) = Some (Some 1).
Proof.
  split; [reflexivity|].
  eexists; split; [reflexivity|]. vm_compute. repeat split.
Qed.

(** C6 (counterexample): the same items with the same supports give
    different header orders depending on which item was inserted first. *)
Lemma headers_tie_order_is_insertion_order :
  _getDistinctItemsCount [["a"]; ["b"]] = _getDistinctItemsCount [["b"]; ["a"]] /\
  built_headers [["a"]; ["b"]] = Ok ["a"; "b"] /\
  built_headers [["b"]; ["a"]] = Ok ["b"; "a"].
Proof. vm_compute. repeat split. Qed.

(** C7 (code_bug): [exec] overwrites [_support] with the absolute
    threshold, so running the same FPGrowth(0.4) object twice on the
    example transactions mines with threshold 10 the second time and
    returns no itemset, while the first run returns fifteen. *)
Theorem exec_twice_same_object :
  let '(o, r1) := exec code_point_compare (newFPGrowth (2 # 5)) spec_transactions in
  fpg_support o = inject_Z 2 /\
  (exists l, r1 = Ok l /\ length l = 15) /\
  snd (exec code_point_compare o spec_transactions) = Ok [].
Proof. vm_compute. split; [reflexivity|]. split; [eexists; split; reflexivity|reflexivity]. Qed.

(** C1 (counterexample): with [dup_transactions] and relative support 1/2,
    [{a}] is emitted with support 2 but only one transaction contains [a]. *)
Lemma duplicate_item_support_wrong :
  emitted (snd (exec code_point_compare (newFPGrowth (1 # 2)) dup_transactions))
          (mkItemset ["a"] 2) /\
  brute_count dup_transactions ["a"] = 1.
Proof. vm_compute. split; [|reflexivity]. right. left. Qed.


(** C10: in every tree built by a sequence of insertions, and after any
    further [upsertChild] on one of its nodes, no node has two children
    carrying equal items. *)
Theorem upsertChild_keeps_siblings_distinct :
  forall (sups : gmap string nat) (m : Z) (L : list (list string * nat)),
    let t := insert_all (newFPTree sups m) L in
    siblings_distinct (nodes t) /\
    forall x this s, this < length (nodes t) ->
      siblings_distinct (nodes (fst (upsertChild (onNewChild x) t this x s))).
Proof.
  intros sups m L t. destruct (built_ok sups m L) as [Hwf _]. fold t in Hwf. split.
  - exact (wf_sibling _ Hwf).
  - intros x this s Hlt.
    destruct (upsertChild_wf x t this s Hwf Hlt) as (W & _). exact (wf_sibling _ W).
Qed.

Lemma upsertChild_keeps_siblings_distinct_witness :
  siblings_distinct
    (nodes (fst (upsertChild (onNewChild "b") (insert_all (newFPTree ∅ 1) [(["a"], 1)]) 1 "b" 1))).
Proof.
  apply (proj2 (upsertChild_keeps_siblings_distinct ∅ 1 [(["a"], 1)]) "b" 1 1).
  vm_compute. lia.
Defined.

(** C9: after any sequence of insertions, the [nextSameItemNode] links go
    forward in creation order and join nodes of the same item; for every item,
    the walk from [_firstInserted[item]] visits exactly the nodes carrying it, in
    creation order; [_lastInserted[item]] is the last of them and ends the chain. *)
Theorem node_links_are_item_chains :
  forall (sups : gmap string nat) (m : Z) (L : list (list string * nat)) (x : string),
    let t := insert_all (newFPTree sups m) L in
    let ns := nodes t in
    (forall i nd j, ns !! i = Some nd -> nextSameItemNode nd = Some j ->
       i < j /\ exists nd', ns !! j = Some nd' /\ item nd' = item nd) /\
    match jget x (_firstInserted t) with
    | Some f => node_chain (length ns) ns f = nodes_with ns x
    | None => nodes_with ns x = []
    end /\
    _lastInserted t !! x = last (nodes_with ns x) /\
    (forall l, _lastInserted t !! x = Some l ->
       exists nd, ns !! l = Some nd /\ item nd = Some x /\ nextSameItemNode nd = None).
Proof.
  intros sups m L x t ns. subst ns. destruct (built_ok sups m L) as [_ Hl]. fold t in Hl.
  split; [|split; [|split]].
  - intros i nd j Hi Hn. rewrite (lk_next _ _ _ Hl _ _ Hi) in Hn.
    destruct (item nd) as [y|] eqn:Ey; [|discriminate]. unfold next_same in Hn.
    destruct (List.filter (fun k => i <? k) (nodes_with (nodes t) y)) as [|j' rest] eqn:E;
      [discriminate|]. simpl in Hn. injection Hn as ->.
    assert (Hj : In j (List.filter (fun k => i <? k) (nodes_with (nodes t) y)))
      by (rewrite E; left; reflexivity).
    apply filter_In in Hj as [Hj Hij]. apply Nat.ltb_lt in Hij.
    apply in_nodes_with in Hj as (nd' & H1 & H2). split; [exact Hij|]. exists nd'. split; [exact H1|congruence].
  - destruct (jget x (_firstInserted t)) as [f|] eqn:Ef.
    + eapply node_chain_first; eauto.
    + rewrite (lk_first _ _ _ Hl) in Ef. destruct (nodes_with (nodes t) x); [reflexivity|discriminate].
  - apply (lk_last _ _ _ Hl).
  - intros l Hla. rewrite (lk_last _ _ _ Hl) in Hla.
    assert (Hin : In l (nodes_with (nodes t) x)).
    { apply last_Some in Hla as [l0 E]. rewrite E. apply in_or_app. right. left. reflexivity. }
    apply in_nodes_with in Hin as Hin'. destruct Hin' as (nd & Hnd & Hx).
    exists nd. split; [exact Hnd|]. split; [exact Hx|].
    rewrite (lk_next _ _ _ Hl _ _ Hnd), Hx. unfold next_same.
    rewrite filter_none; [reflexivity|].
    intros k Hk. apply Nat.ltb_ge. exact (sorted_last_max _ _ (nodes_with_sorted _ x) Hla _ Hk).
Qed.

Lemma node_links_are_item_chains_witness :
  exists nd, nodes (insert_all (newFPTree ∅ 1) [(["a"], 1); (["b"; "a"], 1)]) !! 3 = Some nd /\
             item nd = Some "a" /\ nextSameItemNode nd = None.
Proof.
  apply (proj2 (proj2 (proj2 (node_links_are_item_chains ∅ 1 [(["a"], 1); (["b"; "a"], 1)] "a")))).
  vm_compute. reflexivity.
Defined.

(** C8: for every built tree, [isSinglePath] holds exactly when no node has
    two children or more; [getSinglePath] returns the nodes from the root
    (excluded) down to the leaf, each the only child of the previous one, and
    [null] exactly when some node has two children or more; a root without
    children gives the empty path. *)
Theorem single_path_queries :
  forall (sups : gmap string nat) (m : Z) (L : list (list string * nat)),
    let t := finish_build (insert_all (newFPTree sups m) L) in
    let ns := nodes t in
    (isSinglePath t = Ok true <->
       forall i nd, ns !! i = Some nd -> length (children nd) <= 1) /\
    match getSinglePath t with
    | Ok (Some p) => down_path ns root p
    | Ok None => exists i nd, ns !! i = Some nd /\ 2 <= length (children nd)
    | Throw _ => False
    end /\
    (forall rn, ns !! root = Some rn -> children rn = [] -> getSinglePath t = Ok (Some [])).
Proof.
  intros sups m L t ns. destruct (built_ok sups m L) as [Hwf _].
  assert (Ens : ns = nodes (insert_all (newFPTree sups m) L)) by reflexivity.
  rewrite <- Ens in Hwf.
  assert (Hg : getSinglePath t = Ok (_getSinglePath (length ns) ns root [])) by reflexivity.
  assert (Hr := wf_root_lt _ Hwf).
  split; [|split].
  - unfold isSinglePath. rewrite Hg. simpl.
    destruct (_getSinglePath (length ns) ns root []) as [r|] eqn:E; split.
    + intros _. destruct (getSinglePath_some ns (length ns) root [] r Hwf Hr ltac:(unfold root; lia) E)
        as (p & _ & Hp).
      eapply down_path_all_degrees; eauto.
    + reflexivity.
    + discriminate.
    + intros Hall. destruct (getSinglePath_none _ _ _ _ E) as (j & nd & Hj & H2).
      pose proof (Hall _ _ Hj). lia.
  - rewrite Hg. destruct (_getSinglePath (length ns) ns root []) as [r|] eqn:E.
    + destruct (getSinglePath_some ns (length ns) root [] r Hwf Hr ltac:(unfold root; lia) E)
        as (p & -> & Hp).
      exact Hp.
    + exact (getSinglePath_none _ _ _ _ E).
  - intros rn Hrn Hc. rewrite Hg. destruct (length ns) as [|n] eqn:El; [unfold root in Hr; lia|].
    simpl. rewrite Hrn, Hc. reflexivity.
Qed.

Lemma single_path_queries_witness :
  getSinglePath (finish_build (insert_all (newFPTree ∅ 1) [])) = Ok (Some []).
Proof.
  apply (proj2 (proj2 (single_path_queries ∅ 1 [])) (newFPNode None None)); reflexivity.
Defined.

(** C6 (amended): the headers of a built tree are the distinct items
    carried by its nodes, sorted ascending by global support.  Items with
    equal supports are not ordered by an order over the items: they come in
    [Object.keys] order, the items whose key is an array index (non-negative
    integers below 2^32 - 1) first, in ascending numeric order, then the
    other items in the order in which they were first inserted (the creation
    order of their first nodes). *)
Theorem headers_by_support_then_key_order :
  forall (sups : gmap string nat) (m : Z) (L : list (list string * nat)),
    let t := finish_build (insert_all (newFPTree sups m) L) in
    let ns := nodes t in
    NoDup (_headers t) /\
    (forall x, In x (_headers t) <-> exists i nd, ns !! i = Some nd /\ item nd = Some x) /\
    StronglySorted
      (fun a b => (sup_of sups a < sup_of sups b)%Z \/
                  (sup_of sups a = sup_of sups b /\
                   key_before (fun a b => first_node ns a < first_node ns b) a b))
      (_headers t).
Proof.
  intros sups m L t ns. destruct (built_ok sups m L) as [_ Hl].
  assert (Hs : supports (insert_all (newFPTree sups m) L) = sups).
  { pose proof (frame_insert_all (newFPTree sups m) L) as F.
    destruct (frame_fields _ _ F) as (_ & E & _). exact E. }
  assert (Eh : _headers t = js_sort (fun a b => (sup_of sups a - sup_of sups b)%Z)
                  (object_keys (map fst (_firstInserted (insert_all (newFPTree sups m) L))))).
  { unfold t. simpl. unfold _getHeaderList. rewrite Hs. reflexivity. }
  assert (Hp := header_list_perm (insert_all (newFPTree sups m) L)).
  change (_getHeaderList (insert_all (newFPTree sups m) L)) with (_headers t) in Hp.
  split; [|split].
  - rewrite Hp. apply (lk_keys _ _ _ Hl).
  - intros x. split; intros H.
    + apply (in_first_keys _ _ _ x Hl). apply (Permutation_in x Hp). exact H.
    + apply (Permutation_in x (Permutation_sym Hp)). apply (in_first_keys _ _ _ x Hl). exact H.
  - rewrite Eh. apply (js_sort_key_sorted (sup_of sups)
                         (key_before (fun a b => first_node ns a < first_node ns b))).
    apply object_keys_sorted, (first_keys_sorted _ _ _ Hl).
Qed.

(** C5 (amended): nothing is deduplicated.  The first scan counts every
    occurrence: the global support of [x] is its number of occurrences over
    all transactions.  Preparing a transaction keeps every occurrence of a
    frequent item, and [fromTransactions] lays the prepared transaction out
    as a root path with one node per occurrence: every prefix of it is the
    path of a node of the built tree. *)
Theorem duplicates_counted_and_inserted :
  forall (lc : string -> string -> Z) (ts : list (list string)) (m : Z),
    let sups := _getDistinctItemsCount ts in
    (forall x, default 0 (sups !! x) = sum_list_with (fun tr => occ tr x) ts) /\
    match fromTransactions lc (newFPTree sups m) ts with
    | Ok t => forall tr, In tr ts ->
        let q := prepare lc (newFPTree sups m) tr in
        (forall x, frequent (newFPTree sups m) x = true -> occ q x = occ tr x) /\
        (forall k, k <= length q ->
           exists j, j < length (nodes t) /\ ipath (nodes t) j = take k q)
    | Throw _ => False
    end.
Proof.
  intros lc ts m sups. split; [apply distinct_count_default|].
  rewrite fromTransactions_built. intros tr Htr q. split.
  - intros x Hx. apply occ_prepare, Hx.
  - destruct (grown_built sups m (map (fun tr => (prepare lc (newFPTree sups m) tr, 1)) ts))
      as (_ & _ & Htake & _).
    intros k Hk. simpl. apply (Htake q 1); [|exact Hk].
    apply in_map_iff. exists tr. split; [reflexivity|exact Htr].
Qed.

(** C3: for a relative support [r] in (0,1), [exec] converts it once into
    the absolute threshold [thr = ceil(r * n)], stores [thr] in the object,
    and every itemset it emits has a support of at least [thr]. *)
Theorem exec_emits_above_threshold :
  forall (lc : string -> string -> Z) (r : Q) (ts : list (list string)),
    (0 < r)%Q -> (r < 1)%Q ->
    let thr := Qceiling (r * inject_Z (Z.of_nat (length ts))) in
    fpg_support (fst (exec lc (newFPGrowth r) ts)) = inject_Z thr /\
    forall is, emitted (snd (exec lc (newFPGrowth r) ts)) is -> (thr <= Z.of_nat (is_support is))%Z.
Proof.
  intros lc r ts Hr0 Hr1 thr. split; [reflexivity|].
  intros is Hem. unfold exec in Hem. cbn [snd] in Hem.
  rewrite fromTransactions_built in Hem. cbn [rbind] in Hem.
  destruct (_fpGrowth lc (mining_fuel ts) _ (length ts) []) as [l|e] eqn:E; [|contradiction].
  unfold emitted in Hem. apply list_elem_of_In in Hem.
  change (Qceiling (fpg_support (newFPGrowth r) * inject_Z (Z.of_nat (length ts)))) with thr in E.
  eapply (mine_thr lc thr (mining_fuel ts)); [|exact E|exact Hem].
  eexists; eexists; split; [reflexivity|]. split.
  - intros q w Hq y Hy. apply in_map_iff in Hq as (tr & Htr & _). injection Htr as <- _.
    apply prepare_members in Hy as [_ Hy]. apply frequent_fresh, Hy.
  - unfold thr. transitivity (Qceiling (inject_Z (Z.of_nat (length ts))));
      [|rewrite Qceiling_Z; lia].
    apply Qceiling_resp_le.
    rewrite <- (Qmult_1_l (inject_Z (Z.of_nat (length ts)))) at 2.
    apply Qmult_le_compat_r; [apply Qlt_le_weak, Hr1|].
    unfold Qle. simpl. lia.
Qed.

Lemma exec_emits_above_threshold_witness :
  (0 < 2 # 5)%Q /\ (2 # 5 < 1)%Q /\
  (fpg_support (fst (exec code_point_compare (newFPGrowth (2 # 5)) spec_transactions)) = inject_Z 2 /\
   forall is, emitted (snd (exec code_point_compare (newFPGrowth (2 # 5)) spec_transactions)) is ->
   (2 <= Z.of_nat (is_support is))%Z).
Proof.
  assert (H1 : (0 < 2 # 5)%Q) by reflexivity.
  assert (H2 : (2 # 5 < 1)%Q) by reflexivity.
  split; [exact H1|]. split; [exact H2|].
  exact (exec_emits_above_threshold code_point_compare (2 # 5) spec_transactions H1 H2).
Defined.

(** C2 (amended): in the variant of src/unnamed/part_001, every call of
    [_fpGrowth] on a single-path tree takes the shortcut: it returns
    [_handleSinglePath], whose itemsets are, up to order, exactly one per
    non-empty subset of the path's nodes, each made of the prefix followed by
    the subset's items in path order, with the least of the subset's node
    supports and [prefixSupport]. *)
Theorem single_path_shortcut_part001 :
  forall (lc : string -> string -> Z) (f : nat) (tree : FPTree) (ps : nat)
         (prefix : list string) (sp : list nat),
    getSinglePath tree = Ok (Some sp) ->
    Part001._fpGrowth lc (S f) tree ps prefix =
      Ok (Part001._handleSinglePath (nodes tree) sp ps prefix) /\
    Permutation (Part001._handleSinglePath (nodes tree) sp ps prefix)
                (map (subset_itemset (nodes tree) ps prefix) (subsets_ne sp)).
Proof.
  intros lc f tree ps prefix sp Hsp. split.
  - simpl. rewrite Hsp. reflexivity.
  - apply handleSinglePath_subsets.
Qed.

Lemma single_path_shortcut_part001_witness :
  getSinglePath single_path_tree = Ok (Some [1; 2]) /\
  Part001._fpGrowth code_point_compare 3 single_path_tree 2 [] =
    Ok (Part001._handleSinglePath (nodes single_path_tree) [1; 2] 2 []) /\
  Permutation (Part001._handleSinglePath (nodes single_path_tree) [1; 2] 2 [])
              (map (subset_itemset (nodes single_path_tree) 2 []) (subsets_ne [1; 2])).
Proof.
  assert (H : getSinglePath single_path_tree = Ok (Some [1; 2])) by (vm_compute; reflexivity).
  split; [exact H|].
  exact (single_path_shortcut_part001 code_point_compare 2 single_path_tree 2 [] [1; 2] H).
Defined.

(** C2: the variant of src/src/fptree.ts has the shortcut commented out: on
    the single-path tree of [["a";"b"];["a"]] it mines conditional trees and
    emits [b], [b;a], [a], while the enumeration of the path's subsets (which
    the variant of part_001 returns) is [a], [a;b], [b]; the itemset [b;a]
    is none of the subsets' itemsets. *)
Lemma src_fpGrowth_skips_single_path_shortcut :
  getSinglePath single_path_tree = Ok (Some [1; 2]) /\
  snd (exec code_point_compare (newFPGrowth (1 # 2)) single_path_transactions) =
    Ok [mkItemset ["b"] 1; mkItemset ["b"; "a"] 1; mkItemset ["a"] 2] /\
  snd (Part001.exec code_point_compare (newFPGrowth (1 # 2)) single_path_transactions) =
    Ok [mkItemset ["a"] 2; mkItemset ["a"; "b"] 1; mkItemset ["b"] 1] /\
  ~ In (mkItemset ["b"; "a"] 1)
       (map (subset_itemset (nodes single_path_tree) 2 []) (subsets_ne [1; 2])).
Proof.
  split; [vm_compute; reflexivity|]. split; [vm_compute; reflexivity|].
  split; [vm_compute; reflexivity|].
  vm_compute. intros [H|[H|[H|[]]]]; discriminate.
Qed.

(** C1 (amended): when [localeCompare] is a strict total order on the items
    and no transaction holds an item twice, every itemset emitted by [exec],
    whatever the relative support, has as support the number of input
    transactions that contain all of its items. *)
Theorem exec_support_is_exact_count :
  forall (lc : string -> string -> Z), strict_total lc ->
  forall (r : Q) (ts : list (list string)), (forall tr, In tr ts -> NoDup tr) ->
  forall is, emitted (snd (exec lc (newFPGrowth r) ts)) is ->
  is_support is = brute_count ts (items is).
Proof.
  intros lc Hlc r ts Hnd is Hem. unfold exec in Hem. cbn [snd] in Hem.
  rewrite fromTransactions_built in Hem. cbn [rbind] in Hem.
  destruct (_fpGrowth lc (mining_fuel ts) _ (length ts) []) as [l|e] eqn:E; [|contradiction].
  unfold emitted in Hem. apply list_elem_of_In in Hem.
  eapply (mine_sound lc Hlc ts (mining_fuel ts)); [|exact E|exact Hem].
  apply (exec_mine_inv lc Hlc), Hnd.
Qed.

Lemma exec_support_is_exact_count_witness :
  strict_total code_point_compare /\
  (forall tr, In tr spec_transactions -> NoDup tr) /\
  (forall is, emitted (snd (exec code_point_compare (newFPGrowth (2 # 5)) spec_transactions)) is ->
     is_support is = brute_count spec_transactions (items is)).
Proof.
  assert (H2 : forall tr, In tr spec_transactions -> NoDup tr).
  { intros tr Htr. destruct Htr as [<-|[<-|[<-|[<-|[<-|[]]]]]];
      apply (bool_decide_unpack _); vm_compute; exact I. }
  split; [exact code_point_compare_strict|]. split; [exact H2|].
  exact (exec_support_is_exact_count code_point_compare code_point_compare_strict (2 # 5) spec_transactions H2).
Defined.

(** * Further properties of the code *)

(** X1: [_getDistinctItemsCount] has a key for an item exactly when some
    transaction contains it, and the count stored there is the number of
    occurrences of the item over all transactions, which is positive. *)
Theorem distinct_items_count_keys :
  forall (ts : list (list string)) (x : string),
    (is_Some (_getDistinctItemsCount ts !! x) <-> exists tr, In tr ts /\ In x tr) /\
    (forall n, _getDistinctItemsCount ts !! x = Some n ->
       n = sum_list_with (fun tr => occ tr x) ts /\ 0 < n).
Proof.
  intros ts x.
  assert (Hn : forall n, _getDistinctItemsCount ts !! x = Some n ->
                 n = sum_list_with (fun tr => occ tr x) ts /\ 0 < n).
  { intros n Hs. pose proof (distinct_count_default ts x) as D. rewrite Hs in D.
    split; [exact D|]. eapply distinct_count_pos; eauto. }
  split; [|exact Hn]. split.
  - intros [n Hs]. destruct (Hn n Hs) as [-> Hp].
    destruct (sum_pos_exists _ _ Hp) as (tr & Htr & Ho). exists tr. split; [exact Htr|].
    apply occ_In, Ho.
  - intros (tr & Htr & Hx). eapply distinct_count_some; eauto.
Qed.

(** X2: On a built tree, [getPrefixPath] of any node succeeds: it returns the
    items of the node's ancestors strictly between the root and the node,
    nearest first, with the node's support, or nothing when there is no such
    ancestor (the node is the root or a child of the root); the callback is
    called once per returned item, in the same order, with the node's support. *)
Theorem getPrefixPath_built :
  forall (sups : gmap string nat) (m : Z) (L : list (list string * nat))
         (i : nat) (cb : Callback) (cts : gmap string nat),
    let t := finish_build (insert_all (newFPTree sups m) L) in
    let ns := nodes t in
    i < length ns ->
    getPrefixPath t i cb cts =
      Ok (match anc ns i with
          | [] => None
          | _ :: _ => Some (mkPrefixPath (rev (anc ns i)) (nsup ns i))
          end,
          fold_left (fun cts y => cb y (nsup ns i) cts) (rev (anc ns i)) cts) /\
    (anc ns i = [] <-> i = root \/ parent <$> ns !! i = Some (Some root)).
Proof.
  intros sups m L i cb cts t ns Hi. destruct (built_wf_links sups m L) as (Hwf & _ & Hinit).
  fold t in Hwf, Hinit. fold ns in Hwf.
  destruct (lookup_lt_is_Some_2 _ _ Hi) as [nd Hnd].
  split.
  - unfold getPrefixPath. rewrite Hinit. cbn [negb].
    change (default 0 (support <$> (nodes t !! i))) with (nsup ns i).
    fold ns. rewrite getPrefixPath_anc by (auto; lia).
    destruct (anc ns i) as [|a l'] eqn:E; simpl; [reflexivity|].
    destruct (rev l' ++ [a]) eqn:E2; [apply app_eq_nil in E2 as [_ E2]; discriminate|reflexivity].
  - rewrite (anc_nil_iff _ _ _ Hwf Hnd), Hnd. simpl.
    split.
    + intros [H|H]; [left|right; rewrite H; reflexivity].
      destruct (decide (i = root)) as [|Hne]; [assumption|].
      destruct (wf_node _ Hwf i nd Hnd Hne) as (x & p & pn & _ & Hp & _). congruence.
    + intros [->|H]; [left|right; congruence].
      destruct (wf_root _ Hwf) as (r & Hr & _ & Hp). rewrite Hr in Hnd. injection Hnd as <-. exact Hp.
Qed.

Lemma getPrefixPath_built_witness :
  let t := finish_build (insert_all (newFPTree ∅ 1%Z) [(["a"; "b"], 1)]) in
  2 < length (nodes t) /\
  getPrefixPath t 2 no_callback ∅ = Ok (Some (mkPrefixPath ["a"] 1), ∅).
Proof.
  intros t. assert (Hlt : 2 < length (nodes t)) by (vm_compute; lia).
  split; [exact Hlt|].
  destruct (getPrefixPath_built ∅ 1%Z [(["a"; "b"], 1)] 2 no_callback ∅ Hlt) as [E _].
  unfold t. rewrite E. vm_compute. reflexivity.
Defined.

(** X3: On a built tree, [getPrefixPaths t x] succeeds and returns, in the order
    of the node-link chain of [x], the prefix path of every node of [x] that
    has one ([cond_paths]). *)
Theorem getPrefixPaths_built :
  forall (sups : gmap string nat) (m : Z) (L : list (list string * nat)) (x : string),
    let t := finish_build (insert_all (newFPTree sups m) L) in
    getPrefixPaths t x = Ok (cond_paths (nodes t) x).
Proof.
  intros sups m L x t. destruct (built_wf_links sups m L) as (Hwf & Hl & Hinit). fold t in Hwf, Hl, Hinit.
  unfold getPrefixPaths. rewrite Hinit. cbn [negb].
  destruct (jget x (_firstInserted t)) as [start|] eqn:Hf.
  - rewrite getPrefixPaths_chain by exact Hinit. cbn [rbind].
    rewrite (node_chain_first _ _ _ x start Hl Hf).
    rewrite pp_fold_fst by (auto; apply nodes_with_lt). reflexivity.
  - rewrite (lk_first _ _ _ Hl) in Hf. unfold cond_paths.
    destruct (nodes_with (nodes t) x); [reflexivity|discriminate].
Qed.

(** X4: For every relative support, item order and transaction list, [exec]
    resolves with a list of itemsets, in both the src version and the
    version with the single-path shortcut: none of the error paths of the
    tree code is reached. *)
Theorem exec_never_rejects :
  forall (lc : string -> string -> Z) (self : FPGrowth) (ts : list (list string)),
    (exists l, snd (exec lc self ts) = Ok l) /\
    (exists l, snd (Part001.exec lc self ts) = Ok l).
Proof.
  intros lc self ts. unfold exec, Part001.exec. cbn [snd].
  rewrite !fromTransactions_built. cbn [rbind]. split.
  - apply fpGrowth_ok. eexists; eexists; eexists; reflexivity.
  - apply fpGrowth001_ok. eexists; eexists; eexists; reflexivity.
Qed.

(** X5: On an empty transaction list, [exec] (both versions) resolves with no
    itemsets and leaves the instance with support 0 and no transactions. *)
Theorem exec_no_transactions :
  forall (lc : string -> string -> Z) (self : FPGrowth),
    exec lc self [] = (mkFPGrowth (inject_Z 0) [], Ok []) /\
    Part001.exec lc self [] = (mkFPGrowth (inject_Z 0) [], Ok []).
Proof.
  intros lc [[a b] tr].
  assert (E : Qceiling (fpg_support (mkFPGrowth (a # b) tr) * inject_Z (Z.of_nat (length (@nil (list string))))) = 0%Z).
  { simpl. unfold Qmult. simpl. rewrite Z.mul_0_r. reflexivity. }
  unfold exec, Part001.exec. rewrite E. split; reflexivity.
Qed.

(** X6: Every itemset returned by [_fpGrowth tree prefixSupport prefix] has the
    items of [prefix] followed by at least one more item, and a support of at
    most [prefixSupport]. *)
Theorem fpGrowth_itemsets_extend_prefix :
  forall (lc : string -> string -> Z) (fuel : nat) (tree : FPTree) (ps : nat)
         (prefix : list string) (l : list Itemset),
    _fpGrowth lc fuel tree ps prefix = Ok l ->
    forall is, In is l ->
      (exists x rest, items is = prefix ++ x :: rest) /\ is_support is <= ps.
Proof. intros lc fuel tree ps prefix l Hl is His. exact (mine_extends lc fuel tree ps prefix l Hl is His). Qed.

Lemma fpGrowth_itemsets_extend_prefix_witness :
  exists l, _fpGrowth code_point_compare 3 single_path_tree 2 ["p"] = Ok l /\
    map (fun i => (items i, is_support i)) l =
      [(["p"; "b"], 1); (["p"; "b"; "a"], 1); (["p"; "a"], 2)] /\
    forall is, In is l ->
      (exists x rest, items is = ["p"] ++ x :: rest) /\ is_support is <= 2.
Proof.
  destruct (_fpGrowth code_point_compare 3 single_path_tree 2 ["p"]) as [l|e] eqn:E;
    [|vm_compute in E; discriminate].
  exists l. split; [reflexivity|]. split.
  - vm_compute in E. injection E as <-. reflexivity.
  - exact (fpGrowth_itemsets_extend_prefix code_point_compare 3 single_path_tree 2 ["p"] l E).
Defined.

(** X7: With the single-path shortcut, every itemset returned by
    [_fpGrowth tree prefixSupport prefix] starts with the items of [prefix]
    and has a support of at most [prefixSupport]. *)
Theorem fpGrowth001_itemsets_extend_prefix :
  forall (lc : string -> string -> Z) (fuel : nat) (tree : FPTree) (ps : nat)
         (prefix : list string) (l : list Itemset),
    Part001._fpGrowth lc fuel tree ps prefix = Ok l ->
    forall is, In is l -> (exists rest, items is = prefix ++ rest) /\ is_support is <= ps.
Proof. intros lc fuel tree ps prefix l Hl is His. exact (mine001_shape lc fuel tree ps prefix l Hl is His). Qed.

Lemma fpGrowth001_itemsets_extend_prefix_witness :
  exists l, Part001._fpGrowth code_point_compare 3 single_path_tree 2 ["p"] = Ok l /\
    map (fun i => (items i, is_support i)) l =
      [(["p"; "a"], 2); (["p"; "a"; "b"], 1); (["p"; "b"], 1)] /\
    forall is, In is l -> (exists rest, items is = ["p"] ++ rest) /\ is_support is <= 2.
Proof.
  destruct (Part001._fpGrowth code_point_compare 3 single_path_tree 2 ["p"]) as [l|e] eqn:E;
    [|vm_compute in E; discriminate].
  exists l. split; [reflexivity|]. split.
  - vm_compute in E. injection E as <-. reflexivity.
  - exact (fpGrowth001_itemsets_extend_prefix code_point_compare 3 single_path_tree 2 ["p"] l E).
Defined.

(** X8: [_handleSinglePath] on a path of n nodes returns exactly 2^n - 1
    itemsets. *)
Theorem handleSinglePath_count :
  forall (ns : list FPNode) (sp : list nat) (ps : nat) (prefix : list string),
    length (Part001._handleSinglePath ns sp ps prefix) = 2 ^ length sp - 1.
Proof.
  intros ns sp ps prefix. induction sp as [|n sp IH] using rev_ind; [reflexivity|].
  rewrite handleSinglePath_snoc. cbv zeta. rewrite !length_app, length_map, IH.
  cbn [length]. rewrite Nat.pow_add_r. pose proof (Nat.pow_nonzero 2 (length sp)). simpl. lia.
Qed.

(** X9: After [fromTransactions] on a fresh tree built from the item counts of
    the transactions and a threshold [thr], the header list holds exactly the
    items that occur in some transaction and whose total number of
    occurrences is at least [thr]. *)
Theorem fromTransactions_headers_are_frequent_items :
  forall (lc : string -> string -> Z) (ts : list (list string)) (thr : Z) (x : string),
    match fromTransactions lc (newFPTree (_getDistinctItemsCount ts) thr) ts with
    | Ok t => In x (_headers t) <->
              (exists tr, In tr ts /\ In x tr) /\
              (thr <= Z.of_nat (sum_list_with (fun tr => occ tr x) ts))%Z
    | Throw _ => False
    end.
Proof. intros lc ts thr x. rewrite fromTransactions_built. apply headers_transactions. Qed.

(** X10: Every item that occurs in the transactions and whose number of
    occurrences reaches ceil(support * number of transactions) is emitted by
    [exec] as the one-item itemset [x] with support
    min(occurrences, number of transactions). *)
Theorem exec_emits_frequent_items :
  forall (lc : string -> string -> Z) (r : Q) (ts : list (list string)) (x : string),
    (exists tr, In tr ts /\ In x tr) ->
    (Qceiling (r * inject_Z (Z.of_nat (length ts))) <= Z.of_nat (sum_list_with (fun tr => occ tr x) ts))%Z ->
    emitted (snd (exec lc (newFPGrowth r) ts))
            (mkItemset [x] (Nat.min (sum_list_with (fun tr => occ tr x) ts) (length ts))).
Proof.
  intros lc r ts x Hx Hthr. unfold exec. cbn [snd]. rewrite fromTransactions_built. cbn [rbind].
  set (thr := Qceiling (fpg_support (newFPGrowth r) * inject_Z (Z.of_nat (length ts)))).
  set (T0 := newFPTree (_getDistinctItemsCount ts) thr).
  set (T := finish_build (insert_all T0 (map (fun tr => (prepare lc T0 tr, 1)) ts))).
  destruct (fpGrowth_ok lc (mining_fuel ts) T (length ts) [] ltac:(eexists; eexists; eexists; reflexivity))
    as [l Hl].
  rewrite Hl. unfold emitted. apply list_elem_of_In.
  assert (Hh : In x (_headers T)) by (apply headers_transactions; auto).
  pose proof (fpGrowth_heads lc _ T (length ts) [] l Hl x Hh) as H.
  unfold T, T0 in H. rewrite (proj1 (supports_built _ _ _)), distinct_count_default in H. exact H.
Qed.

Lemma exec_emits_frequent_items_witness :
  (exists tr, In tr spec_transactions /\ In "3" tr) /\
  (Qceiling ((2 # 5) * inject_Z (Z.of_nat (length spec_transactions))) <=
     Z.of_nat (sum_list_with (fun tr => occ tr "3") spec_transactions))%Z /\
  emitted (snd (exec code_point_compare (newFPGrowth (2 # 5)) spec_transactions))
    (mkItemset ["3"] (Nat.min (sum_list_with (fun tr => occ tr "3") spec_transactions)
                              (length spec_transactions))).
Proof.
  assert (H1 : exists tr, In tr spec_transactions /\ In "3" tr).
  { exists ["1"; "3"; "4"]. split; [left; reflexivity|right; left; reflexivity]. }
  assert (H2 : (Qceiling ((2 # 5) * inject_Z (Z.of_nat (length spec_transactions))) <=
                Z.of_nat (sum_list_with (fun tr => occ tr "3") spec_transactions))%Z).
  { apply Z.leb_le. vm_compute. reflexivity. }
  split; [exact H1|]. split; [exact H2|].
  exact (exec_emits_frequent_items code_point_compare (2 # 5) spec_transactions "3" H1 H2).
Defined.

(** X11: On a built tree, [getConditionalFPTree x] returns null when [x] has no
    node; when it returns a tree, that tree is built, keeps the minimum
    support, counts each item [y] as the sum over the nodes of [x] of the
    node's support times the occurrences of [y] among its strict ancestors,
    and holds only items that are ancestors of a node of [x] and reach the
    minimum support. *)
Theorem getConditionalFPTree_counts :
  forall (lc : string -> string -> Z) (sups : gmap string nat) (m : Z)
         (L : list (list string * nat)) (x : string),
    let t := finish_build (insert_all (newFPTree sups m) L) in
    let ns := nodes t in
    (~ occurs t x -> getConditionalFPTree lc t x = Ok None) /\
    (forall ct, getConditionalFPTree lc t x = Ok (Some ct) ->
       _isInit ct = true /\ _support ct = m /\
       (forall y, default 0 (supports ct !! y) =
                  sum_list_with (fun n => nsup ns n * occ (anc ns n) y) (nodes_with ns x)) /\
       (forall y, occurs ct y ->
          (exists n, In n (nodes_with ns x) /\ In y (anc ns n)) /\
          (m <= Z.of_nat (default 0%nat (supports ct !! y)))%Z)).
Proof.
  intros lc sups m L x t ns. split; [apply not_occurs_cond|].
  intros ct Hc.
  assert (Hx : occurs t x).
  { destruct (nodes_with (nodes t) x) as [|h tl] eqn:E.
    - exfalso. pose proof (not_occurs_cond lc sups m L x) as Hno. cbv zeta in Hno. fold t in Hno.
      rewrite Hno in Hc; [discriminate|].
      intros (j & nd & Hj & Hi). assert (Hin : In j (nodes_with (nodes t) x)) by (apply in_nodes_with; eauto).
      rewrite E in Hin. exact Hin.
    - assert (Hh : In h (nodes_with (nodes t) x)) by (rewrite E; left; reflexivity).
      apply in_nodes_with in Hh as (nd & H1 & H2). exists h, nd. auto. }
  unfold t in Hc, Hx. rewrite (getConditionalFPTree_built lc sups m L x Hx) in Hc.
  fold t in Hc. fold ns in Hc.
  match type of Hc with Ok (if root_has_children ?r then _ else _) = _ =>
    destruct (root_has_children r); [injection Hc as <-|discriminate] end.
  destruct (supports_built (cond_counts ns x) m
              (map (fun pp => (prepare lc (newFPTree (cond_counts ns x) m) (path pp), pp_support pp))
                   (cond_paths ns x))) as [Hs Hm].
  split; [reflexivity|]. split; [exact Hm|]. split.
  - intros y. rewrite Hs, cond_counts_default. apply sum_in_ext. intros n _. rewrite occ_rev. reflexivity.
  - intros y Hy. destruct (occurs_cond lc sups m L x y Hy) as (n & Hn & Hya & Hf).
    split; [eauto|]. rewrite Hs. apply frequent_fresh in Hf as (s & Hs' & Hle).
    change (nodes t) with (nodes (insert_all (newFPTree sups m) L)) in ns. unfold ns. rewrite Hs'. exact Hle.
Qed.

(** X12: On a tree built by insertions, [upsertChild x s] on a node returns a child
    that [getChild x] then finds; when the node already had a child for [x]
    that child's support grows by [s] and no node is added, otherwise a new
    node with item [x], parent the node and support [s] is appended; no other
    node's support changes. *)
Theorem upsertChild_insert_lookup :
  forall (sups : gmap string nat) (m : Z) (L : list (list string * nat))
         (this : nat) (x : string) (s : nat),
    let t := insert_all (newFPTree sups m) L in
    let ns := nodes t in
    this < length ns ->
    let '(t', c) := upsertChild (onNewChild x) t this x s in
    let ns' := nodes t' in
    getChild ns' this x = Some c /\
    (forall j, j <> c -> nsup ns' j = nsup ns j) /\
    match getChild ns this x with
    | Some c0 => c = c0 /\ length ns' = length ns /\ nsup ns' c = nsup ns c + s
    | None => c = length ns /\ length ns' = S (length ns) /\ nsup ns' c = s /\
              item <$> ns' !! c = Some (Some x) /\ parent <$> ns' !! c = Some (Some this)
    end.
Proof.
  intros sups m L this x s t ns Hlt. destruct (built_ok sups m L) as [Hwf _].
  exact (upsert_sup t this x s Hwf Hlt).
Qed.

Lemma upsertChild_insert_lookup_witness :
  let t := insert_all (newFPTree ∅ 1%Z) [(["a"], 1)] in
  0 < length (nodes t) /\
  let '(t', c) := upsertChild (onNewChild "b") t 0 "b" 2 in
  getChild (nodes t') 0 "b" = Some c /\ c = 2 /\ nsup (nodes t') c = 2 /\
  nsup (nodes t') 1 = 1.
Proof.
  intros t. assert (Hlt : 0 < length (nodes t)) by (vm_compute; lia).
  split; [exact Hlt|].
  pose proof (upsertChild_insert_lookup ∅ 1%Z [(["a"], 1)] 0 "b" 2 Hlt) as H.
  assert (Hg : getChild (nodes t) 0 "b" = None) by (vm_compute; reflexivity).
  assert (Hl : length (nodes t) = 2) by (vm_compute; reflexivity).
  assert (H1 : nsup (nodes t) 1 = 1) by (vm_compute; reflexivity).
  fold t in H. destruct (upsertChild (onNewChild "b") t 0 "b" 2) as [t' c].
  rewrite Hg, Hl in H. destruct H as (Hc & Hj & -> & _ & Hs & _).
  split; [exact Hc|]. split; [reflexivity|]. split; [exact Hs|].
  rewrite (Hj 1) by lia. exact H1.
Defined.

(** X13: After [fromTransactions], the support of every node except the root is
    the number of transactions whose pruned and sorted items start with the
    items on the path from the root to that node. *)
Theorem fromTransactions_node_supports :
  forall (lc : string -> string -> Z) (ts : list (list string)) (thr : Z),
    let T0 := newFPTree (_getDistinctItemsCount ts) thr in
    match fromTransactions lc T0 ts with
    | Ok t => forall j nd, nodes t !! j = Some nd -> j <> root ->
        support nd =
          length (List.filter (fun tr => bool_decide (ipath (nodes t) j `prefix_of` prepare lc T0 tr)) ts)
    | Throw _ => False
    end.
Proof.
  intros lc ts thr T0. unfold T0. rewrite fromTransactions_built. intros j nd Hj Hnr.
  simpl in Hj. rewrite (built_node_support _ _ _ j nd Hj Hnr). simpl. unfold through.
  generalize (ipath (nodes (insert_all (newFPTree (_getDistinctItemsCount ts) thr)
      (map (fun tr => (prepare lc (newFPTree (_getDistinctItemsCount ts) thr) tr, 1)) ts))) j) as p.
  intros p. generalize (prepare lc (newFPTree (_getDistinctItemsCount ts) thr)) as f. intros f.
  clear. induction ts as [|tr ts IH]; [reflexivity|]. cbn [map sum_list_with List.filter].
  rewrite IH. case_bool_decide; simpl; lia.
Qed.

(** X14: After [fromPrefixPaths], the support of every node except the root is
    the sum of the supports of the prefix paths whose pruned and sorted items
    start with the items on the path from the root to that node. *)
Theorem fromPrefixPaths_node_supports :
  forall (lc : string -> string -> Z) (sups : gmap string nat) (thr : Z) (pps : list IPrefixPath),
    let T0 := newFPTree sups thr in
    match fromPrefixPaths lc T0 pps with
    | Ok t => forall j nd, nodes t !! j = Some nd -> j <> root ->
        support nd =
          sum_list_with (fun pp => if bool_decide (ipath (nodes t) j `prefix_of` prepare lc T0 (path pp))
                                   then pp_support pp else 0) pps
    | Throw _ => False
    end.
Proof.
  intros lc sups thr pps T0. unfold T0. rewrite fromPrefixPaths_built. intros j nd Hj Hnr.
  simpl in Hj. rewrite (built_node_support _ _ _ j nd Hj Hnr). simpl. unfold through.
  generalize (ipath (nodes (insert_all (newFPTree sups thr)
      (map (fun pp => (prepare lc (newFPTree sups thr) (path pp), pp_support pp)) pps))) j) as p.
  intros p. clear. induction pps as [|pp pps IH]; [reflexivity|]. cbn [map sum_list_with].
  rewrite IH. reflexivity.
Qed.

(** X15: In a tree built by insertions, a node's support is at most the support of
    its parent, unless the parent is the root. *)
Theorem supports_decrease_downwards :
  forall (sups : gmap string nat) (m : Z) (L : list (list string * nat)),
    let ns := nodes (insert_all (newFPTree sups m) L) in
    forall j nd p pn, ns !! j = Some nd -> parent nd = Some p -> ns !! p = Some pn -> p <> root ->
      support nd <= support pn.
Proof.
  intros sups m L ns j nd p pn Hj Hp Hpn Hpr.
  destruct (built_ok sups m L) as [Hwf _]. fold ns in Hwf.
  assert (Hjr : j <> root).
  { intros ->. destruct (wf_root _ Hwf) as (r & Hr & _ & Hr'). rewrite Hr in Hj. injection Hj as <-. congruence. }
  rewrite (built_node_support _ _ _ j nd Hj Hjr), (built_node_support _ _ _ p pn Hpn Hpr).
  apply through_mono. fold ns.
  rewrite (ipath_parent _ _ _ _ (wf_parents_older _ Hwf) Hj Hp). apply prefix_app_r. reflexivity.
Qed.

Lemma supports_decrease_downwards_witness :
  let ns := nodes (insert_all (newFPTree ∅ 1%Z) [(["a"; "b"], 1); (["a"], 1)]) in
  exists nd pn, ns !! 2 = Some nd /\ parent nd = Some 1 /\ ns !! 1 = Some pn /\ 1 <> root /\
    support nd = 1 /\ support pn = 2 /\ support nd <= support pn.
Proof.
  intros ns.
  destruct (ns !! 2) as [nd|] eqn:E2; [|vm_compute in E2; discriminate].
  destruct (ns !! 1) as [pn|] eqn:E1; [|vm_compute in E1; discriminate].
  assert (Hp : parent nd = Some 1) by (vm_compute in E2; injection E2 as <-; reflexivity).
  assert (Hr : 1 <> root) by (unfold root; lia).
  exists nd, pn. split; [reflexivity|]. split; [exact Hp|]. split; [reflexivity|].
  split; [exact Hr|].
  split; [vm_compute in E2; injection E2 as <-; reflexivity|].
  split; [vm_compute in E1; injection E1 as <-; reflexivity|].
  exact (supports_decrease_downwards ∅ 1%Z [(["a"; "b"], 1); (["a"], 1)] 2 nd 1 pn E2 Hp E1 Hr).
Defined.

(** X16: When no transaction repeats an item and [localeCompare] is a strict
    total order, no itemset emitted by [exec] repeats an item. *)
Theorem exec_itemsets_have_distinct_items :
  forall (lc : string -> string -> Z), strict_total lc ->
  forall (r : Q) (ts : list (list string)), (forall tr, In tr ts -> NoDup tr) ->
  forall is, emitted (snd (exec lc (newFPGrowth r) ts)) is -> NoDup (items is).
Proof.
  intros lc Hlc r ts Hnd is Hem. unfold exec in Hem. cbn [snd] in Hem.
  rewrite fromTransactions_built in Hem. cbn [rbind] in Hem.
  destruct (_fpGrowth lc (mining_fuel ts) _ (length ts) []) as [l|e] eqn:E; [|contradiction].
  unfold emitted in Hem. apply list_elem_of_In in Hem.
  eapply (mine_nodup lc Hlc (mining_fuel ts)); [|exact E|exact Hem].
  eexists; eexists; eexists. split; [reflexivity|]. split; [|split].
  - intros q w Hq. apply in_map_iff in Hq as (tr & Htr & Hin). injection Htr as <- _.
    apply (prepare_sorted lc Hlc), Hnd, Hin.
  - constructor.
  - intros y _ [].
Qed.

Lemma exec_itemsets_have_distinct_items_witness :
  strict_total code_point_compare /\
  (forall tr, In tr spec_transactions -> NoDup tr) /\
  (forall is, emitted (snd (exec code_point_compare (newFPGrowth (2 # 5)) spec_transactions)) is ->
     NoDup (items is)).
Proof.
  assert (H2 : forall tr, In tr spec_transactions -> NoDup tr).
  { intros tr Htr. destruct Htr as [<-|[<-|[<-|[<-|[<-|[]]]]]];
      apply (bool_decide_unpack _); vm_compute; exact I. }
  split; [exact code_point_compare_strict|]. split; [exact H2|].
  exact (exec_itemsets_have_distinct_items code_point_compare code_point_compare_strict
           (2 # 5) spec_transactions H2).
Defined.

(** X17: [exec] resolves with a list of itemsets in which no two itemsets have the
    same list of items. *)
Theorem exec_emits_each_itemset_once :
  forall (lc : string -> string -> Z) (self : FPGrowth) (ts : list (list string)),
    match snd (exec lc self ts) with
    | Ok l => NoDup (map items l)
    | Throw _ => False
    end.
Proof.
  intros lc self ts. unfold exec. cbn [snd]. rewrite fromTransactions_built. cbn [rbind].
  match goal with |- context [_fpGrowth lc ?f ?T ?ps ?P] =>
    assert (HT : built_tree T) by (eexists; eexists; eexists; reflexivity);
    destruct (fpGrowth_ok lc f T ps P HT) as [l Hl]; rewrite Hl;
    exact (mine_once lc f T ps P HT l Hl) end.
Qed.
